(** * Frequency: a chained hash table of counts and the scanners that fill it

    A shallow embedding of [FreqHash.c] and [frequency.c].

    Conventions of the embedding (LP64, as the source assumes: [next_power_of_2]
    shifts a [size_t] by 32):
    - [size_t] and [uint64_t] values are [Z] in [0, 2^64), every arithmetic
      operation is followed by [size_wrap];
    - [double] is IEEE binary64, taken from the Standard Library's executable
      specification [spec_float] with [prec = 53] and [emax = 1024];
    - a C array is a list whose length is the allocated extent, a pointer that
      may be [NULL] is an [option];
    - a key is a [string]: the characters of the C string before its terminator;
    - a run of the C program that has undefined behaviour (an access outside an
      allocated block, [strcmp] on [NULL], a remainder by zero, a conversion out
      of range) is the result [UB]; [malloc] is taken to succeed;
    - functions whose recursion or loop is not structural take a budget and
      answer [OutOfFuel] when it is used up. *)

From Stdlib Require Import ZArith String Ascii List Lia SpecFloat DecimalString.
From stdpp Require Import base list strings gmap.

Open Scope Z_scope.

(** ** Results of a C computation *)

Inductive result (A : Type) : Type :=
| Ok (a : A)
| UB
| OutOfFuel.

Arguments Ok {A} a.
Arguments UB {A}.
Arguments OutOfFuel {A}.

#[global] Instance result_ret : MRet result := fun A a => Ok a.
#[global] Instance result_bind : MBind result := fun A B f r =>
  match r with
  | Ok a => f a
  | UB => UB
  | OutOfFuel => OutOfFuel
  end.

(** [a[i]] for a [size_t] index: outside the block the behaviour is undefined. *)
Definition array_get {A} (a : list A) (i : Z) : result A :=
  if i <? 0 then UB else
  match a !! Z.to_nat i with
  | Some x => Ok x
  | None => UB
  end.

(** [a[i] = x]. *)
Definition array_set {A} (a : list A) (i : Z) (x : A) : result (list A) :=
  if i <? 0 then UB else
  match a !! Z.to_nat i with
  | Some _ => Ok (<[Z.to_nat i := x]> a)
  | None => UB
  end.

(** [for (i = start; i < start + n; ++i) body], with an early exit on [UB]. *)
Fixpoint for_loop {St} (n : nat) (i : Z) (body : Z -> St -> result St)
    (s : St) : result St :=
  match n with
  | O => Ok s
  | S n' => s' ← body i s; for_loop n' (i + 1) body s'
  end.

(** The loop [for (i = 0; i < n; ++i) f (a[i])], as a fold over the block. *)
Fixpoint fold_over {St A} (f : A -> St -> result St) (l : list A) (s : St)
  : result St :=
  match l with
  | [] => Ok s
  | x :: l' => s' ← f x s; fold_over f l' s'
  end.

(** ** Machine arithmetic *)

Definition size_wrap (x : Z) : Z := x mod 2 ^ 64.

Definition INT_MAX : Z := 2 ^ 31 - 1.
Definition LONG_MIN : Z := - 2 ^ 63.
Definition LONG_MAX : Z := 2 ^ 63 - 1.

(** [char] is signed on the platform the program was written for. *)
Definition char_val (c : ascii) : Z :=
  let n := Z.of_N (N_of_ascii c) in
  if n <? 128 then n else n - 256.

(** ** IEEE doubles *)

Definition double : Type := spec_float.

Definition double_add : double -> double -> double := SFadd 53 1024.
Definition double_div : double -> double -> double := SFdiv 53 1024.

(** [(double) z] for an [int] or [long] (round to nearest even). *)
Definition double_of_int (z : Z) : double := binary_normalize 53 1024 z 0 false.

Definition double_zero : double := S754_zero false.

(** The integer part of the magnitude [m * 2^e]. *)
Definition trunc_magnitude (m : positive) (e : Z) : Z :=
  if 0 <=? e then Z.pos m * 2 ^ e else Z.pos m / 2 ^ (- e).

(** [(long) v]: the fractional part is discarded; undefined when the integer
    part is not representable (infinities and NaN included). *)
Definition double_to_long (v : double) : result Z :=
  match v with
  | S754_zero _ => Ok 0
  | S754_finite s m e =>
      let z := cond_Zopp s (trunc_magnitude m e) in
      if (LONG_MIN <=? z) && (z <=? LONG_MAX) then Ok z else UB
  | S754_infinity _ | S754_nan => UB
  end.

(** ** FreqHash.c: the data *)

Definition DEFAULT_CAPACITY : Z := 10.
Definition RESIZE_MIN : Z := 16.

Record Pair : Type := mkPair {
  key : option string;      (* char *key, NULL in a zeroed slot *)
  value : double
}.

Record Bucket : Type := mkBucket {
  pairs : option (list Pair);   (* Pair *pairs, NULL until the first insertion *)
  bucket_length : Z             (* length: number of pairs stored *)
}.

Record Hash : Type := mkHash {
  buckets : list Bucket;
  hash_length : Z;              (* length of the buckets array *)
  hash_count : Z                (* number of items *)
}.

Definition sizeof_Pair : Z := 16.
Definition sizeof_Bucket : Z := 16.

(** A block obtained from [hash_malloc] is zero-filled. *)
Definition zero_Pair : Pair := mkPair None double_zero.
Definition zero_Bucket : Bucket := mkBucket None 0.

(** [hash_malloc (sizeof (T) * n)]: as many whole elements as the byte count,
    computed in [size_t], has room for. *)
Definition hash_malloc {A} (zero : A) (elt_size n : Z) : list A :=
  replicate (Z.to_nat (size_wrap (elt_size * n) / elt_size)) zero.

(** [hash_realloc]: the old elements are kept, the new tail is indeterminate
    (its keys are overwritten with [NULL] by the callers before any use). *)
Definition hash_realloc {A} (indet : A) (a : list A) (elt_size n : Z) : list A :=
  let m := Z.to_nat (size_wrap (elt_size * n) / elt_size) in
  take m a ++ replicate (m - length a)%nat indet.

(** ** FreqHash.c: sizes *)

Definition hash_function_from (x : Z) (k : string) : Z :=
  fold_left (fun x c => size_wrap (33 * x + char_val c)) (list_ascii_of_string k) x.

Definition hash_function (k : string) : Z := hash_function_from 5381 k.

Definition next_power_of_2 (x : Z) : Z :=
  let x := Z.lor x (Z.shiftr x 1) in
  let x := Z.lor x (Z.shiftr x 2) in
  let x := Z.lor x (Z.shiftr x 4) in
  let x := Z.lor x (Z.shiftr x 8) in
  let x := Z.lor x (Z.shiftr x 16) in
  let x := Z.lor x (Z.shiftr x 32) in
  size_wrap (x + 1).

Definition next_size (x : Z) : Z :=
  if x <? RESIZE_MIN then RESIZE_MIN else next_power_of_2 x.

Definition resize_p (x : Z) : bool :=
  (RESIZE_MIN <=? x) && (Z.land x (size_wrap (x - 1)) =? 0).

(** ** FreqHash.c: the operations *)

Definition hash_init_capacity (capacity : Z) : Hash :=
  {| buckets := hash_malloc zero_Bucket sizeof_Bucket (next_size capacity);
     hash_length := next_size capacity;
     hash_count := 0 |}.

Definition hash_init : Hash := hash_init_capacity DEFAULT_CAPACITY.

(** The storage is released; the dangling [buckets] pointer is the empty block. *)
Definition hash_clear (hash : Hash) : Hash :=
  {| buckets := []; hash_length := 0; hash_count := hash_count hash |}.

(** [hash_function (key) % length]. *)
Definition slot_index (len : Z) (k : string) : result Z :=
  if len =? 0 then UB else Ok (hash_function k mod len).

(** The search loop shared by all the operations:
    [for (j = 0; j < length; ++j) if (strcmp (pairs[j].key, key) == 0) ...].
    Answers the index of the first pair whose key is [k]. *)
Fixpoint bucket_find (ps : list Pair) (k : string) (j : Z) (n : nat)
  : result (option Z) :=
  match n with
  | O => Ok None
  | S n' =>
      p ← array_get ps j;
      match key p with
      | None => UB
      | Some k' =>
          if String.eqb k' k then Ok (Some j)
          else bucket_find ps k (j + 1) n'
      end
  end.

Definition hash_exists (hash : Hash) (k : string) : result Z :=
  i ← slot_index (hash_length hash) k;
  b ← array_get (buckets hash) i;
  match pairs b with
  | Some ps =>
      f ← bucket_find ps k 0 (Z.to_nat (bucket_length b));
      match f with
      | Some _ => Ok 1
      | None => Ok 0
      end
  | None => Ok 0
  end.

Definition hash_get (hash : Hash) (k : string) : result Z :=
  i ← slot_index (hash_length hash) k;
  b ← array_get (buckets hash) i;
  match pairs b with
  | Some ps =>
      f ← bucket_find ps k 0 (Z.to_nat (bucket_length b));
      match f with
      | Some j => p ← array_get ps j; double_to_long (value p)
      | None => Ok (-1)
      end
  | None => Ok (-1)
  end.

(** Lines 159-192 of [hash_inc] and 225-258 of [hash_put], which differ only
    in the assignment executed when the key is found ([+=] against [=]);
    [found] is that assignment.  The boolean is [true] when the function
    has executed its early [return 0]. *)
Definition hash_store (found : double -> double) (hash : Hash) (k : string)
    (v : double) : result (bool * Hash) :=
  i ← slot_index (hash_length hash) k;
  b ← array_get (buckets hash) i;
  match pairs b with
  | Some ps =>
      f ← bucket_find ps k 0 (Z.to_nat (bucket_length b));
      match f with
      | Some j =>
          p ← array_get ps j;
          ps' ← array_set ps j (mkPair (key p) (found (value p)));
          bs' ← array_set (buckets hash) i (mkBucket (Some ps') (bucket_length b));
          Ok (true, mkHash bs' (hash_length hash) (hash_count hash))
      | None =>
          (* here j = length *)
          '(ps1, j) ←
            (if resize_p (bucket_length b) then
               let n := next_size (size_wrap (bucket_length b + 1)) in
               ps1 ← for_loop (Z.to_nat (n - bucket_length b)) (bucket_length b)
                       (fun j ps => p ← array_get ps j;
                                    array_set ps j (mkPair None (value p)))
                       (hash_realloc zero_Pair ps sizeof_Pair n);
               (* the loop has left j at its bound *)
               Ok (ps1, Z.max (bucket_length b) n)
             else Ok (ps, bucket_length b));
          ps2 ← array_set ps1 j (mkPair (Some k) v);
          bs' ← array_set (buckets hash) i
                 (mkBucket (Some ps2) (size_wrap (bucket_length b + 1)));
          Ok (false, mkHash bs' (hash_length hash) (hash_count hash))
      end
  | None =>
      let ps := hash_malloc zero_Pair sizeof_Pair (next_size 1) in
      ps' ← array_set ps 0 (mkPair (Some k) v);
      bs' ← array_set (buckets hash) i (mkBucket (Some ps') 1);
      Ok (false, mkHash bs' (hash_length hash) (hash_count hash))
  end.

(** [hash_resize], given the [hash_put] it calls. *)
Definition hash_resize_with (put : Hash -> string -> double -> result Hash)
    (hash : Hash) : result Hash :=
  let res :=
    hash_init_capacity (size_wrap (sizeof_Bucket * next_size (hash_length hash))) in
  res' ← for_loop (Z.to_nat (hash_length hash)) 0 (fun i res =>
            b ← array_get (buckets hash) i;
            for_loop (Z.to_nat (bucket_length b)) 0 (fun j res =>
              ps ← match pairs b with Some ps => Ok ps | None => UB end;
              p ← array_get ps j;
              match key p with
              | Some k => put res k (value p)
              | None => Ok res
              end) res) res;
  let _ := hash_clear hash in
  Ok res'.

(** Lines 194-199 and 260-266: count the new item and grow past a load of 0.75. *)
Definition hash_count_and_grow (resize : option (Hash -> result Hash))
    (hash : Hash) : result Hash :=
  let hash := mkHash (buckets hash) (hash_length hash)
                (size_wrap (hash_count hash + 1)) in
  if size_wrap (hash_length hash * 75) <? size_wrap (hash_count hash * 100) then
    match resize with
    | Some r => r hash
    | None => OutOfFuel
    end
  else Ok hash.

Fixpoint hash_put (fuel : nat) (hash : Hash) (k : string) (v : double)
  : result Hash :=
  '(returned, hash) ← hash_store (fun _ => v) hash k v;
  if returned : bool then Ok hash else
  hash_count_and_grow
    match fuel with
    | O => None
    | S fuel' => Some (hash_resize_with (hash_put fuel'))
    end hash.

Definition hash_resize (fuel : nat) (hash : Hash) : result Hash :=
  hash_resize_with (hash_put fuel) hash.

Definition hash_inc (fuel : nat) (hash : Hash) (k : string) (v : double)
  : result Hash :=
  '(returned, hash) ← hash_store (fun old => double_add old v) hash k v;
  if returned : bool then Ok hash else
  hash_count_and_grow
    match fuel with
    | O => None
    | S fuel' => Some (hash_resize fuel')
    end hash.

(** [hash_test], up to the printing. *)
Definition hash_test (fuel : nat) : result Hash :=
  h ← hash_put fuel hash_init "hello" (double_of_int 1);
  h ← hash_put fuel h "hello" (double_of_int 3);
  h ← hash_inc fuel h "world" (double_of_int 5);
  hash_inc fuel h "world" (double_of_int 5).

(** [hash_merge (&dest, src)], for a [src] that shares no storage with
    [*dest]: every pair below the length of its bucket is handed to
    [hash_inc], with no test of its key. *)
Definition hash_merge (fuel : nat) (dest src : Hash) : result Hash :=
  for_loop (Z.to_nat (hash_length src)) 0 (fun i dest =>
    b ← array_get (buckets src) i;
    for_loop (Z.to_nat (bucket_length b)) 0 (fun j dest =>
      ps ← match pairs b with Some ps => Ok ps | None => UB end;
      p ← array_get ps j;
      match key p with
      | Some k => hash_inc fuel dest k (value p)
      | None => UB
      end) dest) dest.

(** [++i] for an [int] counter. *)
Definition int_succ (i : Z) : result Z :=
  if INT_MAX <? i + 1 then UB else Ok (i + 1).

(** The inner loop of [hash_foreach], from [j] on, with [n] pairs to go:
    the nonzero value with which the function returns, or 0 when the loop
    runs to its end.  [f] is the function pointed to. *)
Fixpoint foreach_pairs (f : string -> double -> Z) (ps : option (list Pair))
    (j : Z) (n : nat) : result Z :=
  match n with
  | O => Ok 0
  | S n' =>
      ps' ← match ps with Some ps' => Ok ps' | None => UB end;
      p ← array_get ps' j;
      let ret := match key p with
                 | Some k => f k (value p)
                 | None => 0
                 end in
      if negb (ret =? 0) then Ok ret else
      j ← int_succ j;
      foreach_pairs f ps j n'
  end.

(** The outer loop of [hash_foreach]. *)
Fixpoint foreach_buckets (f : string -> double -> Z) (bs : list Bucket)
    (i : Z) (n : nat) : result Z :=
  match n with
  | O => Ok 0
  | S n' =>
      b ← array_get bs i;
      ret ← foreach_pairs f (pairs b) 0 (Z.to_nat (bucket_length b));
      if negb (ret =? 0) then Ok ret else
      i ← int_succ i;
      foreach_buckets f bs i n'
  end.

Definition hash_foreach (hash : Hash) (f : string -> double -> Z) : result Z :=
  foreach_buckets f (buckets hash) 0 (Z.to_nat (hash_length hash)).

(** [x > y] and [x < y] on doubles; both are false when an operand is a NaN. *)
Definition double_gt (x y : double) : bool :=
  match SFcompare x y with
  | Some Gt => true
  | _ => false
  end.

Definition double_lt (x y : double) : bool :=
  match SFcompare x y with
  | Some Lt => true
  | _ => false
  end.

Definition pair_comparator (xp yp : Pair) : Z :=
  if double_gt (value xp) (value yp) then -1
  else if double_lt (value xp) (value yp) then 1
  else 0.

Section Sorting.

(** [qsort (base, n, sizeof (Pair), compar)] on the first [n] elements of a
    block, an external collaborator. *)
Variable qsort : (Pair -> Pair -> Z) -> list Pair -> list Pair.

(** [hash_sort]: the block [*res] and [*length].  The block is obtained from
    [malloc (sizeof (Bucket) * count)], [zero_Pair] standing for what fresh
    storage holds; [qsort] is handed the [k] pairs that were copied, all of
    them written before. *)
Definition hash_sort (hash : Hash) : result (list Pair * Z) :=
  let res :=
    replicate (Z.to_nat (size_wrap (sizeof_Bucket * hash_count hash) / sizeof_Pair))
      zero_Pair in
  '(res, k) ← for_loop (Z.to_nat (hash_length hash)) 0 (fun i st =>
      b ← array_get (buckets hash) i;
      for_loop (Z.to_nat (bucket_length b)) 0 (fun j '(res, k) =>
        ps ← match pairs b with Some ps => Ok ps | None => UB end;
        p ← array_get ps j;
        res ← array_set res k p;
        Ok (res, size_wrap (k + 1))) st) (res, 0);
  Ok (qsort pair_comparator (take (Z.to_nat k) res) ++ drop (Z.to_nat k) res, k).

End Sorting.

(** ** frequency.c: characters and buffers *)

Definition MAX_WORD_LEN : Z := 1000.

Definition NUL : ascii := "000"%char.

(** [<ctype.h>] in the C locale; a negative [char] is in no class. *)
Definition char_between (lo hi c : ascii) : bool :=
  let n := Z.of_N (N_of_ascii c) in
  (Z.of_N (N_of_ascii lo) <=? n) && (n <=? Z.of_N (N_of_ascii hi)).

Definition isalnum (c : ascii) : bool :=
  char_between "0" "9" c || char_between "A" "Z" c || char_between "a" "z" c.

Definition isprint (c : ascii) : bool := char_between " " "~" c.

Definition tolower (c : ascii) : ascii :=
  if char_between "A" "Z" c
  then ascii_of_N (N_of_ascii c + 32)
  else c.

(** The C string that starts at the head of a block: its characters up to
    the first [NUL]; reading past the block is undefined. *)
Fixpoint cstring_of (l : list ascii) : result string :=
  match l with
  | [] => UB
  | c :: l' =>
      if Ascii.eqb c NUL then Ok EmptyString
      else s ← cstring_of l'; Ok (String c s)
  end.

(** The C string at [buffer + pos]. *)
Definition cstring_at (buffer : list ascii) (pos : Z) : result string :=
  if pos <? 0 then UB else cstring_of (drop (Z.to_nat pos) buffer).

Definition strchr (s : string) (c : ascii) : bool :=
  existsb (Ascii.eqb c) (list_ascii_of_string s).

Definition filter_chars (buffer : list ascii) : result (list ascii) :=
  s ← cstring_at buffer 0;
  for_loop (String.length s) 0
    (fun i b => c ← array_get b i; array_set b i (tolower c)) buffer.

(** The loop of [legal_chars]: it reads [sequence[i]] and then advances both
    [i] and [sequence]; [seq] is the offset of [sequence] in the buffer. *)
Fixpoint legal_chars_loop (buffer : list ascii) (seq i : Z) (n : nat)
  : result bool :=
  match n with
  | O => Ok true
  | S n' =>
      c ← array_get buffer (seq + i);
      if negb (isprint c) && negb (Ascii.eqb c "010") && negb (Ascii.eqb c "009")
      then Ok false
      else legal_chars_loop buffer (seq + 1) (i + 1) n'
  end.

Definition legal_chars (buffer : list ascii) (seq len : Z) : result bool :=
  legal_chars_loop buffer seq 0 (Z.to_nat len).

(** ** frequency.c: the matcher, an external collaborator *)

Record regmatch_t : Type := mkMatch { rm_so : Z; rm_eo : Z }.

(** What [regexec (&compiled, s, 2, matchptr, 0)] answers: [0] with
    [matchptr[0]] and [matchptr[1]] filled in, or a nonzero error code. *)
Inductive regexec_result : Type :=
| REG_OK (m0 m1 : regmatch_t)
| REG_ERR (code : Z).

(** The values of [<regex.h>]. *)
Definition REG_NOMATCH : Z := 1.
Definition REG_ESPACE : Z := 12.

(** How one iteration of the loop of [freq_scan] leaves it. *)
Inductive scan_exit : Type :=
| ScanNext (buffer : list ascii) (hash : option Hash) (i matches : Z)
| ScanReturn (ret : Z) (buffer : list ascii) (hash : option Hash)
| ScanBreak (buffer : list ascii) (hash : option Hash) (matches : Z).

Section Scanning.

(** [regex_t], [regcomp] with [REG_EXTENDED | REG_ICASE] ([None] when the
    expression does not compile), [regexec], and [read_file] ([None] when
    the file cannot be opened, else the block and the number of characters
    read). *)
Variable regex_t : Type.
Variable regcomp : string -> option regex_t.
Variable regexec : regex_t -> string -> regexec_result.
Variable read_file : string -> option (list ascii * Z).

Definition freq_hash_inc (fuel : nat) (hash : Hash) (buffer : list ascii)
    (sequence : Z) (v : double) (m0 m1 : regmatch_t)
  : result (list ascii * Hash) :=
  let '(sequence, len) :=
    if negb (rm_so m1 =? rm_eo m1)
    then (sequence + rm_so m1, size_wrap (rm_eo m1 - rm_so m1))
    else (sequence + rm_so m0, size_wrap (rm_eo m0 - rm_so m0)) in
  legal ← legal_chars buffer sequence len;
  if negb legal then Ok (buffer, hash) else
  saved ← array_get buffer (sequence + len);
  buffer ← array_set buffer (sequence + len) NUL;
  k ← cstring_at buffer sequence;
  hash ← hash_inc fuel hash k v;
  buffer ← array_set buffer (sequence + len) saved;
  Ok (buffer, hash).

(** The body of the [while] loop of [freq_scan] (lines 380-402). *)
Definition freq_scan_body (fuel : nat) (hash : option Hash)
    (buffer : list ascii) (compiled : regex_t) (overlap : bool)
    (adjusted_multiplier : double) (i matches : Z) : result scan_exit :=
  holder ← array_get buffer (size_wrap (i + MAX_WORD_LEN));
  buffer ← array_set buffer (size_wrap (i + MAX_WORD_LEN)) NUL;
  s ← cstring_at buffer i;
  match regexec compiled s with
  | REG_OK m0 m1 =>
      '(buffer, hash) ←
        match hash with
        | Some h =>
            '(buffer, h) ← freq_hash_inc fuel h buffer i adjusted_multiplier m0 m1;
            Ok (buffer, Some h)
        | None => Ok (buffer, None)
        end;
      matches ← (if INT_MAX <? matches + 1 then UB else Ok (matches + 1));
      buffer ← array_set buffer (size_wrap (i + MAX_WORD_LEN)) holder;
      let i := if overlap : bool
               then size_wrap (i + (rm_so m0 + 1))
               else size_wrap (i + rm_eo m0) in
      Ok (ScanNext buffer hash i matches)
  | REG_ERR ret =>
      if ret =? REG_ESPACE then Ok (ScanReturn (-4) buffer hash)
      else Ok (ScanBreak buffer hash matches)
  end.

(** What [freq_scan] returns after its loop (lines 405-406). *)
Definition freq_scan_end (hash : option Hash) (matches : Z) : Z :=
  match hash with
  | None => matches
  | Some _ => 0
  end.

Fixpoint freq_scan_loop (fuel : nat) (hash : option Hash) (buffer : list ascii)
    (length : Z) (compiled : regex_t) (overlap : bool)
    (adjusted_multiplier : double) (i matches : Z)
  : result (Z * list ascii * option Hash) :=
  if i <? length then
    match fuel with
    | O => OutOfFuel
    | S fuel' =>
        e ← freq_scan_body fuel hash buffer compiled overlap
              adjusted_multiplier i matches;
        match e with
        | ScanNext buffer hash i matches =>
            freq_scan_loop fuel' hash buffer length compiled overlap
              adjusted_multiplier i matches
        | ScanReturn ret buffer hash => Ok (ret, buffer, hash)
        | ScanBreak buffer hash matches =>
            Ok (freq_scan_end hash matches, buffer, hash)
        end
    end
  else Ok (freq_scan_end hash matches, buffer, hash).

(** [freq_scan]: the value returned, the buffer and the hash it leaves. *)
Definition freq_scan (fuel : nat) (hash : option Hash) (buffer : list ascii)
    (length : Z) (compiled : regex_t) (overlap : bool)
    (adjusted_multiplier : double)
  : result (Z * list ascii * option Hash) :=
  freq_scan_loop fuel hash buffer length compiled overlap
    adjusted_multiplier 0 0.

(** Lines 271-273 of [freq_read_file]. *)
Definition select_overlap (regex : string) : bool :=
  if strchr regex "+" || strchr regex "*" then false else true.

(** The weight [freq_read_file] hands to its second pass (line 291). *)
Definition adjusted_multiplier_of (multiplier count : Z) : double :=
  double_div (double_of_int multiplier) (double_of_int count).

(** [freq_read_file]: the value returned and the hash it leaves. *)
Definition freq_read_file (fuel : nat) (hash : Hash) (filename regex : string)
    (multiplier : Z) : result (Z * Hash) :=
  let matches := 0 in
  let overlap := select_overlap regex in
  match regcomp regex with
  | None => Ok (-2, hash)
  | Some compiled =>
      match read_file filename with
      | None => Ok (-1, hash)
      | Some (buffer, length) =>
          buffer ← filter_chars buffer;
          '(count, buffer, _) ←
            freq_scan fuel None buffer length compiled overlap (double_of_int 1);
          let adjusted_multiplier := adjusted_multiplier_of multiplier count in
          '(_, buffer, hash') ←
            freq_scan fuel (Some hash) buffer length compiled overlap
              adjusted_multiplier;
          Ok (matches, default hash hash')
      end
  end.

(** *** The n-gram extractor *)

(** [while (i < length && !isalnum (buffer[i])) ++i;] *)
Fixpoint skip_separators (fuel : nat) (buffer : list ascii) (length i : Z)
  : result Z :=
  if i <? length then
    c ← array_get buffer i;
    if negb (isalnum c) then
      match fuel with
      | O => OutOfFuel
      | S fuel' => skip_separators fuel' buffer length (size_wrap (i + 1))
      end
    else Ok i
  else Ok i.

(** [while (i < length && (isalnum (buffer[i]) || buffer[i] == '\''))
      words[j++] = buffer[i++];] *)
Fixpoint copy_word (fuel : nat) (buffer : list ascii) (length : Z)
    (words : list ascii) (i j : Z) : result (list ascii * Z * Z) :=
  if i <? length then
    c ← array_get buffer i;
    if isalnum c || Ascii.eqb c "'" then
      match fuel with
      | O => OutOfFuel
      | S fuel' =>
          words ← array_set words j c;
          copy_word fuel' buffer length words (size_wrap (i + 1))
            (size_wrap (j + 1))
      end
    else Ok (words, i, j)
  else Ok (words, i, j).

(** The [for] loop over [k] (lines 337-355). *)
Fixpoint collect_words (fuel : nat) (buffer : list ascii) (length wordcount : Z)
    (words : list ascii) (i next_i j k : Z)
  : result (list ascii * Z * Z * Z * Z) :=
  if (i <? length) && (k <? wordcount) then
    match fuel with
    | O => OutOfFuel
    | S fuel' =>
        i ← skip_separators fuel buffer length i;
        '(words, j) ←
          (if 0 <? k then
             words ← array_set words j " "%char; Ok (words, size_wrap (j + 1))
           else Ok (words, j));
        c ← (if i <? length then array_get buffer i else Ok NUL);
        '(words, i, j) ←
          (if (i <? length) && isalnum c then
             '(words, i, j) ← copy_word fuel buffer length words i j;
             last ← array_get buffer (size_wrap (i - 1));
             if Ascii.eqb last "'"
             then Ok (words, size_wrap (i - 1), size_wrap (j - 1))
             else Ok (words, i, j)
           else Ok (words, i, j));
        let next_i := if k =? 0 then i else next_i in
        collect_words fuel' buffer length wordcount words i next_i j
          (size_wrap (k + 1))
    end
  else Ok (words, i, next_i, j, k).

(** The outer [while] loop (lines 333-366). *)
Fixpoint find_n_words_loop (fuel : nat) (hash : Hash) (buffer : list ascii)
    (length wordcount multiplier : Z) (words : list ascii) (i next_i : Z)
  : result Hash :=
  if i <? length then
    match fuel with
    | O => OutOfFuel
    | S fuel' =>
        let i := next_i in
        let j := 0 in
        '(words, i, next_i, j, k) ←
          collect_words fuel buffer length (size_wrap wordcount) words
            i next_i j 0;
        if k =? size_wrap wordcount then
          words ← array_set words j NUL;
          w ← cstring_at words 0;
          hash ← hash_inc fuel hash w (double_of_int multiplier);
          find_n_words_loop fuel' hash buffer length wordcount multiplier
            words i next_i
        else Ok hash
    end
  else Ok hash.

(** [find_n_words_for_file]: the value returned and the hash it leaves.
    [words] is an automatic array of [(MAX_WORD_LEN + 1) * wordcount]
    characters, which has to be a positive number; every character of it
    is written before it is read. *)
Definition find_n_words_for_file (fuel : nat) (hash : Hash) (filename : string)
    (wordcount multiplier : Z) : result (Z * Hash) :=
  match read_file filename with
  | None => Ok (-1, hash)
  | Some (buffer, length) =>
      buffer ← filter_chars buffer;
      let words := replicate (Z.to_nat ((MAX_WORD_LEN + 1) * wordcount)) NUL in
      hash ← find_n_words_loop fuel hash buffer length wordcount multiplier
               words 0 0;
      Ok (0, hash)
  end.

End Scanning.

Arguments freq_scan_body {regex_t} regexec fuel hash buffer compiled overlap
  adjusted_multiplier i matches.
Arguments freq_scan_loop {regex_t} regexec fuel hash buffer length compiled
  overlap adjusted_multiplier i matches.
Arguments freq_scan {regex_t} regexec fuel hash buffer length compiled overlap
  adjusted_multiplier.
Arguments freq_read_file {regex_t} regcomp regexec read_file fuel hash filename
  regex multiplier.

(** *** The advancement rule *)

(** The text [regexec] is handed at offset [i] (lines 387-390): the
    characters from [i] up to the first [NUL], the one written over
    [buffer[i + MAX_WORD_LEN]] included. *)
Definition scan_window (buffer : list ascii) (i : Z) : result string :=
  capped ← array_set buffer (size_wrap (i + MAX_WORD_LEN)) NUL;
  cstring_at capped i.

(** The advancement rule in the words of the specification: the offsets at
    which a scan that starts at [i] finds its matches.  After a match the
    scan advances by exactly one byte past the start of the match in overlap
    mode, and to the end of the match otherwise; it stops at the end of the
    buffer and at the first attempt that finds nothing.  Offsets are
    [uint64_t]. *)
Fixpoint spec_match_offsets {regex_t} (regexec : regex_t -> string -> regexec_result)
    (fuel : nat) (buffer : list ascii) (length : Z) (compiled : regex_t)
    (overlap : bool) (i : Z) : list Z :=
  match fuel with
  | O => []
  | S fuel' =>
      if i <? length then
        match scan_window buffer i with
        | Ok s =>
            match regexec compiled s with
            | REG_OK m _ =>
                let start := i + rm_so m in
                let finish := i + rm_eo m in
                i :: spec_match_offsets regexec fuel' buffer length compiled overlap
                       (size_wrap (if overlap then start + 1 else finish))
            | REG_ERR _ => []
            end
        | _ => []
        end
      else []
  end.

(** ** frequency.c: the tables of files *)

Definition files : list string :=
  ["000bigfiles/00allProse.txt"; "000bigfiles/01allCasual.txt";
   "000bigfiles/02allC.txt"; "000bigfiles/02allJava.txt";
   "000bigfiles/02allPerl.txt"; "000bigfiles/02allRuby.txt";
   "000bigfiles/03allFormal.txt"; "000bigfiles/04allNews.txt"]%string.

Definition files_no_prog : list string :=
  ["000bigfiles/00allProse.txt"; "000bigfiles/01allCasual.txt";
   "000bigfiles/03allFormal.txt"; "000bigfiles/04allNews.txt"]%string.

Definition multipliers : list Z := [18; 25; 4; 2; 1; 1; 15; 20].

Definition muls_no_prog : list Z := [18; 25; 15; 20].

(** The loop of [freq_read_files] and of [find_n_words]:
    [ret = read (hash, names[i], muls[i]); if (ret) return ret;] for [n]
    files from [i] on, then [return ret]. *)
Fixpoint read_files_loop (read : Hash -> string -> Z -> result (Z * Hash))
    (names : list string) (muls : list Z) (i : Z) (n : nat) (hash : Hash)
  : result (Z * Hash) :=
  match n with
  | O => Ok (0, hash)
  | S n' =>
      name ← array_get names i;
      mul ← array_get muls i;
      '(ret, hash) ← read hash name mul;
      if negb (ret =? 0) then Ok (ret, hash)
      else read_files_loop read names muls (i + 1) n' hash
  end.

Section Files.

Variable regex_t : Type.
Variable regcomp : string -> option regex_t.
Variable regexec : regex_t -> string -> regexec_result.
Variable read_file : string -> option (list ascii * Z).

Definition freq_read_files (fuel : nat) (hash : Hash) (regex : string)
  : result (Z * Hash) :=
  read_files_loop
    (fun hash name mul =>
       freq_read_file regcomp regexec read_file fuel hash name regex mul)
    files multipliers 0 (length files) hash.

Definition find_n_words (fuel : nat) (hash : Hash) (wordcount : Z)
  : result (Z * Hash) :=
  read_files_loop
    (fun hash name mul =>
       find_n_words_for_file read_file fuel hash name wordcount mul)
    files_no_prog muls_no_prog 0 (length files_no_prog) hash.

End Files.

Arguments freq_read_files {regex_t} regcomp regexec read_file fuel hash regex.

(** ** frequency.c: printing and reading *)

Definition ASCII_SHIFT : ascii := "014"%char.

(** What one round of the loop of [print_sequence] writes to the stream. *)
Definition print_char (ctrl_to_escape : bool) (c : ascii) : string :=
  if ctrl_to_escape then
    if Ascii.eqb c "010" then "\n"
    else if Ascii.eqb c "009" then "\t"
    else if Ascii.eqb c ASCII_SHIFT then "\s"
    else if Ascii.eqb c "008" then "\b"
    else if Ascii.eqb c "\" then "\\"
    else String c EmptyString
  else
    if Ascii.eqb c "010" then "\n"
    else if Ascii.eqb c ASCII_SHIFT then "\s"
    else if Ascii.eqb c "008" then "\b"
    else String c EmptyString.

(** [print_sequence]: the text written to the stream. *)
Fixpoint print_sequence (sequence : string) (ctrl_to_escape : bool) : string :=
  match sequence with
  | EmptyString => EmptyString
  | String c sequence' =>
      (print_char ctrl_to_escape c ++ print_sequence sequence' ctrl_to_escape)%string
  end.

(** The loop of [read_file]; [content] is what [fgetc] has still to deliver
    before the end of the file, [junk] what fresh storage holds.  The
    character read is kept in a [char] and compared with [EOF] there. *)
Fixpoint read_file_loop (junk : ascii) (content buffer : list ascii)
    (i tmp_length : Z) : result (list ascii * Z) :=
  match content with
  | [] => Ok (buffer, i)
  | c :: content' =>
      if char_val c =? -1 then Ok (buffer, i) else
      let '(buffer, tmp_length) :=
        if i =? tmp_length
        then (hash_realloc junk buffer 1 (size_wrap (tmp_length * 4)),
              size_wrap (tmp_length * 4))
        else (buffer, tmp_length) in
      buffer ← array_set buffer i c;
      read_file_loop junk content' buffer (size_wrap (i + 1)) tmp_length
  end.

(** [read_file]: [None] for the return value [-1], else the block and the
    length; [fopen_read] gives the bytes of the file of that name. *)
Definition read_file (fopen_read : string -> option (list ascii)) (junk : ascii)
    (filename : string) : result (option (list ascii * Z)) :=
  match fopen_read filename with
  | None => Ok None
  | Some content =>
      '(buffer, i) ← read_file_loop junk content (replicate 256 junk) 0 256;
      buffer ← array_set buffer i NUL;
      Ok (Some (buffer, i))
  end.

Definition CTRL_TO_ESCAPE_P : bool := true.

(** The conversion [%lld] of [printf]. *)
Definition print_long (z : Z) : string := NilZero.string_of_int (Z.to_int z).

Definition newline : ascii := "010"%char.

(** The loop of [print_pairs]: the text written for [n] pairs from [i] on. *)
Fixpoint print_pairs_loop (pairs : list Pair) (i : Z) (n : nat) : result string :=
  match n with
  | O => Ok EmptyString
  | S n' =>
      p ← array_get pairs i;
      k ← match key p with Some k => Ok k | None => UB end;
      z ← double_to_long (value p);
      rest ← print_pairs_loop pairs (i + 1) n';
      Ok (print_sequence k CTRL_TO_ESCAPE_P +:+ " " +:+ print_long z
          +:+ String newline rest)
  end.

(** [print_pairs]: the text written to [stdout]. *)
Definition print_pairs (pairs : list Pair) (length : Z) : result string :=
  out ← print_pairs_loop pairs 0 (Z.to_nat length);
  Ok (out +:+ String newline EmptyString).

(** ** frequency.c: the program *)

Section Program.

Variable qsort : (Pair -> Pair -> Z) -> list Pair -> list Pair.
Variable read_file : string -> option (list ascii * Z).

(** [main]: the value returned and the text written to [stdout].
    [MAX_TOKENS_TO_PRINT] is 0, so the length is not cut. *)
Definition main (fuel : nat) : result (Z * string) :=
  let hash := hash_init in
  '(_, hash) ← find_n_words_for_file read_file fuel hash
                 "000bigfiles/0 prose/0 shakespeare DO NOT USE.txt" 2 1;
  '(pairs, length) ← hash_sort qsort hash;
  out ← print_pairs pairs length;
  let _ := hash_clear hash in
  Ok (0, out).

End Program.

(** ** Concrete collaborators, for running the program on examples *)

(** The size of the block [read_file] ends with for [n] characters: it starts
    at 256 bytes and is quadrupled each time it is full. *)
Fixpoint block_size (fuel : nat) (tmp_length n : Z) : Z :=
  match fuel with
  | O => tmp_length
  | S fuel' =>
      if n <=? tmp_length then tmp_length
      else block_size fuel' (4 * tmp_length) n
  end.

(** What [read_file] hands back for a file of the given content: the block,
    holding the characters and their terminator, and the character count. *)
Definition file_block (content : list ascii) : list ascii * Z :=
  let n := Z.of_nat (length content) in
  (content ++ replicate (Z.to_nat (block_size 30 256 n) - length content)%nat NUL,
   n).

Definition one_file (content : list ascii) : string -> option (list ascii * Z) :=
  fun _ => Some (file_block content).

(** A matcher for which nothing matches. *)
Definition regexec_nomatch : unit -> string -> regexec_result :=
  fun _ _ => REG_ERR REG_NOMATCH.

(** A matcher that is out of memory on every call. *)
Definition regexec_espace : unit -> string -> regexec_result :=
  fun _ _ => REG_ERR REG_ESPACE.

(** The matcher of the pattern [.], which runs out of memory when the text
    handed to it starts with [x]. *)
Definition regexec_dot_espace : unit -> string -> regexec_result :=
  fun _ s =>
    match s with
    | EmptyString => REG_ERR REG_NOMATCH
    | String c _ =>
        if Ascii.eqb c "x" then REG_ERR REG_ESPACE
        else REG_OK (mkMatch 0 1) (mkMatch (-1) (-1))
    end.

Definition regcomp_any : string -> option unit := fun _ => Some tt.

(** The matcher of a lower-case pattern without operators: the first place
    where the text [pat] occurs, with no subexpression. *)
Definition regexec_literal : string -> string -> regexec_result :=
  fun pat s =>
    match index 0 pat s with
    | Some k =>
        REG_OK (mkMatch (Z.of_nat k) (Z.of_nat (k + String.length pat)))
          (mkMatch (-1) (-1))
    | None => REG_ERR REG_NOMATCH
    end.

(** [regcomp] for such patterns. *)
Definition regcomp_literal : string -> option string := Some.

(** Three times [a] after a [z], then 1100 times [z]. *)
Definition zaaa_text : list ascii :=
  ("z" :: "a" :: "a" :: "a" :: replicate 1100 "z")%char.

(** The live keys of a table with their values, slot by slot. *)
Definition bucket_items (b : Bucket) : list (string * double) :=
  p ← take (Z.to_nat (bucket_length b)) (default [] (pairs b));
  match key p with
  | Some k => [(k, value p)]
  | None => []
  end.

Definition hash_items (hash : Hash) : list (string * double) :=
  b ← buckets hash; bucket_items b.

(** ** Sequences of insertions *)

Inductive insertion : Type :=
| Put (k : string) (v : double)
| Inc (k : string) (v : double).

Definition insertion_key (o : insertion) : string :=
  match o with Put k _ | Inc k _ => k end.

Definition insert (fuel : nat) (hash : Hash) (o : insertion) : result Hash :=
  match o with
  | Put k v => hash_put fuel hash k v
  | Inc k v => hash_inc fuel hash k v
  end.

Fixpoint insert_all (fuel : nat) (hash : Hash) (os : list insertion)
  : result Hash :=
  match os with
  | [] => Ok hash
  | o :: os' => hash ← insert fuel hash o; insert_all fuel hash os'
  end.

(** ** The table read as a finite map *)

(** The pairs a bucket holds: the first [length] slots of its block. *)
Definition live_pairs (b : Bucket) : list Pair :=
  take (Z.to_nat (bucket_length b)) (default [] (pairs b)).

(** The position, and the value, of the first pair whose key is [k]. *)
Fixpoint pairs_index (l : list Pair) (k : string) : option nat :=
  match l with
  | [] => None
  | p :: l' =>
      if decide (key p = Some k) then Some O else S <$> pairs_index l' k
  end.

Fixpoint pairs_lookup (l : list Pair) (k : string) : option double :=
  match l with
  | [] => None
  | p :: l' =>
      if decide (key p = Some k) then Some (value p) else pairs_lookup l' k
  end.

Definition slot_of (hash : Hash) (k : string) : nat :=
  Z.to_nat (hash_function k mod hash_length hash).

(** The double stored for [k], if any. *)
Definition hash_lookup (hash : Hash) (k : string) : option double :=
  b ← buckets hash !! slot_of hash k; pairs_lookup (live_pairs b) k.

(** The shape every operation keeps: the slot count is a multiple of
    [RESIZE_MIN]; a bucket is [NULL] and empty or a block of
    [next_size (1) = 16] pairs of which the first [length] carry distinct
    keys that hash to the slot of the bucket. *)
Definition bucket_inv (len : Z) (i : nat) (b : Bucket) : Prop :=
  0 <= bucket_length b <= 16 /\
  match pairs b with
  | None => bucket_length b = 0
  | Some ps => length ps = 16%nat
  end /\
  Forall (fun p => exists k, key p = Some k /\
                             hash_function k mod len = Z.of_nat i)
         (live_pairs b) /\
  NoDup (key <$> live_pairs b).

Definition hash_inv (hash : Hash) : Prop :=
  0 < hash_length hash /\
  (RESIZE_MIN | hash_length hash) /\
  Z.of_nat (length (buckets hash)) = hash_length hash /\
  forall i b, buckets hash !! i = Some b -> bucket_inv (hash_length hash) i b.

(** [hash] stores the finite map [m]. *)
Definition represents (hash : Hash) (m : gmap string double) : Prop :=
  hash_inv hash /\
  (forall k, hash_lookup hash k = m !! k) /\
  hash_count hash = Z.of_nat (size m).

(** A load of at most 0.75, as the code tests it. *)
Definition load_ok (hash : Hash) : Prop :=
  hash_count hash * 100 <= hash_length hash * 75.

(** What a sequence of insertions stores, key by key. *)
Definition model_insert (m : gmap string double) (o : insertion)
  : gmap string double :=
  match o with
  | Put k v => <[k := v]> m
  | Inc k v =>
      <[k := match m !! k with
             | Some old => double_add old v
             | None => v
             end]> m
  end.

Definition model (os : list insertion) : gmap string double :=
  foldl model_insert ∅ os.

(** The number of distinct keys of a sequence of insertions. *)
Definition distinct_keys (os : list insertion) : nat :=
  size (list_to_set (insertion_key <$> os) : gset string).

(** More than 16 of the keys agree on their hash modulo [RESIZE_MIN]:
    they may all fall into one slot, whose bucket has room for 16. *)
Definition crowded (ks : gset string) : Prop :=
  exists r : Z,
    (16 < size (filter (fun k => (hash_function k mod RESIZE_MIN = r)%Z) ks))%nat.

(** The insertions of [hash_test]. *)
Definition hash_test_insertions : list insertion :=
  [Put "hello" (double_of_int 1); Put "hello" (double_of_int 3);
   Inc "world" (double_of_int 5); Inc "world" (double_of_int 5)].

(** Thirteen keys, one more than a table of 16 slots takes at a load of
    0.75, then an increment by a half of one of them. *)
Definition thirteen_keys : list insertion :=
  ((fun k => Put k (double_of_int 1)) <$>
     ["a"; "b"; "c"; "d"; "e"; "f"; "g"; "h"; "i"; "j"; "k"; "l"; "m"]%string)
  ++ [Inc "n" (double_div (double_of_int 5) (double_of_int 10));
      Inc "a" (double_div (double_of_int 5) (double_of_int 10))].

(** Seventeen keys whose hashes agree modulo 1024. *)
Definition seventeen_keys : list insertion :=
  (fun k => Inc k (double_of_int 1)) <$>
    ["asa"; "bqb"; "coc"; "dmd"; "eke"; "fif"; "ggg"; "heh"; "ici"; "jaj";
     "mzn"; "nxo"; "ovp"; "ptq"; "qrr"; "rps"; "snt"]%string.

(** ** Vocabulary of the further properties *)

(** The first value of a list that is not 0, or 0. *)
Fixpoint first_nonzero (l : list Z) : Z :=
  match l with
  | [] => 0
  | x :: l' => if x =? 0 then first_nonzero l' else x
  end.

(** The call of [f] on the key and the value of an item. *)
Definition call_on (f : string -> double -> Z) (kv : string * double) : Z :=
  f kv.1 kv.2.

(** The items among some pairs: those whose key is not [NULL]. *)
Definition items_of (l : list Pair) : list (string * double) :=
  p ← l; match key p with Some k => [(k, value p)] | None => [] end.

Definition pair_of_item (kv : string * double) : Pair := mkPair (Some kv.1) kv.2.

(** The call of [hash_inc] that [hash_merge] makes for a pair. *)
Definition inc_of_pair (p : Pair) : insertion :=
  Inc (default EmptyString (key p)) (value p).

(** How [hash_merge] combines the values of a key that both tables have. *)
Definition add_values (old v : double) : option double := Some (double_add old v).

(** A sort by insertion, to stand for [qsort] on examples. *)
Fixpoint insert_by (cmp : Pair -> Pair -> Z) (p : Pair) (l : list Pair)
  : list Pair :=
  match l with
  | [] => [p]
  | q :: l' => if cmp p q <=? 0 then p :: l else q :: insert_by cmp p l'
  end.

Definition sort_by (cmp : Pair -> Pair -> Z) (l : list Pair) : list Pair :=
  foldr (insert_by cmp) [] l.

(** The characters [legal_chars] lets pass. *)
Definition legal_char (c : ascii) : bool :=
  isprint c || Ascii.eqb c "010" || Ascii.eqb c "009".

(** The range [freq_hash_inc] selects, as an offset from [sequence] and a
    length: the first subexpression when it is not empty, else the whole
    match. *)
Definition selected_range (m0 m1 : regmatch_t) : Z * Z :=
  if negb (rm_so m1 =? rm_eo m1)
  then (rm_so m1, size_wrap (rm_eo m1 - rm_so m1))
  else (rm_so m0, size_wrap (rm_eo m0 - rm_so m0)).

(** How far a match moves the scan of [freq_scan]. *)
Definition scan_advance (overlap : bool) (m0 : regmatch_t) : Z :=
  if overlap then rm_so m0 + 1 else rm_eo m0.

(** A matcher that finds the empty string at the start of every text, as
    the one of [x*] does on a text without [x]. *)
Definition regexec_empty : unit -> string -> regexec_result :=
  fun _ _ => REG_OK (mkMatch 0 0) (mkMatch (-1) (-1)).

(** The inverse of the escaping [print_sequence] does with
    [ctrl_to_escape]. *)
Fixpoint unescape (s : string) : string :=
  match s with
  | EmptyString => EmptyString
  | String c s' =>
      if Ascii.eqb c "\" then
        match s' with
        | EmptyString => String c EmptyString
        | String d s'' =>
            String (if Ascii.eqb d "n" then "010"
                    else if Ascii.eqb d "t" then "009"
                    else if Ascii.eqb d "s" then ASCII_SHIFT
                    else if Ascii.eqb d "b" then "008"
                    else d)%char
                   (unescape s'')
        end
      else String c (unescape s')
  end.

(** The characters [read_file] takes from a file: those before the first
    one that equals [EOF] once it is a [char]. *)
Fixpoint chars_before_eof (content : list ascii) : list ascii :=
  match content with
  | [] => []
  | c :: content' =>
      if char_val c =? -1 then [] else c :: chars_before_eof content'
  end.

(** The number of leading characters of [l] that satisfy [P]. *)
Fixpoint run_length (P : ascii -> bool) (l : list ascii) : nat :=
  match l with
  | [] => O
  | c :: l' => if P c then S (run_length P l') else O
  end.

(** What the two inner loops of [find_n_words_for_file] step over. *)
Definition separator_char (c : ascii) : bool := negb (isalnum c).
Definition word_char (c : ascii) : bool := isalnum c || Ascii.eqb c "'".

(** The characters from offset [i] up to [length]. *)
Definition rest_of (buffer : list ascii) (length i : Z) : list ascii :=
  take (Z.to_nat (length - i)) (drop (Z.to_nat i) buffer).

(** The number of newline characters of a text. *)
Fixpoint count_newlines (s : string) : nat :=
  match s with
  | EmptyString => O
  | String c s' => (if Ascii.eqb c newline then 1 else 0) + count_newlines s'
  end.

(** * Properties *)

(** ** Reading results *)

Lemma bind_Ok {A B} (r : result A) (f : A -> result B) (b : B) :
  r ≫= f = Ok b -> exists a, r = Ok a /\ f a = Ok b.
Proof. destruct r; cbn; [eauto | discriminate | discriminate]. Qed.

Lemma bind_not_OutOfFuel {A B} (r : result A) (f : A -> result B) :
  r <> OutOfFuel -> (forall a, r = Ok a -> f a <> OutOfFuel) ->
  r ≫= f <> OutOfFuel.
Proof. destruct r; cbn; [eauto | discriminate | congruence]. Qed.

Lemma bind_not_UB {A B} (r : result A) (f : A -> result B) :
  r <> UB -> (forall a, r = Ok a -> f a <> UB) -> r ≫= f <> UB.
Proof. destruct r; cbn; [eauto | congruence | discriminate]. Qed.

Lemma array_get_Ok {A} (a : list A) (i : Z) (x : A) :
  array_get a i = Ok x -> 0 <= i /\ a !! Z.to_nat i = Some x.
Proof.
  unfold array_get. destruct (Z.ltb_spec i 0); [discriminate|].
  destruct (a !! Z.to_nat i); [|discriminate]. intros [= ->]. auto.
Qed.

Lemma array_get_lookup {A} (a : list A) (i : nat) (x : A) :
  a !! i = Some x -> array_get a (Z.of_nat i) = Ok x.
Proof.
  intros H. unfold array_get. destruct (Z.ltb_spec (Z.of_nat i) 0); [lia|].
  by rewrite Nat2Z.id, H.
Qed.

Lemma array_set_Ok {A} (a a' : list A) (i : Z) (x : A) :
  array_set a i x = Ok a' ->
  0 <= i /\ (Z.to_nat i < length a)%nat /\ a' = <[Z.to_nat i := x]> a.
Proof.
  unfold array_set. destruct (Z.ltb_spec i 0); [discriminate|].
  destruct (a !! Z.to_nat i) eqn:E; [|discriminate]. intros [= <-].
  apply lookup_lt_Some in E. auto.
Qed.

Lemma array_set_lookup {A} (a : list A) (i : nat) (x : A) :
  (i < length a)%nat -> array_set a (Z.of_nat i) x = Ok (<[i := x]> a).
Proof.
  intros H. unfold array_set. destruct (Z.ltb_spec (Z.of_nat i) 0); [lia|].
  rewrite Nat2Z.id. destruct (lookup_lt_is_Some_2 a i H) as [y ->]. done.
Qed.

Lemma array_get_not_OutOfFuel {A} (a : list A) (i : Z) :
  array_get a i <> OutOfFuel.
Proof. unfold array_get. repeat case_match; discriminate. Qed.

Lemma array_set_not_OutOfFuel {A} (a : list A) (i : Z) (x : A) :
  array_set a i x <> OutOfFuel.
Proof. unfold array_set. repeat case_match; discriminate. Qed.

(** Takes a hypothesis [r = Ok _] apart along the binds of [r]. *)
Ltac inv_Ok H :=
  repeat (cbv beta iota in H;
    match type of H with
    | _ ≫= _ = Ok _ =>
        let a := fresh "a" in let E := fresh "E" in
        apply bind_Ok in H; destruct H as (a & E & H)
    | (let '(_, _) := ?p in _) = Ok _ => destruct p
    end).


(** ** The table *)

(** ** Sizes *)

(** One smearing step doubles the reach of the set bits. *)
Lemma smear_step (x y D : Z) :
  0 < D ->
  (forall n, 0 <= n ->
     Z.testbit y n = true <-> exists d, 0 <= d < D /\ Z.testbit x (n + d) = true) ->
  forall n, 0 <= n ->
    Z.testbit (Z.lor y (Z.shiftr y D)) n = true <->
    exists d, 0 <= d < 2 * D /\ Z.testbit x (n + d) = true.
Proof.
  intros HD Hy n Hn.
  rewrite Z.lor_spec, Z.shiftr_spec, orb_true_iff, !Hy by lia.
  split.
  - intros [(d & Hd & Hb)|(d & Hd & Hb)].
    + exists d. split; [lia|done].
    + exists (D + d). split; [lia|]. by replace (n + (D + d)) with (n + D + d) by lia.
  - intros (d & Hd & Hb). destruct (Z.lt_ge_cases d D).
    + left. exists d. split; [lia|done].
    + right. exists (d - D). split; [lia|].
      by replace (n + D + (d - D)) with (n + d) by lia.
Qed.

Lemma next_power_of_2_log2 (x : Z) :
  0 < x < 2 ^ 64 ->
  next_power_of_2 x = size_wrap (2 ^ (Z.log2 x + 1)).
Proof.
  intros Hx. unfold next_power_of_2.
  set (x1 := Z.lor x (Z.shiftr x 1)).
  set (x2 := Z.lor x1 (Z.shiftr x1 2)).
  set (x3 := Z.lor x2 (Z.shiftr x2 4)).
  set (x4 := Z.lor x3 (Z.shiftr x3 8)).
  set (x5 := Z.lor x4 (Z.shiftr x4 16)).
  set (x6 := Z.lor x5 (Z.shiftr x5 32)).
  assert (H0 : forall n, 0 <= n ->
    Z.testbit x n = true <-> exists d, 0 <= d < 1 /\ Z.testbit x (n + d) = true).
  { intros n Hn. split.
    - intros Hb. exists 0. split; [lia|]. by rewrite Z.add_0_r.
    - intros (d & Hd & Hb). by replace (n + d) with n in Hb by lia. }
  pose proof (smear_step x x 1 ltac:(lia) H0) as H1.
  pose proof (smear_step x x1 2 ltac:(lia) H1) as H2.
  pose proof (smear_step x x2 4 ltac:(lia) H2) as H3.
  pose proof (smear_step x x3 8 ltac:(lia) H3) as H4.
  pose proof (smear_step x x4 16 ltac:(lia) H4) as H5.
  pose proof (smear_step x x5 32 ltac:(lia) H5) as H6.
  fold x1 x2 x3 x4 x5 x6 in H1, H2, H3, H4, H5, H6 |- *.
  assert (Hlog : 0 <= Z.log2 x < 64).
  { split; [apply Z.log2_nonneg|]. apply Z.log2_lt_pow2; lia. }
  assert (Hx6 : x6 = Z.ones (Z.log2 x + 1)).
  { apply Z.bits_inj'. intros n Hn.
    destruct (Z.testbit (Z.ones _) n) eqn:Ho.
    - apply H6; [done|].
      apply Z.ones_spec_iff in Ho; [|lia]. exists (Z.log2 x - n). split; [lia|].
      replace (n + (Z.log2 x - n)) with (Z.log2 x) by lia.
      apply Z.bit_log2. lia.
    - destruct (Z.testbit x6 n) eqn:Hb; [|done].
      apply H6 in Hb as (d & Hd & Hb); [|done].
      assert (n + d <= Z.log2 x).
      { destruct (Z.le_gt_cases (n + d) (Z.log2 x)); [done|].
        rewrite Z.bits_above_log2 in Hb by lia. done. }
      rewrite Z.ones_spec_low in Ho by lia. done. }
  rewrite Hx6, Z.ones_equiv. f_equal. lia.
Qed.

Lemma next_power_of_2_bounds (x : Z) :
  0 < x < 2 ^ 63 ->
  x < next_power_of_2 x <= 2 * x.
Proof.
  intros Hx. rewrite next_power_of_2_log2 by lia.
  pose proof (Z.log2_spec x ltac:(lia)) as [Hlo Hhi].
  rewrite <- Z.add_1_r in Hhi.
  assert (2 ^ (Z.log2 x + 1) = 2 * 2 ^ Z.log2 x) as Heq.
  { rewrite Z.pow_add_r; [lia| apply Z.log2_nonneg | lia]. }
  unfold size_wrap. rewrite Z.mod_small; lia.
Qed.

Lemma next_size_bounds (x : Z) :
  0 <= x < 2 ^ 63 ->
  16 <= next_size x /\ x < next_size x <= Z.max 16 (2 * x).
Proof.
  intros Hx. unfold next_size, RESIZE_MIN. destruct (Z.ltb_spec x 16); [lia|].
  pose proof (next_power_of_2_bounds x ltac:(lia)). lia.
Qed.

Lemma next_size_multiple (x : Z) :
  0 <= x < 2 ^ 63 -> (RESIZE_MIN | next_size x).
Proof.
  intros Hx. unfold next_size, RESIZE_MIN.
  destruct (Z.ltb_spec x 16); [done|].
  rewrite next_power_of_2_log2 by lia.
  assert (4 <= Z.log2 x < 63).
  { split; [apply (Z.log2_le_mono 16); lia|apply Z.log2_lt_pow2; lia]. }
  assert (2 ^ (Z.log2 x + 1) < 2 ^ 64) by (apply Z.pow_lt_mono_r; lia).
  assert (0 < 2 ^ (Z.log2 x + 1)) by (apply Z.pow_pos_nonneg; lia).
  unfold size_wrap. rewrite Z.mod_small by lia.
  exists (2 ^ (Z.log2 x + 1 - 4)). rewrite <- (Z.pow_add_r 2 _ 4) by lia.
  f_equal. lia.
Qed.

Lemma next_size_pow2 (k : Z) :
  4 <= k < 63 -> next_size (2 ^ k) = 2 ^ (k + 1).
Proof.
  intros Hk. unfold next_size, RESIZE_MIN.
  assert (2 ^ 4 <= 2 ^ k) by (apply Z.pow_le_mono_r; lia).
  assert (2 ^ k < 2 ^ 63) by (apply Z.pow_lt_mono_r; lia).
  assert (2 ^ (k + 1) <= 2 ^ 63) by (apply Z.pow_le_mono_r; lia).
  destruct (Z.ltb_spec (2 ^ k) 16); [lia|].
  rewrite next_power_of_2_log2 by lia.
  rewrite Z.log2_pow2 by lia. unfold size_wrap. rewrite Z.mod_small; lia.
Qed.

(** ** Loops *)

Lemma for_loop_ind {St} (P : St -> Prop) (body : Z -> St -> result St)
    (n : nat) (i : Z) (s s' : St) :
  P s ->
  (forall i s s', P s -> body i s = Ok s' -> P s') ->
  for_loop n i body s = Ok s' -> P s'.
Proof.
  intros Hs Hbody. revert i s Hs.
  induction n as [|n IH]; intros i s Hs H; cbn in H.
  - by injection H as <-.
  - apply bind_Ok in H as (s1 & E & H). eauto.
Qed.

(** ** Pairs *)

Lemma pairs_index_Some (l : list Pair) (k : string) (j : nat) :
  pairs_index l k = Some j ->
  exists p, l !! j = Some p /\ key p = Some k /\
            pairs_lookup l k = Some (value p).
Proof.
  revert j. induction l as [|p l IH]; intros j H; cbn in *; [done|].
  destruct (decide (key p = Some k)).
  - injection H as <-. eauto.
  - destruct (pairs_index l k) as [j'|]; [|done].
    injection H as <-. destruct (IH j' eq_refl) as (q & ? & ? & ?). eauto.
Qed.

Lemma pairs_index_None (l : list Pair) (k : string) :
  pairs_index l k = None ->
  pairs_lookup l k = None /\ Some k ∉ key <$> l.
Proof.
  induction l as [|p l IH]; intros H; cbn in *.
  - split; [done|]. apply not_elem_of_nil.
  - destruct (decide (key p = Some k)); [done|].
    destruct (pairs_index l k); [done|].
    destruct (IH eq_refl). split; [done|].
    rewrite not_elem_of_cons. split; [congruence|done].
Qed.

Lemma pairs_lookup_insert_eq (l : list Pair) (k : string) (j : nat) (p' : Pair) :
  pairs_index l k = Some j -> key p' = Some k ->
  pairs_lookup (<[j := p']> l) k = Some (value p').
Proof.
  revert j. induction l as [|p l IH]; intros j H Hk; cbn in *; [done|].
  destruct (decide (key p = Some k)).
  - injection H as <-. cbn. by rewrite decide_True.
  - destruct (pairs_index l k) as [j'|]; [|done].
    injection H as <-. cbn. rewrite decide_False by done. eauto.
Qed.

Lemma pairs_lookup_insert_ne (l : list Pair) (k' : string) (j : nat) (p p' : Pair) :
  l !! j = Some p -> key p' = key p ->
  key p <> Some k' ->
  pairs_lookup (<[j := p']> l) k' = pairs_lookup l k'.
Proof.
  revert j. induction l as [|q l IH]; intros j H Hk Hne; [done|].
  destruct j as [|j]; cbn in *.
  - injection H as ->. rewrite Hk. by rewrite !decide_False.
  - destruct (decide (key q = Some k')); eauto.
Qed.

Lemma pairs_lookup_app (l1 l2 : list Pair) (k : string) :
  pairs_lookup (l1 ++ l2) k =
  match pairs_lookup l1 k with
  | Some v => Some v
  | None => pairs_lookup l2 k
  end.
Proof.
  induction l1 as [|p l1 IH]; cbn; [done|].
  by destruct (decide (key p = Some k)).
Qed.

Lemma pairs_lookup_elem (l : list Pair) (k : string) (v : double) :
  NoDup (key <$> l) -> mkPair (Some k) v ∈ l -> pairs_lookup l k = Some v.
Proof.
  induction l as [|p l IH]; intros Hnd Hin; [by apply elem_of_nil in Hin|].
  cbn in *. apply NoDup_cons in Hnd as [Hp Hnd].
  apply elem_of_cons in Hin as [<-|Hin]; cbn.
  - by rewrite decide_True.
  - destruct (decide (key p = Some k)) as [Heq|]; [|eauto].
    exfalso. apply Hp. rewrite Heq.
    apply list_elem_of_fmap. by exists (mkPair (Some k) v).
Qed.

Lemma pairs_lookup_Some (l : list Pair) (k : string) (v : double) :
  pairs_lookup l k = Some v -> mkPair (Some k) v ∈ l.
Proof.
  induction l as [|p l IH]; intros H; cbn in *; [done|].
  destruct (decide (key p = Some k)) as [Heq|].
  - injection H as <-. destruct p as [kp vp]; cbn in *. subst. apply list_elem_of_here.
  - apply list_elem_of_further. eauto.
Qed.

Lemma pairs_lookup_None (l : list Pair) (k : string) :
  Some k ∉ key <$> l -> pairs_lookup l k = None.
Proof.
  induction l as [|p l IH]; intros H; cbn in *; [done|].
  apply not_elem_of_cons in H as [? ?].
  rewrite decide_False by congruence. eauto.
Qed.

(** The search loop finds what [pairs_index] finds. *)
Lemma bucket_find_index (k : string) (ps : list Pair) (n j : nat) :
  (j + n <= length ps)%nat ->
  Forall (fun p => is_Some (key p)) (take n (drop j ps)) ->
  bucket_find ps k (Z.of_nat j) n =
  Ok ((fun x => Z.of_nat (j + x)) <$> pairs_index (take n (drop j ps)) k).
Proof.
  revert j. induction n as [|n IH]; intros j Hlen Hall; [done|].
  destruct (lookup_lt_is_Some_2 ps j ltac:(lia)) as [p Hp].
  rewrite (drop_S _ _ _ Hp) in Hall |- *. cbn in Hall |- *.
  apply Forall_cons in Hall as [[k' Hk'] Hall].
  rewrite (array_get_lookup _ _ _ Hp). cbn. rewrite Hk'.
  destruct (String.eqb_spec k' k) as [->|Hne].
  - rewrite decide_True by done. cbn. do 2 f_equal. lia.
  - rewrite decide_False by congruence.
    replace (Z.of_nat j + 1) with (Z.of_nat (S j)) by lia.
    rewrite IH by (done || lia).
    destruct (pairs_index _ k); cbn; [|done]. do 2 f_equal. lia.
Qed.

(** ** Reading the table *)

Lemma slot_index_inv (hash : Hash) (k : string) :
  hash_inv hash ->
  slot_index (hash_length hash) k = Ok (Z.of_nat (slot_of hash k)) /\
  exists b, buckets hash !! slot_of hash k = Some b /\
            bucket_inv (hash_length hash) (slot_of hash k) b.
Proof.
  intros (Hpos & _ & Hlen & Hb). unfold slot_index, slot_of.
  pose proof (Z.mod_pos_bound (hash_function k) (hash_length hash) Hpos).
  destruct (Z.eqb_spec (hash_length hash) 0); [lia|].
  rewrite Z2Nat.id by lia. split; [done|].
  destruct (lookup_lt_is_Some_2 (buckets hash)
              (Z.to_nat (hash_function k mod hash_length hash))) as [b Hb'];
    [lia|]. eauto.
Qed.

Lemma bucket_inv_keys (len : Z) (i : nat) (b : Bucket) :
  bucket_inv len i b -> Forall (fun p => is_Some (key p)) (live_pairs b).
Proof.
  intros (_ & _ & Hall & _). eapply Forall_impl; [exact Hall|].
  intros p (k & -> & _). eauto.
Qed.

(** In a well-formed bucket the search loop of the code computes
    [pairs_index] over the live pairs. *)
Lemma bucket_find_live (len : Z) (i : nat) (b : Bucket) (ps : list Pair)
    (k : string) :
  bucket_inv len i b -> pairs b = Some ps ->
  bucket_find ps k 0 (Z.to_nat (bucket_length b)) =
  Ok (Z.of_nat <$> pairs_index (live_pairs b) k).
Proof.
  intros Hinv Hps. pose proof (bucket_inv_keys _ _ _ Hinv) as Hkeys.
  destruct Hinv as (Hlen & Hblock & _). rewrite Hps in Hblock.
  unfold live_pairs in *. rewrite Hps in *. cbn [default] in *.
  pose proof (bucket_find_index k ps (Z.to_nat (bucket_length b)) 0) as H.
  change (Z.of_nat 0) with 0 in H. rewrite drop_0 in H.
  rewrite H; [|lia|done].
  destruct (pairs_index _ k); done.
Qed.

Lemma live_pairs_lookup (b : Bucket) (ps : list Pair) (j : nat) (p : Pair) :
  pairs b = Some ps -> live_pairs b !! j = Some p ->
  ps !! j = Some p /\ (j < Z.to_nat (bucket_length b))%nat.
Proof.
  intros Hps. unfold live_pairs. rewrite Hps. cbn.
  intros [? ?]%lookup_take_Some. done.
Qed.

Theorem hash_get_lookup (hash : Hash) (k : string) :
  hash_inv hash ->
  hash_get hash k =
  match hash_lookup hash k with
  | Some v => double_to_long v
  | None => Ok (-1)
  end.
Proof.
  intros Hinv. destruct (slot_index_inv hash k Hinv) as (Hi & b & Hb & Hbinv).
  unfold hash_get, hash_lookup. rewrite Hi. cbn.
  rewrite (array_get_lookup _ _ _ Hb), Hb. cbn.
  destruct (pairs b) as [ps|] eqn:Hps.
  - rewrite (bucket_find_live _ _ _ _ k Hbinv Hps).
    destruct (pairs_index (live_pairs b) k) as [j|] eqn:Hj; cbn.
    + apply pairs_index_Some in Hj as (p & Hp & _ & ->).
      apply (live_pairs_lookup _ _ _ _ Hps) in Hp as [Hp _].
      by rewrite (array_get_lookup _ _ _ Hp).
    + apply pairs_index_None in Hj as [-> _]. done.
  - unfold live_pairs. rewrite Hps. cbn. by rewrite take_nil.
Qed.

Theorem hash_exists_lookup (hash : Hash) (k : string) :
  hash_inv hash ->
  hash_exists hash k = Ok match hash_lookup hash k with Some _ => 1 | None => 0 end.
Proof.
  intros Hinv. destruct (slot_index_inv hash k Hinv) as (Hi & b & Hb & Hbinv).
  unfold hash_exists, hash_lookup. rewrite Hi. cbn.
  rewrite (array_get_lookup _ _ _ Hb), Hb. cbn.
  destruct (pairs b) as [ps|] eqn:Hps.
  - rewrite (bucket_find_live _ _ _ _ k Hbinv Hps).
    destruct (pairs_index (live_pairs b) k) as [j|] eqn:Hj; cbn.
    + apply pairs_index_Some in Hj as (p & _ & _ & ->). done.
    + apply pairs_index_None in Hj as [-> _]. done.
  - unfold live_pairs. rewrite Hps. cbn. by rewrite take_nil.
Qed.

(** ** Writing one bucket *)

Lemma hash_set_bucket (hash : Hash) (i : nat) (b b' : Bucket) :
  hash_inv hash ->
  buckets hash !! i = Some b ->
  bucket_inv (hash_length hash) i b' ->
  let hash' := mkHash (<[i := b']> (buckets hash)) (hash_length hash)
                 (hash_count hash) in
  hash_inv hash' /\
  forall k, hash_lookup hash' k =
            if decide (slot_of hash k = i)
            then pairs_lookup (live_pairs b') k
            else hash_lookup hash k.
Proof.
  intros (Hpos & Hdiv & Hlen & Hall) Hb Hb'. cbn. split.
  - split; [done|]. split; [done|]. split; [cbn; by rewrite length_insert|].
    cbn. intros j bj Hj.
    destruct (decide (j = i)) as [->|Hne].
    + rewrite list_lookup_insert_eq in Hj by (by eapply lookup_lt_Some).
      by injection Hj as <-.
    + rewrite list_lookup_insert_ne in Hj by done. eauto.
  - intros k. unfold hash_lookup, slot_of. cbn.
    destruct (decide (_ = i)) as [->|Hne].
    + rewrite list_lookup_insert_eq by (by eapply lookup_lt_Some). done.
    + by rewrite list_lookup_insert_ne.
Qed.

(** The growth branch of [hash_store]: the loop that nulls the new keys
    leaves [j] at the size of the reallocated block, and the store that
    follows is one pair beyond it. *)
Lemma bucket_growth_store_UB (ps ps1 ps2 : list Pair) (len : Z) (p : Pair) :
  0 <= len < 2 ^ 58 ->
  let n := next_size (size_wrap (len + 1)) in
  for_loop (Z.to_nat (n - len)) len
    (fun j ps => q ← array_get ps j; array_set ps j (mkPair None (value q)))
    (hash_realloc zero_Pair ps sizeof_Pair n) = Ok ps1 ->
  array_set ps1 (Z.max len n) p = Ok ps2 ->
  False.
Proof.
  intros Hlen n E H.
  apply array_set_Ok in H as (_ & Hlt & _).
  assert (Hn : len < n <= Z.max 16 (2 * (len + 1))).
  { unfold n, size_wrap. rewrite Z.mod_small by lia.
    pose proof (next_size_bounds (len + 1) ltac:(lia)). lia. }
  assert (Hl : length ps1 = Z.to_nat n).
  { eapply (for_loop_ind (fun l => length l = Z.to_nat n)) in E; [done| |].
    - unfold hash_realloc, sizeof_Pair, size_wrap.
      rewrite Z.mod_small by lia.
      rewrite (Z.mul_comm 16 n), Z.div_mul by lia.
      rewrite length_app, length_take, length_replicate. lia.
    - intros j l l' Hl Hb. apply bind_Ok in Hb as (q & _ & Hb).
      apply array_set_Ok in Hb as (_ & _ & ->). by rewrite length_insert. }
  lia.
Qed.

Lemma live_pairs_Some (ps : list Pair) (n : Z) :
  live_pairs (mkBucket (Some ps) n) = take (Z.to_nat n) ps.
Proof. done. Qed.

(** What the shared part of [hash_put] and [hash_inc] does to a well-formed
    table: it overwrites the value of a key that is there and leaves through
    the early [return], or appends the key to its bucket. *)
Lemma hash_store_spec (found : double -> double) (hash hash' : Hash)
    (k : string) (v : double) (returned : bool) :
  hash_inv hash ->
  hash_store found hash k v = Ok (returned, hash') ->
  hash_inv hash' /\
  hash_length hash' = hash_length hash /\
  hash_count hash' = hash_count hash /\
  if returned
  then exists old, hash_lookup hash k = Some old /\
         forall k', hash_lookup hash' k' =
                    if decide (k' = k) then Some (found old)
                    else hash_lookup hash k'
  else hash_lookup hash k = None /\
       forall k', hash_lookup hash' k' =
                  if decide (k' = k) then Some v else hash_lookup hash k'.
Proof.
  intros Hinv H.
  destruct (slot_index_inv hash k Hinv) as (Hi & b & Hb & Hbinv).
  assert (Hlook : hash_lookup hash k = pairs_lookup (live_pairs b) k).
  { unfold hash_lookup. by rewrite Hb. }
  assert (Hslot : forall k', slot_of hash k' = slot_of hash k ->
            hash_lookup hash k' = pairs_lookup (live_pairs b) k').
  { intros k' Hk'. unfold hash_lookup. by rewrite Hk', Hb. }
  assert (Hfinish : forall b' (f : option double -> option double),
    bucket_inv (hash_length hash) (slot_of hash k) b' ->
    (forall k', slot_of hash k' = slot_of hash k ->
       pairs_lookup (live_pairs b') k' =
       if decide (k' = k) then f (pairs_lookup (live_pairs b) k)
       else pairs_lookup (live_pairs b) k') ->
    let hash' := mkHash (<[slot_of hash k := b']> (buckets hash))
                   (hash_length hash) (hash_count hash) in
    hash_inv hash' /\
    forall k', hash_lookup hash' k' =
               if decide (k' = k) then f (hash_lookup hash k)
               else hash_lookup hash k').
  { intros b' f Hb' Hl.
    destruct (hash_set_bucket hash _ b b' Hinv Hb Hb') as [Hinv' Hl'].
    split; [done|]. intros k'. rewrite Hl'.
    destruct (decide (slot_of hash k' = slot_of hash k)) as [Hs|Hs].
    - rewrite Hl by done. rewrite Hlook. destruct (decide (k' = k)); [done|].
      by rewrite Hslot.
    - rewrite decide_False; [done|]. by intros ->. }
  unfold hash_store in H. rewrite Hi in H. cbn [mbind result_bind] in H.
  rewrite (array_get_lookup _ _ _ Hb) in H. cbn [mbind result_bind] in H.
  pose proof Hbinv as (Hblen & Hblock & Hkeys & Hnd).
  destruct (pairs b) as [ps|] eqn:Hps.
  - rewrite (bucket_find_live _ _ _ _ k Hbinv Hps) in H.
    cbn [mbind result_bind] in H.
    destruct (pairs_index (live_pairs b) k) as [j|] eqn:Hj; cbn [fmap option_fmap option_map] in H.
    + (* the key is there *)
      pose proof Hj as (p & Hp & Hkp & Hv)%pairs_index_Some.
      pose proof (live_pairs_lookup _ _ _ _ Hps Hp) as [Hp' Hjlt].
      rewrite (array_get_lookup _ _ _ Hp') in H. cbn [mbind result_bind] in H.
      rewrite array_set_lookup in H by (by eapply lookup_lt_Some).
      cbn [mbind result_bind] in H.
      rewrite array_set_lookup in H by (by eapply lookup_lt_Some).
      cbn [mbind result_bind] in H. injection H as <- <-.
      set (p' := mkPair (key p) (found (value p))).
      assert (Hlive : live_pairs (mkBucket (Some (<[j := p']> ps))
                                    (bucket_length b))
                      = <[j := p']> (live_pairs b)).
      { rewrite live_pairs_Some. unfold live_pairs. rewrite Hps. cbn.
        by rewrite take_insert_lt. }
      edestruct (Hfinish (mkBucket (Some (<[j := p']> ps)) (bucket_length b))
                   (fun _ => Some (found (value p)))) as [Hinv' Hl'].
      * split; [done|]. split; [cbn; by rewrite length_insert|].
        rewrite Hlive. split.
        -- apply Forall_insert; [done|].
           rewrite Forall_lookup in Hkeys. apply (Hkeys _ _ Hp).
        -- rewrite list_fmap_insert. rewrite list_insert_id; [done|].
           by rewrite list_lookup_fmap, Hp.
      * intros k' Hk'. rewrite Hlive. destruct (decide (k' = k)) as [->|Hne].
        -- by apply pairs_lookup_insert_eq.
        -- eapply pairs_lookup_insert_ne; [done|done|]. rewrite Hkp. congruence.
      * split; [done|]. split; [done|]. split; [done|].
        exists (value p). split; [by rewrite Hlook|done].
    + (* the key is new to a bucket that has pairs *)
      pose proof Hj as [Hnone Hnotin]%pairs_index_None.
      apply bind_Ok in H as ([ps1 j] & E & H).
      apply bind_Ok in H as (ps2 & E2 & H).
      apply bind_Ok in H as (bs' & E3 & H). injection H as <- <-.
      destruct (resize_p (bucket_length b)).
      { apply bind_Ok in E as (ps1' & E & Heq). injection Heq as <- <-.
        exfalso. eapply bucket_growth_store_UB; [|exact E|exact E2]. lia. }
      injection E as <- <-.
      apply array_set_Ok in E2 as (_ & Hlt & ->).
      apply array_set_Ok in E3 as (_ & _ & ->).
      rewrite Nat2Z.id.
      assert (Hwrap : size_wrap (bucket_length b + 1) = bucket_length b + 1).
      { unfold size_wrap. rewrite Z.mod_small; lia. }
      rewrite Hwrap.
      set (p' := mkPair (Some k) v).
      assert (Hlive : live_pairs (mkBucket (Some (<[Z.to_nat (bucket_length b) := p']> ps))
                                    (bucket_length b + 1))
                      = live_pairs b ++ [p']).
      { rewrite live_pairs_Some. unfold live_pairs. rewrite Hps. cbn.
        replace (Z.to_nat (bucket_length b + 1))
          with (S (Z.to_nat (bucket_length b))) by lia.
        erewrite take_S_r; [|by apply list_lookup_insert_eq].
        by rewrite take_insert_ge. }
      edestruct (Hfinish (mkBucket (Some (<[Z.to_nat (bucket_length b) := p']> ps))
                            (bucket_length b + 1))
                   (fun _ => Some v)) as [Hinv' Hl'].
      * split; [cbn; lia|]. split; [cbn; by rewrite length_insert|].
        rewrite Hlive. split.
        -- apply Forall_app. split; [done|]. apply Forall_singleton.
           exists k. split; [done|]. unfold slot_of.
           destruct Hinv as (Hpos & _).
           pose proof (Z.mod_pos_bound (hash_function k) (hash_length hash) Hpos).
           lia.
        -- rewrite fmap_app. apply NoDup_app. split; [done|].
           split; [|apply NoDup_singleton].
           intros x Hx ->%list_elem_of_singleton. done.
      * intros k' Hk'. rewrite Hlive, pairs_lookup_app. cbn.
        destruct (decide (k' = k)) as [->|Hne].
        -- rewrite Hnone. by rewrite decide_True.
        -- rewrite decide_False by congruence.
           by destruct (pairs_lookup (live_pairs b) k').
      * split; [done|]. split; [done|]. split; [done|].
        split; [by rewrite Hlook|done].
  - (* the bucket has no pairs yet *)
    assert (Hlive0 : live_pairs b = []).
    { unfold live_pairs. rewrite Hps. cbn. by rewrite take_nil. }
    apply bind_Ok in H as (ps' & E & H).
    apply bind_Ok in H as (bs' & E3 & H). injection H as <- <-.
    apply array_set_Ok in E as (_ & _ & ->).
    apply array_set_Ok in E3 as (_ & _ & ->).
    rewrite Nat2Z.id.
    set (p' := mkPair (Some k) v).
    edestruct (Hfinish (mkBucket (Some (<[Z.to_nat 0 := p']>
                           (hash_malloc zero_Pair sizeof_Pair (next_size 1)))) 1)
                 (fun _ => Some v)) as [Hinv' Hl'].
    + split; [cbn; lia|]. split; [done|]. rewrite live_pairs_Some.
      change (take _ _) with [p']. split.
      * apply Forall_singleton. exists k. split; [done|]. unfold slot_of.
        destruct Hinv as (Hpos & _).
        pose proof (Z.mod_pos_bound (hash_function k) (hash_length hash) Hpos).
        lia.
      * apply NoDup_singleton.
    + intros k' Hk'. rewrite live_pairs_Some. change (take _ _) with [p'].
      rewrite Hlive0. cbn. destruct (decide (k' = k)) as [->|Hne].
      * by rewrite decide_True.
      * by rewrite decide_False by congruence.
    + split; [done|]. split; [done|]. split; [done|].
      split; [by rewrite Hlook, Hlive0|done].
Qed.

(** ** Array loops as folds *)

Lemma bind_ret {A} (r : result A) : r ≫= (fun a => Ok a) = r.
Proof. by destruct r. Qed.


Lemma for_loop_array {St A} (a : list A) (f : A -> St -> result St)
    (n j : nat) (s : St) :
  (j + n <= length a)%nat ->
  for_loop n (Z.of_nat j) (fun i s => x ← array_get a i; f x s) s =
  fold_over f (take n (drop j a)) s.
Proof.
  revert j s. induction n as [|n IH]; intros j s Hlen; [done|].
  destruct (lookup_lt_is_Some_2 a j ltac:(lia)) as [x Hx].
  rewrite (drop_S _ _ _ Hx). cbn.
  rewrite (array_get_lookup _ _ _ Hx). cbn.
  destruct (f x s) as [s'| |]; cbn; [|done|done].
  replace (Z.of_nat j + 1) with (Z.of_nat (S j)) by lia.
  apply IH. lia.
Qed.

Lemma fold_over_ext {St A} (f g : A -> St -> result St) (l : list A) (s : St) :
  (forall x s, x ∈ l -> f x s = g x s) ->
  fold_over f l s = fold_over g l s.
Proof.
  revert s. induction l as [|x l IH]; intros s H; [done|]. cbn.
  rewrite H by apply list_elem_of_here.
  destruct (g x s); cbn; [|done|done].
  apply IH. intros y s' Hy. apply H. by apply list_elem_of_further.
Qed.

Lemma fold_over_app {St A} (f : A -> St -> result St) (l1 l2 : list A) (s : St) :
  fold_over f (l1 ++ l2) s = (s' ← fold_over f l1 s; fold_over f l2 s').
Proof.
  revert s. induction l1 as [|x l1 IH]; intros s; [done|]. cbn.
  destruct (f x s); cbn; done.
Qed.

Lemma fold_over_bind {St A B} (f : B -> St -> result St) (g : A -> list B)
    (l : list A) (s : St) :
  fold_over (fun x s => fold_over f (g x) s) l s = fold_over f (l ≫= g) s.
Proof.
  revert s. induction l as [|x l IH]; intros s; [done|]. cbn.
  rewrite fold_over_app. destruct (fold_over f (g x) s); cbn; done.
Qed.

(** The two loops of [hash_resize] visit the live pairs slot by slot. *)
Lemma hash_resize_with_live (put : Hash -> string -> double -> result Hash)
    (hash : Hash) :
  hash_inv hash ->
  hash_resize_with put hash =
  fold_over (fun p res => match key p with
                          | Some k => put res k (value p)
                          | None => Ok res
                          end)
    (buckets hash ≫= live_pairs)
    (hash_init_capacity
       (size_wrap (sizeof_Bucket * next_size (hash_length hash)))).
Proof.
  intros (Hpos & _ & Hlen & Hall). unfold hash_resize_with.
  pose proof (for_loop_array (St := Hash) (buckets hash)) as Hout.
  specialize (Hout
    (fun b res => for_loop (Z.to_nat (bucket_length b)) 0
       (fun j res => ps ← match pairs b with Some ps => Ok ps | None => UB end;
                     p ← array_get ps j;
                     match key p with
                     | Some k => put res k (value p)
                     | None => Ok res
                     end) res)
    (Z.to_nat (hash_length hash)) O).
  change (Z.of_nat 0) with 0 in Hout. rewrite Hout by lia. clear Hout.
  rewrite drop_0, take_ge by lia.
  rewrite <- fold_over_bind.
  rewrite bind_ret. apply fold_over_ext.
  intros b res [i Hb]%list_elem_of_lookup_1. cbn beta.
  destruct (Hall i b Hb) as (Hblen & Hblock & _).
  unfold live_pairs. destruct (pairs b) as [ps|]; cbn.
  - pose proof (for_loop_array (St := Hash) ps
      (fun p res => match key p with
                    | Some k => put res k (value p)
                    | None => Ok res
                    end) (Z.to_nat (bucket_length b)) O res) as Hin.
    change (Z.of_nat 0) with 0 in Hin. rewrite Hin by lia.
    by rewrite drop_0.
  - rewrite Hblock. done.
Qed.

(** ** The budget is only consumed by a resize *)

Lemma for_loop_not_OutOfFuel {St} (body : Z -> St -> result St)
    (n : nat) (i : Z) (s : St) :
  (forall i s, body i s <> OutOfFuel) -> for_loop n i body s <> OutOfFuel.
Proof.
  intros Hb. revert i s. induction n as [|n IH]; intros i s; cbn; [done|].
  apply bind_not_OutOfFuel; eauto.
Qed.

Lemma bucket_find_not_OutOfFuel (ps : list Pair) (k : string) (j : Z) (n : nat) :
  bucket_find ps k j n <> OutOfFuel.
Proof.
  revert j. induction n as [|n IH]; intros j; cbn; [done|].
  apply bind_not_OutOfFuel; [apply array_get_not_OutOfFuel|].
  intros p _. destruct (key p); [|done]. by destruct (String.eqb _ _).
Qed.

Lemma hash_store_not_OutOfFuel (found : double -> double) (hash : Hash)
    (k : string) (v : double) :
  hash_store found hash k v <> OutOfFuel.
Proof.
  unfold hash_store.
  apply bind_not_OutOfFuel; [unfold slot_index; by case_match|]. intros i _.
  apply bind_not_OutOfFuel; [apply array_get_not_OutOfFuel|]. intros b _.
  destruct (pairs b) as [ps|].
  - apply bind_not_OutOfFuel; [apply bucket_find_not_OutOfFuel|].
    intros [j|] _.
    + apply bind_not_OutOfFuel; [apply array_get_not_OutOfFuel|]. intros p _.
      apply bind_not_OutOfFuel; [apply array_set_not_OutOfFuel|]. intros ps' _.
      apply bind_not_OutOfFuel; [apply array_set_not_OutOfFuel|]. done.
    + apply bind_not_OutOfFuel.
      * destruct (resize_p _); [|done].
        apply bind_not_OutOfFuel; [|done].
        apply for_loop_not_OutOfFuel. intros j ps0.
        apply bind_not_OutOfFuel; [apply array_get_not_OutOfFuel|].
        intros q _. apply array_set_not_OutOfFuel.
      * intros [ps1 j] _.
        apply bind_not_OutOfFuel; [apply array_set_not_OutOfFuel|]. intros ps' _.
        apply bind_not_OutOfFuel; [apply array_set_not_OutOfFuel|]. done.
  - apply bind_not_OutOfFuel; [apply array_set_not_OutOfFuel|]. intros ps' _.
    apply bind_not_OutOfFuel; [apply array_set_not_OutOfFuel|]. done.
Qed.

(** ** Operations on the map a table represents *)

Lemma hash_put_unfold (fuel : nat) (hash : Hash) (k : string) (v : double) :
  hash_put fuel hash k v =
  ('(returned, hash) ← hash_store (fun _ => v) hash k v;
   if returned : bool then Ok hash else
   hash_count_and_grow
     match fuel with
     | O => None
     | S fuel' => Some (hash_resize_with (hash_put fuel'))
     end hash).
Proof. by destruct fuel. Qed.

Lemma represents_with_count (hash : Hash) (m : gmap string double) (c : Z) :
  hash_inv hash -> (forall k, hash_lookup hash k = m !! k) ->
  c = Z.of_nat (size m) ->
  represents (mkHash (buckets hash) (hash_length hash) c) m.
Proof. intros Hinv Hl ->. done. Qed.

Lemma represents_empty (capacity : Z) :
  0 <= capacity < 2 ^ 59 ->
  represents (hash_init_capacity capacity) ∅.
Proof.
  intros Hc. pose proof (next_size_bounds capacity ltac:(lia)) as [H16 Hn].
  assert (Hb : buckets (hash_init_capacity capacity)
               = replicate (Z.to_nat (next_size capacity)) zero_Bucket).
  { cbn. unfold hash_malloc, sizeof_Bucket, size_wrap.
    rewrite Z.mod_small by lia. by rewrite (Z.mul_comm 16), Z.div_mul by lia. }
  split; [|split].
  - split; [cbn; lia|]. split; [apply next_size_multiple; lia|]. split.
    + rewrite Hb, length_replicate. cbn. lia.
    + intros i b. rewrite Hb. intros [-> _]%lookup_replicate.
      split; [cbn; lia|]. split; [done|].
      split; [apply Forall_nil_2|apply NoDup_nil_2].
  - intros k. rewrite lookup_empty. unfold hash_lookup. rewrite Hb.
    destruct (replicate _ _ !! _) as [b|] eqn:E; [|done].
    apply lookup_replicate in E as [-> _]. done.
  - by rewrite map_size_empty.
Qed.

(** ** The pairs of a table *)

Lemma live_pairs_stored (hash : Hash) (p : Pair) :
  hash_inv hash -> p ∈ buckets hash ≫= live_pairs ->
  exists k, key p = Some k /\ hash_lookup hash k = Some (value p).
Proof.
  intros (Hpos & _ & Hlen & Hall) (b & Hp & Hb)%list_elem_of_bind.
  apply list_elem_of_lookup_1 in Hb as [i Hb].
  destruct (Hall i b Hb) as (_ & _ & Hkeys & Hnd).
  rewrite Forall_forall in Hkeys. destruct (Hkeys p Hp) as (k & Hk & Hslot).
  exists k. split; [done|]. unfold hash_lookup, slot_of.
  rewrite Hslot, Nat2Z.id, Hb. cbn.
  apply pairs_lookup_elem; [done|]. destruct p as [kp vp]. cbn in *. by subst.
Qed.

Lemma stored_in_live_pairs (hash : Hash) (k : string) (v : double) :
  hash_lookup hash k = Some v ->
  Some k ∈ key <$> (buckets hash ≫= live_pairs).
Proof.
  unfold hash_lookup. intros H.
  destruct (buckets hash !! slot_of hash k) as [b|] eqn:Hb; [|done].
  cbn in H. apply pairs_lookup_Some in H.
  apply list_elem_of_fmap. exists (mkPair (Some k) v). split; [done|].
  apply list_elem_of_bind. exists b. split; [done|].
  by eapply list_elem_of_lookup_2.
Qed.

(** ** Room in the buckets *)

Lemma live_pairs_length (len : Z) (i : nat) (b : Bucket) :
  bucket_inv len i b -> Z.of_nat (length (live_pairs b)) = bucket_length b.
Proof.
  intros (Hlen & Hblock & _). unfold live_pairs.
  destruct (pairs b) as [ps|]; cbn.
  - rewrite length_take. lia.
  - rewrite take_nil. cbn. lia.
Qed.

(** A bucket that is to receive a new key has room for it as long as the
    keys are not crowded. *)
Lemma bucket_room (hash : Hash) (m : gmap string double) (k : string)
    (b : Bucket) (X : gset string) :
  hash_inv hash ->
  (forall k, hash_lookup hash k = m !! k) ->
  buckets hash !! slot_of hash k = Some b ->
  m !! k = None ->
  dom m ∪ {[k]} ⊆ X ->
  ~ crowded X ->
  bucket_length b < 16.
Proof.
  intros Hinv Hl Hb Hk HX Hcr.
  pose proof Hinv as (Hpos & Hdiv & Hlen & Hall).
  pose proof (Hall _ _ Hb) as Hbinv.
  pose proof Hbinv as (_ & _ & Hkeys & Hnd).
  rewrite <- (live_pairs_length _ _ _ Hbinv).
  set (r := hash_function k mod RESIZE_MIN).
  assert (Hres : forall k', hash_function k' mod hash_length hash
                            = Z.of_nat (slot_of hash k) ->
                            hash_function k' mod RESIZE_MIN = r).
  { intros k' Hk'. unfold r, slot_of in *.
    pose proof (Z.mod_pos_bound (hash_function k) (hash_length hash) Hpos).
    rewrite Z2Nat.id in Hk' by lia.
    rewrite <- (Z.mod_mod_divide (hash_function k') _ _ Hdiv), Hk'.
    by apply Z.mod_mod_divide. }
  set (l := omap key (live_pairs b)).
  assert (Hlen_l : length l = length (live_pairs b)).
  { unfold l. clear -Hkeys. induction Hkeys as [|p ps (k' & Hk' & _) _ IH];
      [done|]. cbn. rewrite Hk'. cbn. by rewrite IH. }
  assert (Hnd_l : NoDup l).
  { unfold l. clear -Hnd Hkeys.
    induction Hkeys as [|p ps (k' & Hk' & _) Hps IH]; [apply NoDup_nil_2|].
    cbn in *. rewrite Hk' in *. cbn. apply NoDup_cons in Hnd as [Hnin Hnd].
    apply NoDup_cons. split; [|auto].
    intros (q & Hq & Hkq)%list_elem_of_omap. apply Hnin.
    apply list_elem_of_fmap. eauto. }
  assert (Hin_l : forall k', k' ∈ l ->
            k' ∈ dom m /\ hash_function k' mod RESIZE_MIN = r).
  { intros k' (p & Hp & Hkp)%list_elem_of_omap.
    rewrite Forall_forall in Hkeys.
    destruct (Hkeys p Hp) as (k'' & Hk'' & Hslot).
    assert (k'' = k') as -> by congruence.
    split; [|by apply Hres].
    apply elem_of_dom. rewrite <- Hl.
    destruct (live_pairs_stored hash p Hinv) as (k3 & Hk3 & Hv).
    - apply list_elem_of_bind. exists b. split; [done|].
      by eapply list_elem_of_lookup_2.
    - assert (k3 = k') as -> by congruence. eauto. }
  assert (Hsub : list_to_set (k :: l)
                 ⊆ filter (fun k => hash_function k mod RESIZE_MIN = r) X).
  { intros k' [->|Hk']%elem_of_list_to_set%elem_of_cons; apply elem_of_filter.
    - split; [done|]. apply HX, elem_of_union. right.
      by apply elem_of_singleton.
    - destruct (Hin_l k' Hk'). split; [done|]. apply HX, elem_of_union.
      by left. }
  apply subseteq_size in Hsub. rewrite size_list_to_set in Hsub.
  - cbn in Hsub. assert (~ (16 < size (filter
        (fun k => (hash_function k mod RESIZE_MIN = r)%Z) X))%nat)
      by (intros ?; apply Hcr; by exists r).
    lia.
  - apply NoDup_cons. split; [|done]. intros Hkl.
    destruct (Hin_l k Hkl) as [Hdom _]. apply elem_of_dom in Hdom as [? ?].
    congruence.
Qed.

Lemma first_pair_store (p : Pair) :
  array_set (hash_malloc zero_Pair sizeof_Pair (next_size 1)) 0 p
  = Ok (p :: replicate 15 zero_Pair).
Proof. reflexivity. Qed.

(** [hash_store] is defined on a well-formed table unless it has to add a
    key to a bucket that already holds 16. *)
Lemma hash_store_not_UB (found : double -> double) (hash : Hash) (k : string)
    (v : double) (b : Bucket) :
  hash_inv hash ->
  buckets hash !! slot_of hash k = Some b ->
  hash_lookup hash k <> None \/ bucket_length b < 16 ->
  hash_store found hash k v <> UB.
Proof.
  intros Hinv Hb Hroom.
  destruct (slot_index_inv hash k Hinv) as (Hi & b' & Hb' & Hbinv).
  assert (b' = b) as -> by congruence.
  assert (Hlook : hash_lookup hash k = pairs_lookup (live_pairs b) k).
  { unfold hash_lookup. by rewrite Hb. }
  pose proof (lookup_lt_Some _ _ _ Hb) as Hslot.
  unfold hash_store. rewrite Hi. cbn [mbind result_bind].
  rewrite (array_get_lookup _ _ _ Hb). cbn [mbind result_bind].
  pose proof Hbinv as (Hblen & Hblock & _).
  destruct (pairs b) as [ps|] eqn:Hps.
  - rewrite (bucket_find_live _ _ _ _ k Hbinv Hps). cbn [mbind result_bind].
    destruct (pairs_index (live_pairs b) k) as [j|] eqn:Hj;
      cbn [fmap option_fmap option_map].
    + pose proof Hj as (p & Hp & _)%pairs_index_Some.
      pose proof (live_pairs_lookup _ _ _ _ Hps Hp) as [Hp' _].
      rewrite (array_get_lookup _ _ _ Hp'). cbn [mbind result_bind].
      rewrite array_set_lookup by (by eapply lookup_lt_Some).
      cbn [mbind result_bind]. by rewrite array_set_lookup.
    + apply pairs_index_None in Hj as [Hnone _]. rewrite Hlook in Hroom.
      destruct Hroom as [?|Hroom]; [done|].
      unfold resize_p, RESIZE_MIN.
      destruct (Z.leb_spec 16 (bucket_length b)); [lia|]. cbn.
      rewrite <- (Z2Nat.id (bucket_length b)) at 1 by lia.
      rewrite array_set_lookup by lia. cbn [mbind result_bind].
      by rewrite array_set_lookup.
  - rewrite first_pair_store. cbn [mbind result_bind].
    by rewrite array_set_lookup.
Qed.

(** The first step of every operation is defined when the keys are not
    crowded. *)
Lemma hash_store_room (found : double -> double) (hash : Hash) (k : string)
    (v : double) (m : gmap string double) (X : gset string) :
  hash_inv hash ->
  (forall k, hash_lookup hash k = m !! k) ->
  dom m ∪ {[k]} ⊆ X ->
  ~ crowded X ->
  hash_store found hash k v <> UB.
Proof.
  intros Hinv Hl HX Hcr.
  destruct (slot_index_inv hash k Hinv) as (_ & b & Hb & _).
  apply (hash_store_not_UB found hash k v b Hinv Hb).
  destruct (m !! k) as [old|] eqn:Hk.
  - left. rewrite Hl, Hk. done.
  - right. by eapply bucket_room.
Qed.

(** A put that does not push the load past 0.75 never asks for a resize. *)
Lemma hash_put_quiet (fuel : nat) (hash : Hash) (k : string) (v : double)
    (m : gmap string double) :
  represents hash m ->
  hash_length hash <= 2 ^ 52 ->
  Z.of_nat (size (<[k := v]> m)) * 100 <= hash_length hash * 75 ->
  hash_put fuel hash k v <> OutOfFuel /\
  (forall X : gset string,
     dom m ∪ {[k]} ⊆ X -> ~ crowded X -> hash_put fuel hash k v <> UB) /\
  forall hash', hash_put fuel hash k v = Ok hash' ->
    represents hash' (<[k := v]> m) /\ hash_length hash' = hash_length hash.
Proof.
  intros (Hinv & Hl & Hc) Hlen Hload. rewrite hash_put_unfold.
  pose proof (hash_store_not_OutOfFuel (fun _ => v) hash k v) as Hfuel.
  pose proof (hash_store_room (fun _ => v) hash k v m) as Hroom.
  destruct (hash_store (fun _ => v) hash k v) as [[r h1]| |] eqn:E;
    [|split; [done|split; [|done]]; intros X HX Hcr; by destruct (Hroom X)
     |done].
  clear Hfuel Hroom. cbn [mbind result_bind].
  destruct (hash_store_spec _ _ _ _ _ _ Hinv E) as (Hinv1 & Hlen1 & Hc1 & Hr).
  destruct r.
  - destruct Hr as (old & Hold & Hl1). rewrite Hl in Hold.
    split; [done|]. split; [done|]. intros ? [= <-]. split; [|done].
    split; [done|]. split.
    + intros k'. rewrite Hl1, lookup_insert, Hl.
      destruct (decide (k' = k)) as [->|]; [by rewrite decide_True|].
      by rewrite decide_False.
    + rewrite map_size_insert_Some by eauto. congruence.
  - destruct Hr as (Hnone & Hl1). rewrite Hl in Hnone.
    rewrite map_size_insert_None in Hload by done.
    unfold hash_count_and_grow. cbn [hash_length hash_count].
    rewrite Hlen1, Hc1, Hc.
    pose proof Hinv as (Hpos & _).
    unfold size_wrap.
    rewrite (Z.mod_small (Z.of_nat (size m) + 1)) by lia.
    rewrite !Z.mod_small by lia.
    destruct (Z.ltb_spec (hash_length hash * 75)
                ((Z.of_nat (size m) + 1) * 100)); [lia|].
    split; [done|]. split; [done|]. intros ? [= <-]. split; [|done].
    rewrite <- Hlen1.
    apply represents_with_count;
      [done| |rewrite map_size_insert_None by done; lia].
    intros k'. rewrite Hl1, lookup_insert, Hl.
    destruct (decide (k' = k)) as [->|]; [by rewrite decide_True|].
    by rewrite decide_False.
Qed.

(** ** Rehashing *)

(** Putting the pairs of the old table one after the other into a table
    large enough for all of them. *)
Lemma put_all_spec (fuel : nat) (m : gmap string double) (len : Z)
    (rest : list Pair) :
  len <= 2 ^ 52 ->
  Z.of_nat (size m) * 100 <= len * 75 ->
  forall (seen : list Pair) (res : Hash) (m' : gmap string double),
    represents res m' ->
    hash_length res = len ->
    (forall k, m' !! k = if decide (Some k ∈ key <$> seen) then m !! k else None) ->
    (forall p, p ∈ rest -> exists k, key p = Some k /\ m !! k = Some (value p)) ->
    let put_pair p res :=
      match key p with
      | Some k => hash_put fuel res k (value p)
      | None => Ok res
      end in
    fold_over put_pair rest res <> OutOfFuel /\
    (~ crowded (dom m) -> fold_over put_pair rest res <> UB) /\
    forall res', fold_over put_pair rest res = Ok res' ->
      exists m'', represents res' m'' /\ hash_length res' = len /\
        forall k, m'' !! k =
                  if decide (Some k ∈ key <$> (seen ++ rest)) then m !! k
                  else None.
Proof.
  intros Hlen Hload. induction rest as [|p rest IH];
    intros seen res m' Hrep Hreslen Hm' Hrest put_pair.
  - split; [done|]. split; [done|].
    intros ? [= <-]. exists m'. rewrite app_nil_r. done.
  - cbv zeta in IH.
    destruct (Hrest p) as (k & Hk & Hv); [apply list_elem_of_here|].
    assert (Hm1 : forall k', <[k := value p]> m' !! k' =
              if decide (Some k' ∈ key <$> (seen ++ [p])) then m !! k' else None).
    { intros k'. rewrite lookup_insert, Hm', fmap_app.
      destruct (decide (k = k')) as [<-|Hne].
      - rewrite decide_True; [done|]. apply elem_of_app. right. cbn.
        rewrite Hk. apply list_elem_of_here.
      - destruct (decide (Some k' ∈ key <$> seen)) as [Hin|Hnin].
        + rewrite decide_True; [done|]. apply elem_of_app. by left.
        + rewrite decide_False; [done|]. rewrite elem_of_app. cbn.
          rewrite list_elem_of_singleton, Hk. intros [?|[=]]; congruence. }
    assert (Hsub : <[k := value p]> m' ⊆ m).
    { apply map_subseteq_spec. intros k' v'. rewrite Hm1.
      by destruct (decide _). }
    assert (Hdom : dom m' ∪ {[k]} ⊆ dom m).
    { pose proof (subseteq_dom _ _ Hsub) as Hd. rewrite dom_insert_L in Hd.
      by rewrite (union_comm_L (dom m')). }
    apply map_subseteq_size in Hsub.
    destruct (hash_put_quiet fuel res k (value p) m' Hrep)
      as (Hfuel & Hdef & Hput); [lia|lia|].
    specialize (Hdef (dom m) Hdom).
    subst put_pair. cbn [fold_over]. cbv beta. rewrite Hk.
    destruct (hash_put fuel res k (value p)) as [res1| |] eqn:E;
      [|by split; [|split; [intros Hcr; by destruct Hdef|]]|done].
    cbn [mbind result_bind].
    destruct (Hput res1 eq_refl) as [Hrep1 Hlen1].
    destruct (IH (seen ++ [p]) res1 (<[k := value p]> m') Hrep1)
      as (Hf & Hd & Hok); [lia|done| |].
    { intros q Hq. apply Hrest. by apply list_elem_of_further. }
    split; [done|]. split; [done|]. intros res' Hres'.
    destruct (Hok res' Hres') as (m'' & ? & ? & Hm'').
    exists m''. rewrite <- app_assoc in Hm''. done.
Qed.

(** [hash_resize] keeps the map, and moves it to a table with more than
    sixteen times the slots. *)
Lemma hash_resize_spec (fuel : nat) (hash : Hash) (m : gmap string double) :
  hash_inv hash ->
  (forall k, hash_lookup hash k = m !! k) ->
  16 <= hash_length hash <= 2 ^ 46 ->
  Z.of_nat (size m) * 100 <= hash_length hash * 75 + 100 ->
  hash_resize_with (hash_put fuel) hash <> OutOfFuel /\
  (~ crowded (dom m) -> hash_resize_with (hash_put fuel) hash <> UB) /\
  forall hash', hash_resize_with (hash_put fuel) hash = Ok hash' ->
    represents hash' m /\
    hash_length hash'
    = next_size (size_wrap (sizeof_Bucket * next_size (hash_length hash))) /\
    16 * hash_length hash < hash_length hash' <= 64 * hash_length hash.
Proof.
  intros Hinv Hl Hlen Hload. rewrite hash_resize_with_live by done.
  set (c := size_wrap (sizeof_Bucket * next_size (hash_length hash))).
  pose proof (next_size_bounds (hash_length hash) ltac:(lia)) as [_ Hn1].
  assert (Hc : c = 16 * next_size (hash_length hash)).
  { unfold c, size_wrap, sizeof_Bucket. rewrite Z.mod_small; lia. }
  pose proof (next_size_bounds c ltac:(lia)) as [_ Hn2].
  assert (Hlen' : hash_length (hash_init_capacity c) = next_size c) by done.
  destruct (put_all_spec fuel m (next_size c) (buckets hash ≫= live_pairs)
              ltac:(lia) ltac:(lia) [] (hash_init_capacity c) ∅)
    as (Hf & Hd & Hok).
  - apply represents_empty. lia.
  - done.
  - intros k. rewrite lookup_empty. rewrite decide_False; [done|].
    cbn. apply not_elem_of_nil.
  - intros p Hp. destruct (live_pairs_stored hash p Hinv Hp) as (k & Hk & Hv).
    exists k. by rewrite <- Hl.
  - split; [done|]. split; [done|]. intros hash' H.
    destruct (Hok hash' H) as (m'' & Hrep & Hlen'' & Hm'').
    assert (m'' = m) as ->.
    { apply map_eq. intros k. rewrite Hm''. cbn [app].
      destruct (decide _) as [|Hnin]; [done|].
      destruct (m !! k) as [v|] eqn:Hv; [|done].
      exfalso. apply Hnin. rewrite <- Hl in Hv.
      by eapply stored_in_live_pairs. }
    split; [done|]. split; [done|]. lia.
Qed.

(** ** One insertion *)

(** The body shared by [hash_put] and [hash_inc] when a resize is within
    the budget. *)
Lemma store_and_grow_spec (found : double -> double) (fuel : nat) (hash : Hash)
    (k : string) (v : double) (m : gmap string double) :
  represents hash m ->
  load_ok hash ->
  16 <= hash_length hash <= 2 ^ 52 ->
  Z.of_nat (size m) < 2 ^ 45 ->
  let r := '(returned, h1) ← hash_store found hash k v;
           if returned : bool then Ok h1 else
           hash_count_and_grow (Some (hash_resize_with (hash_put fuel))) h1 in
  r <> OutOfFuel /\
  (~ crowded (dom m ∪ {[k]}) -> r <> UB) /\
  forall hash', r = Ok hash' ->
    represents hash'
      (<[k := match m !! k with Some old => found old | None => v end]> m) /\
    load_ok hash' /\
    16 <= hash_length hash' <= 2 ^ 52.
Proof.
  intros (Hinv & Hl & Hc) Hload Hlen Hsize r. subst r. unfold load_ok in *.
  pose proof (hash_store_not_OutOfFuel found hash k v) as Hfuel.
  pose proof (hash_store_room found hash k v m (dom m ∪ {[k]}) Hinv Hl
                ltac:(done)) as Hroom.
  destruct (hash_store found hash k v) as [[returned h1]| |] eqn:E;
    [|split; [done|split; [|done]]; intros Hcr; by destruct Hroom
     |done].
  clear Hfuel Hroom. cbn [mbind result_bind].
  destruct (hash_store_spec _ _ _ _ _ _ Hinv E) as (Hinv1 & Hlen1 & Hc1 & Hr).
  destruct returned.
  - destruct Hr as (old & Hold & Hl1). rewrite Hl in Hold. rewrite Hold.
    split; [done|]. split; [done|]. intros ? [= <-].
    split; [|split; [rewrite Hlen1, Hc1; lia|lia]].
    split; [done|]. split.
    + intros k'. rewrite Hl1, lookup_insert, Hl.
      destruct (decide (k' = k)) as [->|]; [by rewrite decide_True|].
      by rewrite decide_False.
    + rewrite map_size_insert_Some by eauto. congruence.
  - destruct Hr as (Hnone & Hl1). rewrite Hl in Hnone. rewrite Hnone.
    assert (Hl1' : forall k', hash_lookup h1 k' = <[k := v]> m !! k').
    { intros k'. rewrite Hl1, lookup_insert, Hl.
      destruct (decide (k' = k)) as [->|]; [by rewrite decide_True|].
      by rewrite decide_False. }
    assert (Hsz : size (<[k := v]> m) = S (size m))
      by (by apply map_size_insert_None).
    assert (Hrep : represents (mkHash (buckets h1) (hash_length h1)
                                 (Z.of_nat (size m) + 1)) (<[k := v]> m)).
    { apply represents_with_count; [done|done|]. rewrite Hsz. lia. }
    unfold hash_count_and_grow. cbn [hash_length hash_count].
    rewrite Hc1, Hc. unfold size_wrap.
    rewrite (Z.mod_small (Z.of_nat (size m) + 1)) by lia.
    rewrite !Z.mod_small by lia.
    destruct (Z.ltb_spec (hash_length h1 * 75)
                ((Z.of_nat (size m) + 1) * 100)) as [Hgrow|Hquiet].
    + destruct Hrep as (Hinv2 & Hl2 & _).
      destruct (hash_resize_spec fuel _ _ Hinv2 Hl2) as (Hf & Hd & Hok);
        [cbn; lia|cbn; lia|].
      split; [done|]. split.
      { intros Hcr. apply Hd. by rewrite dom_insert_L, (union_comm_L {[k]}). }
      intros hash' H.
      destruct (Hok hash' H) as (Hrep' & _ & Hlen'). cbn in Hlen'.
      split; [done|]. destruct Hrep' as (_ & _ & Hc'). lia.
    + split; [done|]. split; [done|].
      intros ? [= <-]. split; [done|]. cbn. lia.
Qed.

Lemma insert_spec (fuel : nat) (hash : Hash) (o : insertion)
    (m : gmap string double) :
  represents hash m ->
  load_ok hash ->
  16 <= hash_length hash <= 2 ^ 52 ->
  Z.of_nat (size m) < 2 ^ 45 ->
  insert (S fuel) hash o <> OutOfFuel /\
  (~ crowded (dom (model_insert m o)) -> insert (S fuel) hash o <> UB) /\
  forall hash', insert (S fuel) hash o = Ok hash' ->
    represents hash' (model_insert m o) /\
    load_ok hash' /\
    16 <= hash_length hash' <= 2 ^ 52.
Proof.
  intros Hrep Hload Hlen Hsize. destruct o as [k v|k v].
  - pose proof (store_and_grow_spec (fun _ => v) fuel hash k v m
                  Hrep Hload Hlen Hsize) as H.
    cbn in H |- *. rewrite dom_insert_L, (union_comm_L {[k]}).
    by destruct (m !! k).
  - pose proof (store_and_grow_spec (fun old => double_add old v) fuel hash k v
                  m Hrep Hload Hlen Hsize) as H.
    cbn in H |- *. by rewrite dom_insert_L, (union_comm_L {[k]}).
Qed.

Lemma model_insert_size (m : gmap string double) (o : insertion) :
  (size (model_insert m o) <= S (size m))%nat.
Proof.
  destruct o as [k v|k v]; cbn; rewrite map_size_insert;
    destruct (m !! k); unfold id; lia.
Qed.

Lemma model_insert_dom (m : gmap string double) (o : insertion) :
  dom (model_insert m o) = {[insertion_key o]} ∪ dom m.
Proof. destruct o; cbn; apply dom_insert_L. Qed.

Lemma model_dom (os : list insertion) (m : gmap string double) :
  dom (foldl model_insert m os)
  = list_to_set (insertion_key <$> os) ∪ dom m.
Proof.
  revert m. induction os as [|o os IH]; intros m; cbn.
  - by rewrite (left_id_L ∅ (∪)).
  - rewrite IH, model_insert_dom.
    by rewrite (assoc_L (∪)), (comm_L (∪) (list_to_set _)).
Qed.

Lemma model_size (os : list insertion) : size (model os) = distinct_keys os.
Proof.
  unfold model, distinct_keys.
  by rewrite <- size_dom, model_dom, dom_empty_L, (right_id_L ∅ (∪)).
Qed.

Lemma model_lookup_None (os : list insertion) (k : string) :
  model os !! k = None <-> k ∉ insertion_key <$> os.
Proof.
  rewrite <- not_elem_of_dom. unfold model.
  by rewrite model_dom, dom_empty_L, (right_id_L ∅ (∪)), elem_of_list_to_set.
Qed.

Lemma crowded_mono (X Y : gset string) : X ⊆ Y -> crowded X -> crowded Y.
Proof.
  intros HXY [r Hr]. exists r.
  assert (filter (fun k => hash_function k mod RESIZE_MIN = r) X
          ⊆ filter (fun k => hash_function k mod RESIZE_MIN = r) Y) as Hsub.
  { intros k [? ?]%elem_of_filter. apply elem_of_filter. auto. }
  apply subseteq_size in Hsub. lia.
Qed.

Lemma crowded_size (X : gset string) : crowded X -> (16 < size X)%nat.
Proof.
  intros [r Hr].
  assert (filter (fun k => hash_function k mod RESIZE_MIN = r) X ⊆ X) as Hsub.
  { by intros k [_ ?]%elem_of_filter. }
  apply subseteq_size in Hsub. lia.
Qed.

(** ** Sequences of insertions *)

Lemma insert_all_spec (fuel : nat) (os : list insertion) :
  forall (hash : Hash) (m : gmap string double),
    represents hash m ->
    load_ok hash ->
    16 <= hash_length hash <= 2 ^ 52 ->
    Z.of_nat (size m) + Z.of_nat (length os) <= 2 ^ 45 ->
    insert_all (S fuel) hash os <> OutOfFuel /\
    (~ crowded (dom (foldl model_insert m os)) ->
     insert_all (S fuel) hash os <> UB) /\
    forall hash', insert_all (S fuel) hash os = Ok hash' ->
      represents hash' (foldl model_insert m os) /\ load_ok hash'.
Proof.
  induction os as [|o os IH]; intros hash m Hrep Hload Hlen Hsize.
  - split; [done|]. split; [done|]. by intros ? [= <-].
  - cbn [length] in Hsize.
    destruct (insert_spec fuel hash o m Hrep Hload Hlen ltac:(lia))
      as (Hf & Hd & Hok).
    cbn [insert_all foldl].
    assert (Hmono : crowded (dom (model_insert m o)) ->
                    crowded (dom (foldl model_insert (model_insert m o) os))).
    { apply crowded_mono. rewrite model_dom. apply union_subseteq_r. }
    destruct (insert (S fuel) hash o) as [h1| |];
      [|split; [done|split; [|done]]; intros Hcr; apply Hd; tauto
       |done].
    cbn [mbind result_bind].
    destruct (Hok h1 eq_refl) as (Hrep1 & Hload1 & Hlen1).
    pose proof (model_insert_size m o).
    apply IH; [done|done|done|lia].
Qed.

(** Every table built from [hash_init_capacity] by insertions stores the
    model of the insertions, with a load of at most 0.75; the run is
    defined when the keys are not crowded. *)
Lemma built_represents (fuel : nat) (capacity : Z) (os : list insertion) :
  0 <= capacity <= 2 ^ 45 ->
  Z.of_nat (length os) <= 2 ^ 45 ->
  insert_all (S fuel) (hash_init_capacity capacity) os <> OutOfFuel /\
  (~ crowded (list_to_set (insertion_key <$> os)) ->
   insert_all (S fuel) (hash_init_capacity capacity) os <> UB) /\
  forall hash, insert_all (S fuel) (hash_init_capacity capacity) os = Ok hash ->
    represents hash (model os) /\ load_ok hash.
Proof.
  intros Hcap Hlen.
  pose proof (next_size_bounds capacity ltac:(lia)) as [H16 Hn].
  destruct (insert_all_spec fuel os (hash_init_capacity capacity) ∅)
    as (Hf & Hd & Hok).
  - apply represents_empty. lia.
  - unfold load_ok. cbn. lia.
  - cbn. lia.
  - rewrite map_size_empty. lia.
  - split; [done|]. split; [|done].
    by rewrite model_dom, dom_empty_L, (right_id_L ∅ (∪)) in Hd.
Qed.

(** The slot count of a power of two is multiplied by 64, and every key
    keeps its value. *)
Lemma hash_resize_pow2 (fuel : nat) (hash hash' : Hash)
    (m : gmap string double) (e : Z) :
  represents hash m ->
  hash_count hash * 100 <= hash_length hash * 75 + 100 ->
  hash_length hash = 2 ^ e -> 4 <= e <= 46 ->
  hash_resize fuel hash = Ok hash' ->
  hash_length hash' = 64 * hash_length hash /\
  forall k, hash_get hash' k = hash_get hash k.
Proof.
  intros (Hinv & Hl & Hc) Hload He Hr H.
  assert (2 ^ 4 <= 2 ^ e <= 2 ^ 46)
    by (split; apply Z.pow_le_mono_r; lia).
  destruct (hash_resize_spec fuel hash m Hinv Hl) as (_ & _ & Hok);
    [lia|lia|].
  destruct (Hok hash' H) as ((Hinv' & Hl' & _) & Hlen' & _).
  split.
  - rewrite Hlen', He, next_size_pow2 by lia.
    unfold sizeof_Bucket, size_wrap.
    replace (16 * 2 ^ (e + 1)) with (2 ^ (e + 5))
      by (rewrite !Z.pow_add_r by lia; lia).
    assert (2 ^ (e + 5) < 2 ^ 64) by (apply Z.pow_lt_mono_r; lia).
    assert (0 < 2 ^ (e + 5)) by (apply Z.pow_pos_nonneg; lia).
    rewrite Z.mod_small by lia. rewrite next_size_pow2 by lia.
    rewrite !Z.pow_add_r by lia. lia.
  - intros k. rewrite !hash_get_lookup by done. by rewrite Hl, Hl'.
Qed.

(** X26.  On a table made by [hash_init_capacity], a sequence of [hash_put]
    and [hash_inc] calls never uses up a budget of one level (the resizes
    do not nest); it returns whenever no 17 of its keys agree on their hash
    modulo 16 (a bucket has room for 16 pairs); and whenever it returns,
    the item count is the number of distinct keys inserted and the load is
    at most 0.75.  Sizes are kept away from the wrap-around of [size_t]: at
    most [2^45] insertions. *)
Theorem item_count_and_load (fuel : nat) (capacity : Z) (os : list insertion) :
  0 <= capacity <= 2 ^ 45 ->
  Z.of_nat (length os) <= 2 ^ 45 ->
  insert_all (S fuel) (hash_init_capacity capacity) os <> OutOfFuel /\
  (~ crowded (list_to_set (insertion_key <$> os)) ->
   exists hash, insert_all (S fuel) (hash_init_capacity capacity) os = Ok hash) /\
  forall hash,
    insert_all (S fuel) (hash_init_capacity capacity) os = Ok hash ->
    hash_count hash = Z.of_nat (distinct_keys os) /\
    hash_count hash * 100 <= hash_length hash * 75.
Proof.
  intros Hcap Hlen.
  destruct (built_represents fuel capacity os Hcap Hlen) as (Hf & Hd & Hok).
  split; [done|]. split.
  - intros Hcr. specialize (Hd Hcr).
    destruct (insert_all _ _ _) as [hash| |]; [eauto|done|done].
  - intros hash H.
    destruct (Hok hash H) as ((_ & _ & Hc) & Hload).
    split; [|done]. by rewrite Hc, model_size.
Qed.

(** C1, as the code has it.  For a key that was never inserted [hash_get]
    returns [-1] and [hash_exists] returns 0.  For a key that was inserted
    [hash_exists] returns 1 and [hash_get] returns the stored double
    converted to [long]; that is [-1] exactly when the stored value is
    negative with integer part 1, and then nothing but [hash_exists] tells
    the key from an absent one. *)
Theorem hash_get_not_found (fuel : nat) (capacity : Z) (os : list insertion)
    (hash : Hash) (k : string) :
  0 <= capacity <= 2 ^ 45 ->
  Z.of_nat (length os) <= 2 ^ 45 ->
  insert_all (S fuel) (hash_init_capacity capacity) os = Ok hash ->
  (k ∉ insertion_key <$> os ->
   hash_get hash k = Ok (-1) /\ hash_exists hash k = Ok 0) /\
  (k ∈ insertion_key <$> os ->
   exists v, model os !! k = Some v /\
     hash_exists hash k = Ok 1 /\
     hash_get hash k = double_to_long v /\
     (hash_get hash k = Ok (-1) <->
      exists m e, v = S754_finite true m e /\ trunc_magnitude m e = 1)).
Proof.
  intros Hcap Hlen H.
  destruct (built_represents fuel capacity os Hcap Hlen) as (_ & _ & Hok).
  destruct (Hok hash H) as ((Hinv & Hl & _) & _).
  rewrite hash_get_lookup, hash_exists_lookup, Hl by done. split.
  - intros Hk. apply model_lookup_None in Hk. by rewrite Hk.
  - intros Hk. destruct (model os !! k) as [v|] eqn:Hv;
      [|by apply model_lookup_None in Hv].
    exists v. repeat split.
    + destruct v as [s|s| |s m e]; try done. cbn.
      assert (0 <= trunc_magnitude m e).
      { unfold trunc_magnitude. destruct (Z.leb_spec 0 e).
        - apply Z.mul_nonneg_nonneg; [lia|apply Z.pow_nonneg; lia].
        - apply Z.div_pos; [lia|apply Z.pow_pos_nonneg; lia]. }
      destruct (_ && _); [|done]. intros [= Heq].
      destruct s; cbn in Heq; [|lia]. exists m, e. split; [done|lia].
    + intros (m & e & -> & Hm). cbn. by rewrite Hm.
Qed.

(** The integer part of a magnitude, told by its bounds. *)
Lemma trunc_magnitude_bounds (m : positive) (e a : Z) :
  trunc_magnitude m e = a <->
  0 <= a /\
  (0 <= e -> a = Z.pos m * 2 ^ e) /\
  (e < 0 -> a * 2 ^ (- e) <= Z.pos m < (a + 1) * 2 ^ (- e)).
Proof.
  unfold trunc_magnitude. destruct (Z.leb_spec 0 e) as [He|He].
  - assert (0 < 2 ^ e) by (apply Z.pow_pos_nonneg; lia). split.
    + intros <-. split; [nia|]. split; [done|lia].
    + intros (_ & Heq & _). by rewrite Heq.
  - assert (Hp : 0 < 2 ^ (- e)) by (apply Z.pow_pos_nonneg; lia).
    pose proof (Z.div_mod (Z.pos m) (2 ^ (- e)) ltac:(lia)) as Hdm.
    pose proof (Z.mod_pos_bound (Z.pos m) (2 ^ (- e)) Hp) as Hmod.
    split.
    + intros <-. split; [apply Z.div_pos; lia|]. split; [lia|]. intros _. nia.
    + intros (Ha & _ & Hb). specialize (Hb He). symmetry.
      apply (Z.div_unique _ _ a (Z.pos m - a * 2 ^ (- e))); [left; nia|lia].
Qed.

(** C10.  [hash_get] hands back the stored double converted to [long], and
    the conversion discards the fractional part: for a stored value
    [(-1)^s * m * 2^e] the integer returned has the sign of the value, and
    its magnitude [a] is the one integer with [a <= m * 2^e < a + 1]; it is
    returned whenever it fits a [long].  A stored zero gives 0, the
    conversion of an infinity or a NaN is undefined, and a stored value
    that is not an integer is never what [hash_get] returns. *)
Theorem hash_get_truncates (fuel : nat) (capacity : Z) (os : list insertion)
    (hash : Hash) (k : string) (v : double) :
  0 <= capacity <= 2 ^ 45 ->
  Z.of_nat (length os) <= 2 ^ 45 ->
  insert_all (S fuel) (hash_init_capacity capacity) os = Ok hash ->
  model os !! k = Some v ->
  hash_get hash k = double_to_long v /\
  (forall s : bool, v = S754_zero s -> hash_get hash k = Ok 0) /\
  (v = S754_nan \/ (exists s : bool, v = S754_infinity s) ->
   hash_get hash k = UB) /\
  forall (s : bool) (m : positive) (e : Z),
    v = S754_finite s m e ->
    (forall z : Z,
        hash_get hash k = Ok z <->
        LONG_MIN <= z <= LONG_MAX /\
        z = cond_Zopp s (Z.abs z) /\
        (0 <= e -> Z.abs z = Z.pos m * 2 ^ e) /\
        (e < 0 ->
         Z.abs z * 2 ^ (- e) <= Z.pos m < (Z.abs z + 1) * 2 ^ (- e))) /\
    (forall z : Z,
        hash_get hash k = Ok z ->
        e < 0 -> ~ (2 ^ (- e) | Z.pos m) ->
        z * 2 ^ (- e) <> cond_Zopp s (Z.pos m)).
Proof.
  intros Hcap Hlen H Hv.
  destruct (built_represents fuel capacity os Hcap Hlen) as (_ & _ & Hok).
  destruct (Hok hash H) as ((Hinv & Hl & _) & _).
  rewrite hash_get_lookup, Hl, Hv by done. split; [done|].
  split; [by intros s ->|].
  split; [by intros [->|[s ->]]|].
  intros s m e ->.
  assert (Hget : forall z,
            double_to_long (S754_finite s m e) = Ok z <->
            LONG_MIN <= z <= LONG_MAX /\ z = cond_Zopp s (trunc_magnitude m e)).
  { intros z. cbn.
    destruct (Z.leb_spec LONG_MIN (cond_Zopp s (trunc_magnitude m e)));
      destruct (Z.leb_spec (cond_Zopp s (trunc_magnitude m e)) LONG_MAX);
      cbn; split; try (intros [= <-]; done); try (intros [? ->]; done);
      try done; intros [? ->]; lia. }
  split.
  - intros z. rewrite Hget. split.
    + intros [Hr ->].
      pose proof (proj1 (trunc_magnitude_bounds m e _) eq_refl) as (Ha & Hb).
      assert (Habs : Z.abs (cond_Zopp s (trunc_magnitude m e))
                     = trunc_magnitude m e) by (destruct s; cbn; lia).
      rewrite Habs. done.
    + intros (Hr & Hs & Hb).
      assert (Ha : trunc_magnitude m e = Z.abs z).
      { apply trunc_magnitude_bounds. split; [lia|]. done. }
      rewrite Ha. done.
  - intros z Hz He Hdiv Heq. apply Hget in Hz as [_ ->]. apply Hdiv.
    unfold trunc_magnitude in Heq. destruct (Z.leb_spec 0 e); [lia|].
    assert (0 < 2 ^ (- e)) by (apply Z.pow_pos_nonneg; lia).
    apply Z.mod_divide; [lia|].
    pose proof (Z.div_mod (Z.pos m) (2 ^ (- e)) ltac:(lia)).
    destruct s; cbn in Heq; lia.
Qed.

(** ** The scanner *)

Section ScanFacts.

Context {regex_t : Type}.
Variable regexec : regex_t -> string -> regexec_result.

(** C9.  An iteration of the loop of [freq_scan] entered at offset [i]
    reads [buffer[i + MAX_WORD_LEN]] before anything else and never
    compares that index with the extent of the block: when the block
    does not reach beyond that offset the access is outside it.  With
    [i = 0] this is the first iteration of every scan of a non-empty
    buffer held in a block of at most [MAX_WORD_LEN] bytes. *)
Theorem freq_scan_cap_out_of_bounds
    (fuel : nat) (hash : option Hash) (buffer : list ascii) (len : Z)
    (compiled : regex_t) (overlap : bool) (adj : double) (i matches : Z) :
  0 <= i < len ->
  i + MAX_WORD_LEN < 2 ^ 64 ->
  Z.of_nat (length buffer) <= i + MAX_WORD_LEN ->
  freq_scan_loop regexec (S fuel) hash buffer len compiled overlap
    adj i matches = UB.
Proof.
  intros Hi Hw Hlen. cbn [freq_scan_loop].
  destruct (Z.ltb_spec i len) as [_|]; [|lia].
  unfold freq_scan_body, size_wrap.
  rewrite Z.mod_small by (unfold MAX_WORD_LEN in *; lia).
  unfold array_get.
  destruct (Z.ltb_spec (i + MAX_WORD_LEN) 0) as [|_]; [reflexivity|].
  rewrite (lookup_ge_None_2 buffer) by lia.
  reflexivity.
Qed.

(** On the path of a successful match the cap is undone: a counting scan
    ([hash == NULL]) hands the buffer on unchanged. *)
Lemma freq_scan_body_next_restores
    (fuel : nat) (buffer buffer' : list ascii) (compiled : regex_t)
    (overlap : bool) (adj : double) (i i' matches matches' : Z)
    (hash' : option Hash) :
  freq_scan_body regexec fuel None buffer compiled overlap adj i matches
    = Ok (ScanNext buffer' hash' i' matches') ->
  buffer' = buffer.
Proof.
  unfold freq_scan_body. intros H. inv_Ok H.
  destruct (regexec compiled _) as [m0 m1|ret].
  - inv_Ok H. injection E2 as <-. injection H as <- _ _ _.
    apply array_get_Ok in E as [_ E].
    apply array_set_Ok in E0 as (_ & _ & ->).
    apply array_set_Ok in E4 as (_ & _ & ->).
    rewrite list_insert_insert_eq. by apply list_insert_id.
  - destruct (ret =? REG_ESPACE); discriminate.
Qed.

(** On the two other paths it is not: whenever an iteration ends in [break]
    or in the [return] of line 396, the buffer it leaves has [NUL] at offset
    [i + MAX_WORD_LEN]. *)
Lemma freq_scan_body_exit_keeps_cap
    (fuel : nat) (hash hash' : option Hash) (buffer buffer' : list ascii)
    (compiled : regex_t) (overlap : bool) (adj : double) (i matches x : Z)
    (e : scan_exit) :
  freq_scan_body regexec fuel hash buffer compiled overlap adj i matches
    = Ok e ->
  e = ScanBreak buffer' hash' x \/ e = ScanReturn x buffer' hash' ->
  buffer' = <[Z.to_nat (size_wrap (i + MAX_WORD_LEN)) := NUL]> buffer /\
  hash' = hash.
Proof.
  unfold freq_scan_body. intros H He. inv_Ok H.
  apply array_set_Ok in E0 as (_ & _ & ->).
  destruct (regexec compiled _) as [m0 m1|ret].
  - inv_Ok H. injection H as <-. destruct He; discriminate.
  - destruct (ret =? REG_ESPACE); injection H as <-;
      destruct He as [[=]|[=]]; by subst.
Qed.

End ScanFacts.

(** A file of 100 characters sits in a block of 256 bytes: the first
    iteration of the scan reads [buffer[1000]]. *)
Lemma freq_scan_cap_out_of_bounds_witness :
  freq_scan regexec_nomatch 1 None (file_block (replicate 100 "a"%char)).1
    100 tt true (double_of_int 1) = UB.
Proof.
  apply (freq_scan_cap_out_of_bounds regexec_nomatch 0 None
           (file_block (replicate 100 "a"%char)).1 100 tt true
           (double_of_int 1) 0 0).
  - lia.
  - reflexivity.
  - vm_compute. discriminate.
Defined.

(** C3.  The cap is left in the buffer on two of the three exits.  In a
    block of 4096 bytes holding 1100 times the letter [a], the first
    iteration writes [NUL] over [buffer[1000]]; when the matcher then
    answers [REG_NOMATCH] the loop is left by [break], when it answers
    [REG_ESPACE] the function returns [-4], and either way the assignment
    that puts [holder] back (line 399) is skipped. *)
Theorem freq_scan_leaves_cap_behind :
  let buffer := (file_block (replicate 1100 "a"%char)).1 in
  buffer !! 1000%nat = Some "a"%char /\
  freq_scan regexec_nomatch 1 None buffer 1100 tt true (double_of_int 1)
    = Ok (0, <[1000%nat := NUL]> buffer, None) /\
  freq_scan regexec_espace 1 None buffer 1100 tt true (double_of_int 1)
    = Ok (-4, <[1000%nat := NUL]> buffer, None).
Proof. vm_compute. repeat split. Qed.



(** C6.  [freq_scan] answers [REG_ESPACE] with [-4], but [freq_read_file]
    drops that value twice: the [-4] of the first pass is used as the match
    count, the value of the second pass is ignored, and the function returns
    [matches], which is always 0.  On the text [aax] followed by 1100
    times [b], scanned for [.] with a matcher that gives up at the [x], the
    file is reported as read and the key [a] has received twice [5 / -4]. *)
Theorem freq_read_file_swallows_espace :
  let content := ("a" :: "a" :: "x" :: replicate 1100 "b")%char in
  (r ← freq_scan regexec_dot_espace 3 None (file_block content).1 1103 tt true
         (double_of_int 1); Ok r.1.1) = Ok (-4) /\
  adjusted_multiplier_of 5 (-4) = double_div (double_of_int (-5)) (double_of_int 4) /\
  (r ← freq_read_file regcomp_any regexec_dot_espace (one_file content) 3
         hash_init "000bigfiles/02allC.txt" "." 5;
   Ok (r.1, hash_items r.2))
    = Ok (0, [("a"%string, double_div (double_of_int (-5)) (double_of_int 2))]).
Proof. vm_compute. repeat split. Qed.

(** The scenario of the n-gram extractor: two-word windows over
    [the quick brown fox]. *)
Lemma find_n_words_scenario :
  (r ← find_n_words_for_file
         (one_file (list_ascii_of_string "the quick brown fox")) 30 hash_init
         "f" 2 1;
   Ok (r.1, (hash_items r.2).*1))
    = Ok (0, ["the quick"; "quick brown"; "brown fox"]%string).
Proof. vm_compute. reflexivity. Qed.

(** C8.  When separators follow the last word the [for] loop runs once
    more, finds no word, and still counts the round in [k]: with a newline
    after [fox] the window that holds the single word [fox] is inserted,
    under the key [fox] followed by a space. *)
Theorem find_n_words_inserts_partial_window :
  (r ← find_n_words_for_file
         (one_file (list_ascii_of_string "the quick brown fox" ++ ["010"%char]))
         30 hash_init "f" 2 1;
   Ok (r.1, (hash_items r.2).*1))
    = Ok (0, ["fox "; "the quick"; "quick brown"; "brown fox"]%string).
Proof. vm_compute. reflexivity. Qed.

(** ** The table, on examples *)

(** C4.  [hash_resize] asks [hash_init_capacity] for
    [sizeof (Bucket) * next_size (length)] slots, and [hash_init_capacity]
    rounds that up again: the thirteenth key put into a table of 16 slots
    moves it to 1024 slots, not to 32. *)
Theorem hash_resize_grows_64_fold :
  let puts := (fun k => Put k (double_of_int 1)) <$>
    ["a"; "b"; "c"; "d"; "e"; "f"; "g"; "h"; "i"; "j"; "k"; "l"; "m"]%string in
  (h ← insert_all 1 hash_init (take 12 puts); Ok (hash_length h, hash_count h))
    = Ok (16, 12) /\
  (h ← insert_all 1 hash_init puts; Ok (hash_length h, hash_count h))
    = Ok (1024, 13) /\
  (h ← hash_resize 0 hash_init; Ok (hash_length h)) = Ok 1024.
Proof. vm_compute. repeat split. Qed.

(** After [hash_put (&hash, "k", -1)] the value of [hash_get (hash, "k")]
    is the one [hash_get] has for a key that was never inserted. *)
Lemma hash_get_minus_one_is_ambiguous :
  exists h,
    hash_put 1 hash_init "k" (double_of_int (-1)) = Ok h /\
    hash_exists h "k" = Ok 1 /\
    hash_exists hash_init "k" = Ok 0 /\
    hash_get h "k" = hash_get hash_init "k".
Proof. eexists. split; [vm_compute; reflexivity|]. vm_compute. repeat split. Qed.

(** The insertions of [hash_test] followed by fifteen more, with a resize
    on the way: 16 keys in all, which cannot be crowded. *)
Lemma item_count_and_load_witness :
  ~ crowded (list_to_set
               (insertion_key <$> hash_test_insertions ++ thirteen_keys)) /\
  exists hash,
    insert_all 1 hash_init (hash_test_insertions ++ thirteen_keys) = Ok hash /\
    hash_count hash
    = Z.of_nat (distinct_keys (hash_test_insertions ++ thirteen_keys)) /\
    hash_count hash * 100 <= hash_length hash * 75.
Proof.
  assert (Hcr : ~ crowded (list_to_set
            (insertion_key <$> hash_test_insertions ++ thirteen_keys))).
  { intros Hle%crowded_size.
    assert (size (list_to_set
              (insertion_key <$> hash_test_insertions ++ thirteen_keys)
              : gset string) = 16%nat) as Hsz by (vm_compute; reflexivity).
    rewrite Hsz in Hle. lia. }
  split; [exact Hcr|].
  destruct (item_count_and_load 0 DEFAULT_CAPACITY
              (hash_test_insertions ++ thirteen_keys)) as (_ & Hd & Hok).
  - vm_compute. split; discriminate.
  - vm_compute. discriminate.
  - destruct (Hd Hcr) as [hash H]. exists hash. split; [exact H|].
    exact (Hok hash H).
Defined.

(** After [hash_test] the key [x] is not in the table and the key [hello]
    is, with the value 3. *)
Lemma hash_get_not_found_witness :
  exists hash,
    insert_all 1 hash_init hash_test_insertions = Ok hash /\
    (hash_get hash "x" = Ok (-1) /\ hash_exists hash "x" = Ok 0) /\
    (hash_exists hash "hello" = Ok 1 /\ hash_get hash "hello" = Ok 3).
Proof.
  eexists. split; [vm_compute; reflexivity|].
  match goal with
  | |- (hash_get ?h _ = _ /\ _) /\ _ =>
      destruct (hash_get_not_found 0 DEFAULT_CAPACITY hash_test_insertions
                  h "x") as [Habsent _];
      [| |vm_compute; reflexivity|];
      [vm_compute; split; discriminate|vm_compute; discriminate|];
      destruct (hash_get_not_found 0 DEFAULT_CAPACITY hash_test_insertions
                  h "hello") as [_ Hpresent];
      [| |vm_compute; reflexivity|];
      [vm_compute; split; discriminate|vm_compute; discriminate|]
  end.
  split.
  - apply Habsent.
    apply (bool_decide_unpack
             ("x"%string ∉ insertion_key <$> hash_test_insertions)).
    vm_compute. exact I.
  - destruct Hpresent as (v & Hv & Hexists & Hget & _).
    + apply (bool_decide_unpack
               ("hello"%string ∈ insertion_key <$> hash_test_insertions)).
      vm_compute. exact I.
    + split; [exact Hexists|]. rewrite Hget.
      assert (v = double_of_int 3) as ->
        by (vm_compute in Hv; by injection Hv as <-).
      vm_compute. reflexivity.
Defined.

(** The key [a] has received 1 and then a half: the stored value is
    [6755399441055744 * 2^-52], one and a half, and [hash_get] returns 1. *)
Lemma hash_get_truncates_witness :
  exists hash,
    insert_all 1 hash_init thirteen_keys = Ok hash /\
    model thirteen_keys !! "a"%string
    = Some (S754_finite false 6755399441055744 (-52)) /\
    hash_get hash "a" = Ok 1 /\
    1 * 2 ^ 52 <> 6755399441055744.
Proof.
  eexists. split; [vm_compute; reflexivity|].
  split; [vm_compute; reflexivity|].
  match goal with
  | |- hash_get ?h _ = _ /\ _ =>
      destruct (hash_get_truncates 0 DEFAULT_CAPACITY thirteen_keys h "a"
                  (S754_finite false 6755399441055744 (-52)))
        as (_ & _ & _ & Hfin)
  end.
  - vm_compute. split; discriminate.
  - vm_compute. discriminate.
  - vm_compute. reflexivity.
  - vm_compute. reflexivity.
  - destruct (Hfin false 6755399441055744%positive (-52) eq_refl) as [Hiff Hne].
    pose proof (proj2 (Hiff 1)) as Hget.
    change (2 ^ (- -52)) with 4503599627370496 in Hget.
    change (Z.abs 1) with 1 in Hget. cbn [cond_Zopp] in Hget.
    unfold LONG_MIN, LONG_MAX in Hget.
    specialize (Hget ltac:(repeat split; lia)).
    split; [exact Hget|].
    apply (Hne 1 Hget); [reflexivity|].
    intros [q Hq]. change (2 ^ (- -52)) with 4503599627370496 in Hq. lia.
Defined.

(** C5.  Where a run of insertions stops being defined.  Sixteen keys that
    fall into one slot fill its bucket: the table has 1024 slots and 16
    items.  For the seventeenth, [hash_inc] and [hash_put] alike grow the
    block of the bucket to 32 pairs and clear the keys of the new ones in a
    loop that leaves [j] at 32, then store the pair at [pairs[j]], one pair
    beyond the block: the call has no result, so there is no item count
    and no load after it. *)
Lemma seventeenth_key_leaves_the_block :
  (h ← insert_all 1 hash_init (take 16 seventeen_keys);
   Ok (hash_length h, hash_count h,
       bucket_length <$> buckets h !! slot_of h "asa"))
    = Ok (1024, 16, Some 16) /\
  insert_all 1 hash_init seventeen_keys = UB /\
  insert_all 1 hash_init
    ((fun o => Put (insertion_key o) (double_of_int 1)) <$> seventeen_keys) = UB.
Proof. vm_compute. repeat split. Qed.

(** * Further properties *)

(** ** Sizes *)

Lemma land_pred_pow2 (x : Z) :
  0 < x -> (Z.land x (x - 1) = 0 <-> x = 2 ^ Z.log2 x).
Proof.
  intros Hx. pose proof (Z.log2_nonneg x) as Hk.
  pose proof (Z.log2_spec x Hx) as [Hlo Hhi].
  split.
  - intros Hland. destruct (Z.eq_dec x (2 ^ Z.log2 x)) as [|Hne]; [done|].
    exfalso.
    assert (Hb : Z.testbit (Z.land x (x - 1)) (Z.log2 x) = true).
    { rewrite Z.land_spec, Z.bit_log2 by lia. cbn.
      assert (Z.log2 (x - 1) = Z.log2 x) as <-.
      { apply Z.log2_unique; lia. }
      apply Z.bit_log2. lia. }
    rewrite Hland, Z.bits_0 in Hb. done.
  - intros Heq. rewrite Heq.
    change (2 ^ Z.log2 x - 1) with (Z.pred (2 ^ Z.log2 x)).
    rewrite <- Z.ones_equiv, Z.land_ones by lia.
    apply Z.mod_same. apply Z.pow_nonzero; lia.
Qed.

(** X2.  [resize_p] holds exactly of the powers of two from 16 on. *)
Theorem resize_p_power_of_2 (x : Z) :
  0 <= x < 2 ^ 64 ->
  resize_p x = true <-> exists e, 4 <= e < 64 /\ x = 2 ^ e.
Proof.
  intros Hx. unfold resize_p, RESIZE_MIN.
  rewrite andb_true_iff, Z.leb_le, Z.eqb_eq. split.
  - intros [H16 Hland]. unfold size_wrap in Hland.
    rewrite Z.mod_small in Hland by lia.
    apply land_pred_pow2 in Hland; [|lia].
    exists (Z.log2 x). split; [|done]. split.
    + apply (Z.log2_le_mono 16). lia.
    + apply Z.log2_lt_pow2; lia.
  - intros (e & He & ->).
    assert (2 ^ 4 <= 2 ^ e) by (apply Z.pow_le_mono_r; lia).
    split; [lia|]. unfold size_wrap. rewrite Z.mod_small by lia.
    apply land_pred_pow2; [lia|]. by rewrite Z.log2_pow2 by lia.
Qed.

(** X1.  [next_power_of_2] answers the least power of two above its
    argument: for [0 < x < 2^63] a power [2^e] with [2^(e-1) <= x < 2^e], so
    that a power of two is doubled.  For 0 it answers 1, and from [2^63] on
    the sum wraps around to 0. *)
Theorem next_power_of_2_spec (x : Z) :
  0 <= x < 2 ^ 64 ->
  (x = 0 -> next_power_of_2 x = 1) /\
  (0 < x < 2 ^ 63 ->
   exists e, 0 < e < 64 /\ next_power_of_2 x = 2 ^ e /\ 2 ^ (e - 1) <= x < 2 ^ e) /\
  (2 ^ 63 <= x -> next_power_of_2 x = 0).
Proof.
  intros Hx. split; [by intros ->|]. split.
  - intros Hx'. rewrite next_power_of_2_log2 by lia.
    pose proof (Z.log2_spec x ltac:(lia)) as [Hlo Hhi].
    rewrite <- Z.add_1_r in Hhi.
    assert (0 <= Z.log2 x < 63).
    { split; [apply Z.log2_nonneg|apply Z.log2_lt_pow2; lia]. }
    assert (2 ^ (Z.log2 x + 1) <= 2 ^ 63) by (apply Z.pow_le_mono_r; lia).
    exists (Z.log2 x + 1). split; [lia|].
    replace (Z.log2 x + 1 - 1) with (Z.log2 x) by lia.
    unfold size_wrap. rewrite Z.mod_small by lia. done.
  - intros Hx'. rewrite next_power_of_2_log2 by lia.
    assert (Z.log2 x = 63) as ->; [|done].
    apply Z.log2_unique; lia.
Qed.

(** X3.  A table made by [hash_init_capacity] has a power of two of at
    least 16 slots, more than the capacity asked for and at most twice as
    many (or 16), all of them allocated; it holds no item, and every key is
    reported absent by [hash_get] and by [hash_exists]. *)
Theorem hash_init_capacity_fresh (capacity : Z) :
  0 <= capacity < 2 ^ 59 ->
  let hash := hash_init_capacity capacity in
  (exists e, 4 <= e /\ hash_length hash = 2 ^ e) /\
  capacity < hash_length hash <= Z.max 16 (2 * capacity) /\
  Z.of_nat (length (buckets hash)) = hash_length hash /\
  hash_count hash = 0 /\
  forall k, hash_get hash k = Ok (-1) /\ hash_exists hash k = Ok 0.
Proof.
  intros Hc hash.
  pose proof (represents_empty capacity Hc) as (Hinv & Hl & Hcount).
  pose proof (next_size_bounds capacity ltac:(lia)) as [H16 Hn].
  fold hash in Hinv, Hl, Hcount.
  split; [|split; [exact Hn|split; [apply Hinv|split; [done|]]]].
  - subst hash. cbn. unfold next_size, RESIZE_MIN.
    destruct (Z.ltb_spec capacity 16); [by exists 4|].
    rewrite next_power_of_2_log2 by lia.
    assert (4 <= Z.log2 capacity < 63).
    { split; [apply (Z.log2_le_mono 16); lia|apply Z.log2_lt_pow2; lia]. }
    assert (2 ^ (Z.log2 capacity + 1) <= 2 ^ 63) by (apply Z.pow_le_mono_r; lia).
    assert (0 < 2 ^ (Z.log2 capacity + 1)) by (apply Z.pow_pos_nonneg; lia).
    exists (Z.log2 capacity + 1). split; [lia|].
    unfold size_wrap. rewrite Z.mod_small; lia.
  - intros k. rewrite hash_get_lookup, hash_exists_lookup, Hl by done.
    by rewrite lookup_empty.
Qed.

(** ** Writing and reading back *)

Lemma insert_all_app (fuel : nat) (hash : Hash) (os1 os2 : list insertion) :
  insert_all fuel hash (os1 ++ os2) =
  (hash' ← insert_all fuel hash os1; insert_all fuel hash' os2).
Proof.
  revert hash. induction os1 as [|o os1 IH]; intros hash; [done|]. cbn.
  destruct (insert fuel hash o); cbn; done.
Qed.

Lemma model_app (os1 os2 : list insertion) :
  model (os1 ++ os2) = foldl model_insert (model os1) os2.
Proof. apply foldl_app. Qed.

(** What holds of a table built by insertions and of the table one more
    insertion makes of it. *)
Lemma built_then_insert (fuel : nat) (capacity : Z) (os : list insertion)
    (hash hash' : Hash) (o : insertion) :
  0 <= capacity <= 2 ^ 45 ->
  Z.of_nat (length os) < 2 ^ 45 ->
  insert_all (S fuel) (hash_init_capacity capacity) os = Ok hash ->
  insert (S fuel) hash o = Ok hash' ->
  represents hash (model os) /\
  represents hash' (model_insert (model os) o).
Proof.
  intros Hcap Hlen H H'.
  destruct (built_represents fuel capacity os Hcap ltac:(lia)) as (_ & _ & Hok).
  destruct (Hok hash H) as [Hrep _]. split; [done|].
  destruct (built_represents fuel capacity (os ++ [o]) Hcap) as (_ & _ & Hok').
  { rewrite length_app. cbn. lia. }
  destruct (Hok' hash') as [Hrep' _].
  { rewrite insert_all_app, H. cbn. by rewrite H'. }
  by rewrite model_app in Hrep'.
Qed.

Lemma represents_get (hash : Hash) (m : gmap string double) (k : string) :
  represents hash m ->
  hash_get hash k = match m !! k with Some v => double_to_long v | None => Ok (-1) end /\
  hash_exists hash k = Ok match m !! k with Some _ => 1 | None => 0 end.
Proof.
  intros (Hinv & Hl & _).
  by rewrite hash_get_lookup, hash_exists_lookup, Hl.
Qed.

(** X4.  After [hash_put] of [k] and [v] into a table built by insertions,
    [hash_get] of [k] returns [v] converted to [long] and [hash_exists]
    returns 1; every other key is answered as before. *)
Theorem hash_put_then_get (fuel : nat) (capacity : Z) (os : list insertion)
    (hash hash' : Hash) (k : string) (v : double) :
  0 <= capacity <= 2 ^ 45 ->
  Z.of_nat (length os) < 2 ^ 45 ->
  insert_all (S fuel) (hash_init_capacity capacity) os = Ok hash ->
  hash_put (S fuel) hash k v = Ok hash' ->
  hash_get hash' k = double_to_long v /\
  hash_exists hash' k = Ok 1 /\
  forall k', k' <> k ->
    hash_get hash' k' = hash_get hash k' /\
    hash_exists hash' k' = hash_exists hash k'.
Proof.
  intros Hcap Hlen H H'.
  destruct (built_then_insert fuel capacity os hash hash' (Put k v)
              Hcap Hlen H H') as [Hrep Hrep'].
  cbn in Hrep'.
  pose proof (represents_get hash' _ k Hrep') as [Hg He].
  rewrite lookup_insert_eq in Hg, He. split; [done|]. split; [done|].
  intros k' Hne.
  pose proof (represents_get hash' _ k' Hrep') as [Hg' He'].
  pose proof (represents_get hash _ k' Hrep) as [Hg0 He0].
  rewrite lookup_insert_ne in Hg', He' by done.
  by rewrite Hg', He', Hg0, He0.
Qed.

Lemma model_incs (m : gmap string double) (k : string) (v : double)
    (vs : list double) :
  foldl model_insert m (Inc k <$> v :: vs) =
  <[k := foldl double_add
           match m !! k with Some old => double_add old v | None => v end vs]> m.
Proof.
  revert m v. induction vs as [|w vs IH]; intros m v; [done|].
  change (foldl model_insert m (Inc k <$> v :: w :: vs)) with
    (foldl model_insert (model_insert m (Inc k v)) (Inc k <$> w :: vs)).
  rewrite IH. cbn. rewrite lookup_insert_eq, insert_insert_eq. done.
Qed.

(** X5.  Increments add up.  After [hash_inc] of [k] by [v] and then by
    each of [vs], the key holds the sum formed from left to right, starting
    from the value it had, or from [v] when it was new; [hash_get] returns
    that sum converted to [long], and the item count is the number of
    distinct keys. *)
Theorem hash_inc_accumulates (fuel : nat) (capacity : Z) (os : list insertion)
    (hash : Hash) (k : string) (v : double) (vs : list double) :
  0 <= capacity <= 2 ^ 45 ->
  Z.of_nat (length os) + Z.of_nat (length vs) < 2 ^ 45 ->
  insert_all (S fuel) (hash_init_capacity capacity) (os ++ (Inc k <$> v :: vs))
    = Ok hash ->
  hash_exists hash k = Ok 1 /\
  hash_get hash k =
    double_to_long
      (foldl double_add
         match model os !! k with Some old => double_add old v | None => v end
         vs) /\
  hash_count hash = Z.of_nat (size (dom (model os) ∪ {[k]})).
Proof.
  intros Hcap Hlen H.
  destruct (built_represents fuel capacity (os ++ (Inc k <$> v :: vs)) Hcap)
    as (_ & _ & Hok).
  { rewrite length_app, length_fmap. cbn [length]. lia. }
  destruct (Hok hash H) as [Hrep _].
  rewrite model_app, model_incs in Hrep.
  pose proof (represents_get hash _ k Hrep) as [Hg He].
  rewrite lookup_insert_eq in Hg, He. split; [done|]. split; [done|].
  destruct Hrep as (_ & _ & ->).
  by rewrite <- size_dom, dom_insert_L, (union_comm_L {[k]}).
Qed.

(** X6.  Updating a key that is in the table never grows it: [hash_put]
    and [hash_inc] return whatever the budget, and leave the item count and
    the slot count as they were. *)
Theorem update_of_present_key (fuel : nat) (capacity : Z) (os : list insertion)
    (hash : Hash) (k : string) (v : double) :
  0 <= capacity <= 2 ^ 45 ->
  Z.of_nat (length os) <= 2 ^ 45 ->
  insert_all (S fuel) (hash_init_capacity capacity) os = Ok hash ->
  k ∈ insertion_key <$> os ->
  forall fuel' : nat,
    (exists hash', hash_put fuel' hash k v = Ok hash' /\
       hash_count hash' = hash_count hash /\
       hash_length hash' = hash_length hash) /\
    (exists hash', hash_inc fuel' hash k v = Ok hash' /\
       hash_count hash' = hash_count hash /\
       hash_length hash' = hash_length hash).
Proof.
  intros Hcap Hlen H Hk fuel'.
  destruct (built_represents fuel capacity os Hcap Hlen) as (_ & _ & Hok).
  destruct (Hok hash H) as [(Hinv & Hl & _) _].
  assert (Hsome : hash_lookup hash k <> None).
  { rewrite Hl. intros Hnone. by apply model_lookup_None in Hnone. }
  destruct (slot_index_inv hash k Hinv) as (_ & b & Hb & _).
  assert (Hstore : forall found, exists hash',
            hash_store found hash k v = Ok (true, hash') /\
            hash_count hash' = hash_count hash /\
            hash_length hash' = hash_length hash).
  { intros g.
    pose proof (hash_store_not_UB g hash k v b Hinv Hb (or_introl Hsome)) as Hub.
    pose proof (hash_store_not_OutOfFuel g hash k v) as Hfuel.
    destruct (hash_store g hash k v) as [[returned hash']| |] eqn:E; [|done|done].
    destruct (hash_store_spec _ _ _ _ _ _ Hinv E) as (_ & Hlen' & Hc' & Hr).
    destruct returned; [eauto|]. by destruct Hr. }
  split.
  - destruct (Hstore (fun _ => v)) as (hash' & E & ?).
    exists hash'. split; [|done]. rewrite hash_put_unfold, E. done.
  - destruct (Hstore (fun old => double_add old v)) as (hash' & E & ?).
    exists hash'. split; [|done]. unfold hash_inc. rewrite E. done.
Qed.

(** ** A bucket that is full *)

Lemma hash_store_full_bucket (found : double -> double) (hash : Hash)
    (k : string) (v : double) (b : Bucket) :
  hash_inv hash ->
  buckets hash !! slot_of hash k = Some b ->
  hash_lookup hash k = None ->
  bucket_length b = 16 ->
  hash_store found hash k v = UB.
Proof.
  intros Hinv Hb Hnone Hfull.
  destruct (slot_index_inv hash k Hinv) as (Hi & b' & Hb' & Hbinv).
  assert (b' = b) as -> by congruence.
  assert (Hlook : hash_lookup hash k = pairs_lookup (live_pairs b) k).
  { unfold hash_lookup. by rewrite Hb. }
  unfold hash_store. rewrite Hi. cbn [mbind result_bind].
  rewrite (array_get_lookup _ _ _ Hb). cbn [mbind result_bind].
  pose proof Hbinv as (Hblen & Hblock & _).
  destruct (pairs b) as [ps|] eqn:Hps; [|lia].
  rewrite (bucket_find_live _ _ _ _ k Hbinv Hps). cbn [mbind result_bind].
  destruct (pairs_index (live_pairs b) k) as [j|] eqn:Hj.
  { apply pairs_index_Some in Hj as (p & _ & _ & Hv). congruence. }
  cbn [fmap option_fmap option_map]. rewrite Hfull.
  change (resize_p 16) with true. cbv iota.
  set (n := next_size (size_wrap (16 + 1))).
  pose proof (bucket_growth_store_UB ps) as Hgrow.
  specialize (fun ps1 ps2 => Hgrow ps1 ps2 16 (mkPair (Some k) v) ltac:(lia)).
  cbv zeta in Hgrow. fold n in Hgrow. clearbody n.
  assert (Hfuel : for_loop (Z.to_nat (n - 16)) 16
            (fun j ps => p ← array_get ps j; array_set ps j (mkPair None (value p)))
            (hash_realloc zero_Pair ps sizeof_Pair n) <> OutOfFuel).
  { apply for_loop_not_OutOfFuel. intros j ps0.
    apply bind_not_OutOfFuel; [apply array_get_not_OutOfFuel|].
    intros q _. apply array_set_not_OutOfFuel. }
  destruct (for_loop _ _ _ _) as [ps1| |]; [|done|done].
  cbn [mbind result_bind].
  pose proof (array_set_not_OutOfFuel ps1 (Z.max 16 n) (mkPair (Some k) v)).
  destruct (array_set ps1 (Z.max 16 n) (mkPair (Some k) v)) as [ps2| |] eqn:E;
    [|done|done].
  by destruct (Hgrow ps1 ps2).
Qed.

(** X7.  On a well-formed table the body shared by [hash_put] and
    [hash_inc] is undefined exactly when the key is new and its bucket
    already holds 16 pairs: the growth branch leaves [j] at the size of the
    new block and stores there.  Both functions are then undefined whatever
    the budget. *)
Theorem full_bucket_overflows (found : double -> double) (hash : Hash)
    (k : string) (v : double) (b : Bucket) :
  hash_inv hash ->
  buckets hash !! slot_of hash k = Some b ->
  (hash_store found hash k v = UB <->
   hash_lookup hash k = None /\ bucket_length b = 16) /\
  (hash_lookup hash k = None -> bucket_length b = 16 ->
   forall fuel, hash_put fuel hash k v = UB /\ hash_inc fuel hash k v = UB).
Proof.
  intros Hinv Hb. split; [split|].
  - intros HUB.
    destruct (slot_index_inv hash k Hinv) as (_ & b' & Hb' & Hbinv).
    assert (b' = b) as -> by congruence.
    destruct Hbinv as (Hblen & _).
    destruct (hash_lookup hash k) as [old|] eqn:Hk.
    + exfalso. apply (hash_store_not_UB found hash k v b Hinv Hb); [|done].
      left. by rewrite Hk.
    + split; [done|].
      destruct (Z.eq_dec (bucket_length b) 16) as [|Hne]; [done|].
      exfalso. apply (hash_store_not_UB found hash k v b Hinv Hb); [|done].
      right. lia.
  - intros [Hnone Hfull]. by apply (hash_store_full_bucket found hash k v b).
  - intros Hnone Hfull fuel. split.
    + rewrite hash_put_unfold.
      by rewrite (hash_store_full_bucket _ hash k v b).
    + unfold hash_inc. by rewrite (hash_store_full_bucket _ hash k v b).
Qed.

(** ** Visiting every pair *)

Lemma for_loop_ext {St} (f g : Z -> St -> result St) (n : nat) (i : Z) (s : St) :
  (forall i s, f i s = g i s) -> for_loop n i f s = for_loop n i g s.
Proof.
  intros H. revert i s. induction n as [|n IH]; intros i s; [done|]. cbn.
  rewrite H. destruct (g i s); cbn; auto.
Qed.

(** The nested loops over the buckets and their pairs, which [hash_merge]
    and [hash_sort] share with [hash_resize], visit the live pairs slot by
    slot. *)
Lemma pairs_loop_live {St} (g : Pair -> St -> result St) (hash : Hash) (s : St) :
  hash_inv hash ->
  for_loop (Z.to_nat (hash_length hash)) 0 (fun i s =>
    b ← array_get (buckets hash) i;
    for_loop (Z.to_nat (bucket_length b)) 0 (fun j s =>
      ps ← match pairs b with Some ps => Ok ps | None => UB end;
      p ← array_get ps j;
      g p s) s) s =
  fold_over g (buckets hash ≫= live_pairs) s.
Proof.
  intros (Hpos & _ & Hlen & Hall).
  pose proof (for_loop_array (St := St) (buckets hash)) as Hout.
  specialize (Hout
    (fun b s => for_loop (Z.to_nat (bucket_length b)) 0
       (fun j s => ps ← match pairs b with Some ps => Ok ps | None => UB end;
                   p ← array_get ps j;
                   g p s) s)
    (Z.to_nat (hash_length hash)) O).
  change (Z.of_nat 0) with 0 in Hout. rewrite Hout by lia. clear Hout.
  rewrite drop_0, take_ge by lia.
  rewrite <- fold_over_bind.
  apply fold_over_ext.
  intros b s' [i Hb]%list_elem_of_lookup_1. cbn beta.
  destruct (Hall i b Hb) as (Hblen & Hblock & _).
  unfold live_pairs. destruct (pairs b) as [ps|]; cbn.
  - pose proof (for_loop_array (St := St) ps g
                  (Z.to_nat (bucket_length b)) O s') as Hin.
    change (Z.of_nat 0) with 0 in Hin. rewrite Hin by lia.
    by rewrite drop_0.
  - rewrite Hblock. done.
Qed.

(** No key is stored twice in a well-formed table. *)
Lemma live_keys_NoDup_from (len : Z) (bs : list Bucket) (off : nat) :
  (forall i b, bs !! i = Some b -> bucket_inv len (off + i) b) ->
  NoDup (key <$> (bs ≫= live_pairs)).
Proof.
  revert off. induction bs as [|b bs IH]; intros off H; [apply NoDup_nil_2|].
  change ((b :: bs) ≫= live_pairs) with (live_pairs b ++ (bs ≫= live_pairs)).
  rewrite fmap_app. apply NoDup_app. split; [|split].
  - destruct (H O b eq_refl) as (_ & _ & _ & Hnd). done.
  - intros x (p & -> & Hp)%list_elem_of_fmap (q & Hq & Hin)%list_elem_of_fmap.
    destruct (H O b eq_refl) as (_ & _ & Hkeys & _).
    rewrite Forall_forall in Hkeys. destruct (Hkeys p Hp) as (k & Hk & Hslot).
    apply list_elem_of_bind in Hin as (b' & Hin & Hb').
    apply list_elem_of_lookup_1 in Hb' as [i Hb'].
    destruct (H (S i) b' Hb') as (_ & _ & Hkeys' & _).
    rewrite Forall_forall in Hkeys'. destruct (Hkeys' q Hin) as (k' & Hk' & Hslot').
    assert (k' = k) as -> by congruence. lia.
  - apply (IH (S off)). intros i b' Hb'.
    replace (S off + i)%nat with (off + S i)%nat by lia. by apply H.
Qed.

Lemma live_keys_NoDup (hash : Hash) :
  hash_inv hash -> NoDup (key <$> (buckets hash ≫= live_pairs)).
Proof.
  intros (_ & _ & _ & Hall).
  apply (live_keys_NoDup_from (hash_length hash) _ O). done.
Qed.

Lemma live_keys_Some (hash : Hash) (p : Pair) :
  hash_inv hash -> p ∈ buckets hash ≫= live_pairs -> is_Some (key p).
Proof.
  intros Hinv Hp. destruct (live_pairs_stored hash p Hinv Hp) as (k & -> & _).
  eauto.
Qed.

Lemma pairs_lookup_is_Some (l : list Pair) (k : string) :
  Some k ∈ key <$> l -> is_Some (pairs_lookup l k).
Proof.
  induction l as [|p l IH]; cbn; [by intros ?%elem_of_nil|].
  intros [Hk|Hin]%elem_of_cons.
  - rewrite decide_True by done. eauto.
  - destruct (decide _); eauto.
Qed.

(** Looking a key up among all the pairs is looking it up in its slot. *)
Lemma pairs_lookup_live (hash : Hash) (k : string) :
  hash_inv hash ->
  pairs_lookup (buckets hash ≫= live_pairs) k = hash_lookup hash k.
Proof.
  intros Hinv.
  destruct (pairs_lookup _ k) as [v|] eqn:E.
  - apply pairs_lookup_Some in E.
    destruct (live_pairs_stored hash _ Hinv E) as (k' & [= <-] & ->). done.
  - destruct (hash_lookup hash k) as [v|] eqn:E'; [|done].
    apply stored_in_live_pairs in E'. apply pairs_lookup_is_Some in E'.
    rewrite E in E'. by destruct E'.
Qed.

(** The pairs of a table are the entries of the map it stores, in some
    order. *)
Lemma live_pairs_map (hash : Hash) (m : gmap string double) :
  hash_inv hash -> (forall k, hash_lookup hash k = m !! k) ->
  buckets hash ≫= live_pairs ≡ₚ pair_of_item <$> map_to_list m.
Proof.
  intros Hinv Hl. apply NoDup_Permutation.
  - eapply NoDup_fmap_1. by apply live_keys_NoDup.
  - apply NoDup_fmap_2; [|apply NoDup_map_to_list].
    intros [k v] [k' v'] [= -> ->]. done.
  - intros p. rewrite list_elem_of_fmap. split.
    + intros Hp. destruct (live_pairs_stored hash p Hinv Hp) as (k & Hk & Hv).
      exists (k, value p). split.
      * destruct p as [kp vp]. cbn in *. by subst.
      * apply elem_of_map_to_list. by rewrite <- Hl.
    + intros ([k v] & -> & Hkv). apply elem_of_map_to_list in Hkv.
      rewrite <- Hl in Hkv. unfold hash_lookup in Hkv.
      destruct (buckets hash !! slot_of hash k) as [b|] eqn:Hb; [|done].
      cbn in Hkv. apply pairs_lookup_Some in Hkv.
      apply list_elem_of_bind. exists b. split; [done|].
      by eapply list_elem_of_lookup_2.
Qed.

Lemma live_pairs_count (hash : Hash) (m : gmap string double) :
  represents hash m ->
  Z.of_nat (length (buckets hash ≫= live_pairs)) = hash_count hash.
Proof.
  intros (Hinv & Hl & ->).
  by rewrite (live_pairs_map hash m Hinv Hl), length_fmap, length_map_to_list.
Qed.

(** ** Merging *)

Lemma hash_merge_insert_all (fuel : nat) (dest src : Hash) :
  hash_inv src ->
  hash_merge fuel dest src =
  insert_all fuel dest (inc_of_pair <$> (buckets src ≫= live_pairs)).
Proof.
  intros Hinv. unfold hash_merge.
  rewrite (pairs_loop_live
             (fun p dest => match key p with
                            | Some k => hash_inc fuel dest k (value p)
                            | None => UB
                            end) src dest Hinv).
  pose proof (live_keys_Some src) as Hsome. specialize (fun p => Hsome p Hinv).
  revert dest Hsome. generalize (buckets src ≫= live_pairs).
  induction l as [|p l IH]; intros dest Hsome; [done|]. cbn.
  destruct (Hsome p) as [k Hk]; [apply list_elem_of_here|]. rewrite Hk. cbn.
  destruct (hash_inc fuel dest k (value p)); cbn; [|done|done].
  apply IH. intros q Hq. apply Hsome. by apply list_elem_of_further.
Qed.

Lemma model_inc_pairs (l : list Pair) (m : gmap string double) (k : string) :
  NoDup (key <$> l) ->
  (forall p, p ∈ l -> is_Some (key p)) ->
  foldl model_insert m (inc_of_pair <$> l) !! k =
  union_with add_values (m !! k) (pairs_lookup l k).
Proof.
  revert m. induction l as [|p l IH]; intros m Hnd Hsome.
  - cbn. by destruct (m !! k).
  - cbn in Hnd. apply NoDup_cons in Hnd as [Hp Hnd].
    destruct (Hsome p) as [kp Hkp]; [apply list_elem_of_here|].
    cbn [fmap list_fmap foldl]. rewrite IH; [|done|].
    2: { intros q Hq. apply Hsome. by apply list_elem_of_further. }
    unfold inc_of_pair at 1. rewrite Hkp. cbn [default model_insert pairs_lookup].
    rewrite Hkp. unfold id. destruct (decide (Some kp = Some k)) as [[= ->]|Hne].
    + rewrite lookup_insert_eq. rewrite Hkp in Hp.
      rewrite (pairs_lookup_None l k Hp). destruct (m !! k); reflexivity.
    + rewrite lookup_insert_ne by congruence. done.
Qed.

(** X8.  [hash_merge] adds [src] into [dest] key by key: a key of both
    ends with the sum of its two values, a key of one of them with the
    value it had there.  One level of budget suffices, and the run is
    defined when no 17 of the keys of the two tables agree on their hash
    modulo 16. *)
Theorem hash_merge_adds (fuel : nat) (dest src : Hash)
    (md ms : gmap string double) :
  represents dest md ->
  load_ok dest ->
  16 <= hash_length dest <= 2 ^ 52 ->
  represents src ms ->
  Z.of_nat (size md) + Z.of_nat (size ms) <= 2 ^ 45 ->
  hash_merge (S fuel) dest src <> OutOfFuel /\
  (~ crowded (dom md ∪ dom ms) -> hash_merge (S fuel) dest src <> UB) /\
  forall dest', hash_merge (S fuel) dest src = Ok dest' ->
    represents dest' (union_with add_values md ms) /\ load_ok dest'.
Proof.
  intros Hd Hload Hlen (Hinv & Hl & Hc) Hsize.
  rewrite hash_merge_insert_all by done.
  set (l := buckets src ≫= live_pairs).
  assert (Hm : foldl model_insert md (inc_of_pair <$> l)
               = union_with add_values md ms).
  { apply map_eq. intros k. rewrite lookup_union_with.
    rewrite model_inc_pairs;
      [|by apply live_keys_NoDup|intros p; by apply live_keys_Some].
    unfold l. by rewrite pairs_lookup_live, Hl. }
  assert (Hlen_l : Z.of_nat (length l) = Z.of_nat (size ms)).
  { rewrite <- Hc. by apply (live_pairs_count src ms). }
  destruct (insert_all_spec fuel (inc_of_pair <$> l) dest md Hd Hload Hlen)
    as (Hf & Hu & Hok).
  { rewrite length_fmap. lia. }
  rewrite Hm in Hu, Hok. split; [done|]. split; [|done].
  intros Hcr. apply Hu. intros Hcr'. apply Hcr.
  eapply crowded_mono; [|exact Hcr'].
  intros k. rewrite elem_of_dom, lookup_union_with, elem_of_union, !elem_of_dom.
  destruct (md !! k), (ms !! k); cbn; intros [? ?]; eauto; done.
Qed.

(** ** Calling a function on every item *)

Lemma bind_Ok_l {A B} (a : A) (f : A -> result B) : Ok a ≫= f = f a.
Proof. reflexivity. Qed.

Lemma first_nonzero_app (l1 l2 : list Z) :
  first_nonzero (l1 ++ l2) =
  if first_nonzero l1 =? 0 then first_nonzero l2 else first_nonzero l1.
Proof.
  induction l1 as [|x l1 IH]; [done|]. cbn.
  destruct (Z.eqb_spec x 0) as [->|Hx]; [done|].
  by destruct (Z.eqb_spec x 0).
Qed.

Lemma first_nonzero_0 (l : list Z) :
  first_nonzero l = 0 <-> Forall (fun x => x = 0) l.
Proof.
  induction l as [|x l IH]; cbn.
  - split; [intros _; apply Forall_nil_2|done].
  - rewrite Forall_cons. destruct (Z.eqb_spec x 0); [tauto|]. tauto.
Qed.

Lemma first_nonzero_elem (l : list Z) :
  first_nonzero l <> 0 -> first_nonzero l ∈ l.
Proof.
  induction l as [|x l IH]; cbn; [done|].
  destruct (Z.eqb_spec x 0).
  - intros H. apply list_elem_of_further. auto.
  - intros _. apply list_elem_of_here.
Qed.

Lemma foreach_pairs_items (f : string -> double -> Z) (ps : list Pair)
    (n j : nat) :
  (j + n <= length ps)%nat ->
  Z.of_nat (j + n) <= INT_MAX ->
  foreach_pairs f (Some ps) (Z.of_nat j) n =
  Ok (first_nonzero (call_on f <$> items_of (take n (drop j ps)))).
Proof.
  revert j. induction n as [|n IH]; intros j Hlen Hint; [done|].
  destruct (lookup_lt_is_Some_2 ps j ltac:(lia)) as [p Hp].
  rewrite (drop_S _ _ _ Hp). cbn [foreach_pairs take mbind result_bind].
  rewrite (array_get_lookup _ _ _ Hp). cbn [mbind result_bind].
  unfold int_succ. destruct (Z.ltb_spec INT_MAX (Z.of_nat j + 1)); [lia|].
  cbn [mbind result_bind].
  replace (Z.of_nat j + 1) with (Z.of_nat (S j)) by lia.
  rewrite IH by lia.
  change (items_of (p :: take n (drop (S j) ps))) with
    (match key p with Some k => [(k, value p)] | None => [] end
     ++ items_of (take n (drop (S j) ps))).
  destruct (key p) as [k|]; cbn.
  - unfold call_on at 2. cbn. by destruct (Z.eqb_spec (f k (value p)) 0).
  - done.
Qed.

Lemma foreach_buckets_items (f : string -> double -> Z) (len : Z)
    (bs : list Bucket) (n i : nat) :
  (forall j b, bs !! j = Some b -> bucket_inv len j b) ->
  (i + n <= length bs)%nat ->
  Z.of_nat (i + n) <= INT_MAX ->
  foreach_buckets f bs (Z.of_nat i) n =
  Ok (first_nonzero (call_on f <$> (take n (drop i bs) ≫= bucket_items))).
Proof.
  intros Hall. revert i. induction n as [|n IH]; intros i Hlen Hint; [done|].
  destruct (lookup_lt_is_Some_2 bs i ltac:(lia)) as [b Hb].
  rewrite (drop_S _ _ _ Hb).
  change (take (S n) (b :: drop (S i) bs)) with (b :: take n (drop (S i) bs)).
  rewrite bind_cons, fmap_app, first_nonzero_app.
  assert (Hin : foreach_pairs f (pairs b) 0 (Z.to_nat (bucket_length b))
                = Ok (first_nonzero (call_on f <$> bucket_items b))).
  { destruct (Hall i b Hb) as (Hblen & Hblock & _).
    unfold bucket_items. destruct (pairs b) as [ps|]; cbn [default].
    - pose proof (foreach_pairs_items f ps (Z.to_nat (bucket_length b)) O) as H.
      change (Z.of_nat 0) with 0 in H. rewrite drop_0 in H.
      apply H; [lia|]. unfold INT_MAX. lia.
    - rewrite Hblock. done. }
  cbn [foreach_buckets]. rewrite (array_get_lookup _ _ _ Hb), bind_Ok_l.
  rewrite Hin, bind_Ok_l.
  destruct (Z.eqb_spec (first_nonzero (call_on f <$> bucket_items b)) 0);
    cbn [negb]; [|done].
  unfold int_succ. destruct (Z.ltb_spec INT_MAX (Z.of_nat i + 1)); [lia|].
  rewrite bind_Ok_l.
  replace (Z.of_nat i + 1) with (Z.of_nat (S i)) by lia.
  apply IH; lia.
Qed.

Lemma hash_items_elem (hash : Hash) (k : string) (v : double) :
  hash_inv hash -> (k, v) ∈ hash_items hash <-> hash_lookup hash k = Some v.
Proof.
  intros Hinv. unfold hash_items.
  assert (Hb : forall b, (k, v) ∈ bucket_items b
                         <-> mkPair (Some k) v ∈ live_pairs b).
  { intros b. unfold bucket_items. fold (live_pairs b).
    rewrite list_elem_of_bind. split.
    - intros (p & Hkv & Hp). destruct p as [[kp|] vp]; cbn in Hkv.
      + apply list_elem_of_singleton in Hkv as [= -> ->]. done.
      + by apply elem_of_nil in Hkv.
    - intros Hp. exists (mkPair (Some k) v). split; [|done].
      cbn. apply list_elem_of_here. }
  rewrite list_elem_of_bind. split.
  - intros (b & Hkv & Hin). apply Hb in Hkv.
    destruct (live_pairs_stored hash (mkPair (Some k) v) Hinv)
      as (k' & [= <-] & Hv); [|done].
    apply list_elem_of_bind. eauto.
  - unfold hash_lookup. intros H.
    destruct (buckets hash !! slot_of hash k) as [b|] eqn:E; [|done].
    cbn in H. apply pairs_lookup_Some in H.
    exists b. split; [by apply Hb|]. by eapply list_elem_of_lookup_2.
Qed.

(** X9.  [hash_foreach] returns the first nonzero value that [f] gives
    when called on the items slot by slot, and 0 when there is none: it
    returns 0 exactly when [f] is 0 on every stored item, and a nonzero
    result is the value of [f] on some stored item. *)
Theorem hash_foreach_first_nonzero (hash : Hash) (f : string -> double -> Z) :
  hash_inv hash ->
  hash_length hash <= INT_MAX ->
  hash_foreach hash f
    = Ok (first_nonzero (call_on f <$> hash_items hash)) /\
  (hash_foreach hash f = Ok 0 <->
   forall k v, hash_lookup hash k = Some v -> f k v = 0) /\
  forall r, hash_foreach hash f = Ok r -> r <> 0 ->
    exists k v, hash_lookup hash k = Some v /\ f k v = r.
Proof.
  intros Hinv Hint. pose proof Hinv as (Hpos & _ & Hlen & Hall).
  assert (H : hash_foreach hash f
              = Ok (first_nonzero (call_on f <$> hash_items hash))).
  { unfold hash_foreach, hash_items.
    pose proof (foreach_buckets_items f (hash_length hash) (buckets hash)
                  (Z.to_nat (hash_length hash)) O Hall) as H.
    change (Z.of_nat 0) with 0 in H. rewrite drop_0, take_ge in H by lia.
    apply H; lia. }
  split; [done|]. rewrite H. split.
  - split.
    + intros [= H0] k v Hkv. apply first_nonzero_0 in H0.
      rewrite Forall_forall in H0. apply (H0 (f k v)).
      apply list_elem_of_fmap. exists (k, v). split; [done|].
      by apply hash_items_elem.
    + intros H0. f_equal. apply first_nonzero_0, Forall_forall.
      intros x ([k v] & -> & Hkv)%list_elem_of_fmap.
      apply H0. by apply hash_items_elem.
  - intros r [= <-] Hr. apply first_nonzero_elem in Hr.
    apply list_elem_of_fmap in Hr as ([k v] & Heq & Hkv).
    exists k, v. split; [by apply hash_items_elem|done].
Qed.

(** ** Sorting *)

Lemma SFcompare_antisym (x y : double) :
  SFcompare y x = CompOpp <$> SFcompare x y.
Proof.
  destruct x as [sx|sx| |sx mx ex], y as [sy|sy| |sy my ey]; cbn;
    try done; try (by destruct sx); try (by destruct sy);
    try (by destruct sx, sy).
  f_equal. rewrite (Z.compare_antisym ey ex).
  assert (Pos.compare_cont Eq mx my = CompOpp (Pos.compare_cont Eq my mx)) as ->
    by (symmetry; apply (Pos.compare_cont_antisym my mx Eq)).
  destruct sx, sy; cbn; try done;
    destruct (ey ?= ex); cbn; try done;
    by destruct (Pos.compare_cont Eq my mx).
Qed.

(** X10.  [pair_comparator] is antisymmetric: swapping the arguments
    negates the result.  It answers -1 exactly when the first value is the
    greater one (a descending order), and 0 as soon as one of the values is
    a NaN. *)
Theorem pair_comparator_antisym (xp yp : Pair) :
  pair_comparator yp xp = - pair_comparator xp yp /\
  (pair_comparator xp yp = -1 <-> double_gt (value xp) (value yp) = true) /\
  (value xp = S754_nan \/ value yp = S754_nan -> pair_comparator xp yp = 0).
Proof.
  unfold pair_comparator, double_gt, double_lt.
  rewrite (SFcompare_antisym (value xp) (value yp)).
  split; [|split].
  - by destruct (SFcompare (value xp) (value yp)) as [[]|].
  - by destruct (SFcompare (value xp) (value yp)) as [[]|].
  - intros [-> | ->]; [done|]. by destruct (value xp).
Qed.

Section SortFacts.

Variable qsort : (Pair -> Pair -> Z) -> list Pair -> list Pair.
Hypothesis qsort_permutes : forall cmp l, qsort cmp l ≡ₚ l.

Lemma copy_pairs (l acc : list Pair) (r : nat) :
  Z.of_nat (length acc + length l) < 2 ^ 64 ->
  fold_over (fun p '(res, k) =>
               res ← array_set res k p; Ok (res, size_wrap (k + 1)))
    l (acc ++ replicate (length l + r) zero_Pair, Z.of_nat (length acc))
  = Ok (acc ++ l ++ replicate r zero_Pair, Z.of_nat (length acc + length l)).
Proof.
  revert acc. induction l as [|p l IH]; intros acc Hlen.
  - cbn. by rewrite Nat.add_0_r.
  - cbn [fold_over length] in *.
    rewrite array_set_lookup
      by (rewrite length_app, length_replicate; cbn; lia).
    cbn [mbind result_bind].
    rewrite insert_app_r_alt, Nat.sub_diag by lia.
    change (<[0%nat := p]> (replicate (S (length l) + r) zero_Pair))
      with (p :: replicate (length l + r) zero_Pair).
    assert (size_wrap (Z.of_nat (length acc) + 1)
            = Z.of_nat (length (acc ++ [p]))) as ->.
    { unfold size_wrap. rewrite Z.mod_small, length_app by lia. cbn. lia. }
    replace (acc ++ p :: replicate (length l + r) zero_Pair)
      with ((acc ++ [p]) ++ replicate (length l + r) zero_Pair)
      by (by rewrite <- app_assoc).
    rewrite IH by (rewrite length_app; cbn; lia).
    rewrite length_app, <- app_assoc. cbn. do 3 f_equal. lia.
Qed.

(** X11.  With a [qsort] that permutes its array, [hash_sort] hands back
    every stored pair exactly once and sets the length to the item
    count. *)
Theorem hash_sort_permutation (hash : Hash) (m : gmap string double) :
  represents hash m ->
  Z.of_nat (size m) < 2 ^ 59 ->
  exists res,
    hash_sort qsort hash = Ok (res, hash_count hash) /\
    res ≡ₚ pair_of_item <$> map_to_list m.
Proof.
  intros Hrep Hsize. pose proof (live_pairs_count hash m Hrep) as Hcount.
  destruct Hrep as (Hinv & Hl & Hc).
  exists (qsort pair_comparator (buckets hash ≫= live_pairs)).
  split; [|by rewrite qsort_permutes, (live_pairs_map hash m Hinv Hl)].
  unfold hash_sort.
  rewrite (for_loop_ext _
    (fun i st => b ← array_get (buckets hash) i;
       for_loop (Z.to_nat (bucket_length b)) 0 (fun j st =>
         ps ← match pairs b with Some ps => Ok ps | None => UB end;
         p ← array_get ps j;
         (fun p '(res, k) => res ← array_set res k p; Ok (res, size_wrap (k + 1)))
           p st) st)).
  2: { intros i st. destruct (array_get (buckets hash) i) as [b| |]; cbn; [|done|done].
       apply for_loop_ext. intros j [res k]. done. }
  rewrite (pairs_loop_live _ hash _ Hinv).
  set (l := buckets hash ≫= live_pairs) in *.
  assert (Hn : Z.to_nat (size_wrap (sizeof_Bucket * hash_count hash) / sizeof_Pair)
               = (length l + 0)%nat).
  { unfold sizeof_Bucket, sizeof_Pair, size_wrap. rewrite Z.mod_small by lia.
    rewrite (Z.mul_comm 16), Z.div_mul by lia. lia. }
  rewrite Hn.
  pose proof (copy_pairs l [] 0) as Hcopy. cbn [app length Nat.add] in Hcopy.
  change (Z.of_nat 0) with 0 in Hcopy. rewrite Hcopy by lia.
  cbn [mbind result_bind replicate]. rewrite app_nil_r, Nat2Z.id.
  rewrite firstn_all, drop_all, app_nil_r. by rewrite Hcount.
Qed.

End SortFacts.

(** ** Characters *)

Lemma legal_chars_loop_stride (buffer : list ascii) (n : nat) (seq i : Z) :
  0 <= seq + i ->
  (legal_chars_loop buffer seq i n = Ok true <->
   forall d : nat, (d < n)%nat ->
     exists c, buffer !! Z.to_nat (seq + i + 2 * Z.of_nat d) = Some c /\
               legal_char c = true) /\
  (legal_chars_loop buffer seq i n = Ok false ->
   exists (d : nat) c, (d < n)%nat /\
     buffer !! Z.to_nat (seq + i + 2 * Z.of_nat d) = Some c /\
     legal_char c = false).
Proof.
  revert seq i. induction n as [|n IH]; intros seq i Hpos.
  - cbn. split; [|done]. split; [intros _ d Hd; lia|done].
  - cbn [legal_chars_loop].
    destruct (IH (seq + 1) (i + 1) ltac:(lia)) as [IHt IHf].
    assert (Hshift : forall d : nat,
              seq + 1 + (i + 1) + 2 * Z.of_nat d = seq + i + 2 * Z.of_nat (S d))
      by (intros d; lia).
    unfold array_get. destruct (Z.ltb_spec (seq + i) 0) as [|_]; [lia|].
    destruct (buffer !! Z.to_nat (seq + i)) as [c|] eqn:Hc; cbn [mbind result_bind].
    + assert (Hl : negb (isprint c) && negb (Ascii.eqb c "010")
                   && negb (Ascii.eqb c "009") = negb (legal_char c)).
      { unfold legal_char. by rewrite !negb_orb. }
      rewrite Hl. destruct (legal_char c) eqn:Hlegal; cbn [negb].
      * split.
        -- rewrite IHt. split.
           ++ intros H [|d] Hd.
              ** exists c. rewrite Z.mul_0_r, Z.add_0_r. done.
              ** rewrite <- Hshift. apply H. lia.
           ++ intros H d Hd. rewrite Hshift. apply H. lia.
        -- intros (d & c' & Hd & Hc' & Hl')%IHf.
           exists (S d), c'. rewrite <- Hshift. split; [lia|done].
      * split.
        -- split; [done|]. intros H. destruct (H O ltac:(lia)) as (c' & Hc' & Hl').
           rewrite Z.mul_0_r, Z.add_0_r in Hc'. congruence.
        -- intros _. exists O, c. rewrite Z.mul_0_r, Z.add_0_r.
           split; [lia|done].
    + split; [|done]. split; [done|].
      intros H. destruct (H O ltac:(lia)) as (c' & Hc' & _).
      rewrite Z.mul_0_r, Z.add_0_r in Hc'. congruence.
Qed.

(** X12.  [legal_chars] advances [i] and [sequence] together, so it
    examines the characters at the offsets [0, 2, ..., 2 (length - 1)] from
    [sequence] and no other.  It returns true exactly when all of those lie
    in the block and are printable, newline or tab, and false only when one
    of them is not. *)
Theorem legal_chars_stride (buffer : list ascii) (seq len : Z) :
  0 <= seq ->
  (legal_chars buffer seq len = Ok true <->
   forall i, 0 <= i < len ->
     exists c, buffer !! Z.to_nat (seq + 2 * i) = Some c /\ legal_char c = true) /\
  (legal_chars buffer seq len = Ok false ->
   exists i c, 0 <= i < len /\
     buffer !! Z.to_nat (seq + 2 * i) = Some c /\ legal_char c = false).
Proof.
  intros Hseq. unfold legal_chars.
  destruct (legal_chars_loop_stride buffer (Z.to_nat len) seq 0 ltac:(lia))
    as [Ht Hf].
  split.
  - rewrite Ht. split.
    + intros H i Hi. destruct (H (Z.to_nat i) ltac:(lia)) as (c & Hc & Hl).
      exists c. rewrite Z.add_0_r, Z2Nat.id in Hc by lia. done.
    + intros H d Hd. destruct (H (Z.of_nat d) ltac:(lia)) as (c & Hc & Hl).
      exists c. by rewrite Z.add_0_r.
  - intros (d & c & Hd & Hc & Hl)%Hf. exists (Z.of_nat d), c.
    rewrite Z.add_0_r in Hc. split; [lia|done].
Qed.

(** ** C strings *)

Lemma cstring_of_app (s : list ascii) (rest : list ascii) :
  NUL ∉ s -> cstring_of (s ++ NUL :: rest) = Ok (string_of_list_ascii s).
Proof.
  induction s as [|c s IH]; intros Hs; [done|].
  apply not_elem_of_cons in Hs as [Hc Hs]. cbn.
  destruct (Ascii.eqb_spec c NUL); [congruence|].
  by rewrite IH.
Qed.

Lemma cstring_of_Ok (l : list ascii) (s : string) :
  cstring_of l = Ok s ->
  exists rest, l = list_ascii_of_string s ++ NUL :: rest /\
               NUL ∉ list_ascii_of_string s.
Proof.
  revert s. induction l as [|c l IH]; intros s H; [done|]. cbn in H.
  destruct (Ascii.eqb_spec c NUL) as [->|Hc].
  - injection H as <-. exists l. split; [done|]. apply not_elem_of_nil.
  - apply bind_Ok in H as (s' & E & [= <-]).
    destruct (IH s' E) as (rest & -> & Hs). exists rest. split; [done|].
    cbn. apply not_elem_of_cons. split; [congruence|done].
Qed.

Lemma for_loop_tolower (s rest pre : list ascii) :
  for_loop (length s) (Z.of_nat (length pre))
    (fun i b => c ← array_get b i; array_set b i (tolower c))
    (pre ++ s ++ rest)
  = Ok (pre ++ (tolower <$> s) ++ rest).
Proof.
  revert pre. induction s as [|c s IH]; intros pre; [done|].
  cbn [length for_loop].
  assert (Hc : (pre ++ (c :: s) ++ rest) !! length pre = Some c).
  { rewrite lookup_app_r by lia. by rewrite Nat.sub_diag. }
  rewrite (array_get_lookup _ _ _ Hc). cbn [mbind result_bind].
  rewrite array_set_lookup by (by eapply lookup_lt_Some).
  cbn [mbind result_bind].
  rewrite insert_app_r_alt, Nat.sub_diag by lia.
  change (<[0%nat := tolower c]> ((c :: s) ++ rest)) with (tolower c :: s ++ rest).
  replace (Z.of_nat (length pre) + 1) with (Z.of_nat (length (pre ++ [tolower c])))
    by (rewrite length_app; cbn; lia).
  replace (pre ++ tolower c :: s ++ rest)
    with ((pre ++ [tolower c]) ++ s ++ rest) by (by rewrite <- app_assoc).
    rewrite IH. by rewrite <- app_assoc.
Qed.

(** X13.  [filter_chars] replaces the characters before the first [NUL]
    by their lower case and leaves the terminator and what follows it
    alone; on a block without [NUL] it is undefined. *)
Theorem filter_chars_lowers (buffer : list ascii) :
  (forall s rest, NUL ∉ s ->
     buffer = s ++ NUL :: rest ->
     filter_chars buffer = Ok ((tolower <$> s) ++ NUL :: rest)) /\
  (NUL ∉ buffer -> filter_chars buffer = UB).
Proof.
  split.
  - intros s rest Hs ->. unfold filter_chars, cstring_at. cbn [Z.ltb Z.compare].
    change (Z.to_nat 0) with O. rewrite drop_0, cstring_of_app by done.
    cbn [mbind result_bind].
    assert (String.length (string_of_list_ascii s) = length s) as ->.
    { clear Hs. induction s as [|c s IH]; cbn; congruence. }
    apply (for_loop_tolower s (NUL :: rest) []).
  - intros Hnul. unfold filter_chars, cstring_at. cbn [Z.ltb Z.compare].
    change (Z.to_nat 0) with O. rewrite drop_0.
    assert (cstring_of buffer = UB) as ->; [|done].
    induction buffer as [|c l IH]; [done|].
    apply not_elem_of_cons in Hnul as [Hc Hl]. cbn.
    destruct (Ascii.eqb_spec c NUL); [congruence|]. by rewrite IH.
Qed.

(** ** Counting one match *)

Lemma freq_hash_inc_Ok (fuel : nat) (hash hash' : Hash)
    (buffer buffer' : list ascii) (sequence : Z) (v : double)
    (m0 m1 : regmatch_t) :
  freq_hash_inc fuel hash buffer sequence v m0 m1 = Ok (buffer', hash') ->
  buffer' = buffer /\
  (hash' = hash \/
   exists k : string,
     hash_inc fuel hash k v = Ok hash' /\
     Z.of_nat (String.length k) <= (selected_range m0 m1).2 /\
     list_ascii_of_string k =
       take (String.length k)
         (drop (Z.to_nat (sequence + (selected_range m0 m1).1)) buffer)).
Proof.
  unfold freq_hash_inc, selected_range. intros H.
  set (range := if negb (rm_so m1 =? rm_eo m1)
                then (rm_so m1, size_wrap (rm_eo m1 - rm_so m1))
                else (rm_so m0, size_wrap (rm_eo m0 - rm_so m0))) in *.
  assert (Hsel : (if negb (rm_so m1 =? rm_eo m1)
                  then (sequence + rm_so m1, size_wrap (rm_eo m1 - rm_so m1))
                  else (sequence + rm_so m0, size_wrap (rm_eo m0 - rm_so m0)))
                 = (sequence + range.1, range.2)).
  { unfold range. by destruct (negb _). }
  rewrite Hsel in H. clear Hsel.
  assert (Hlen : 0 <= range.2).
  { unfold range, size_wrap. destruct (negb _); cbn [snd];
      apply Z.mod_pos_bound; lia. }
  generalize dependent range.
  intros [so len]. cbn [fst snd]. intros H Hlen.
  apply bind_Ok in H as (legal & _ & H).
  destruct legal; cbn [negb] in H; [|injection H as <- <-; auto].
  inv_Ok H. injection H as <- <-.
  apply array_get_Ok in E as [Hpos Hsaved].
  apply array_set_Ok in E0 as (_ & Hlt & ->).
  apply array_set_Ok in E3 as (_ & _ & ->).
  split.
  { rewrite list_insert_insert_eq. by apply list_insert_id. }
  right. exists a1. split; [done|].
  unfold cstring_at in E1. destruct (Z.ltb_spec (sequence + so) 0); [done|].
  apply cstring_of_Ok in E1 as (rest & Hdrop & Hnul).
  replace (Z.to_nat (sequence + so + len))
    with (Z.to_nat (sequence + so) + Z.to_nat len)%nat in * by lia.
  rewrite drop_insert_ge in Hdrop by lia.
  replace (Z.to_nat (sequence + so) + Z.to_nat len - Z.to_nat (sequence + so))%nat
    with (Z.to_nat len) in Hdrop by lia.
  set (D := drop (Z.to_nat (sequence + so)) buffer) in *.
  set (ks := list_ascii_of_string a1) in *.
  assert (Hklen : String.length a1 = length ks).
  { unfold ks. clear. induction a1; cbn; congruence. }
  assert (HD : (Z.to_nat len < length D)%nat).
  { unfold D. rewrite length_drop. lia. }
  assert (Hle : (length ks <= Z.to_nat len)%nat).
  { destruct (Nat.le_gt_cases (length ks) (Z.to_nat len)) as [|Hgt]; [done|].
    exfalso. apply Hnul.
    assert (Hat : (<[Z.to_nat len := NUL]> D) !! Z.to_nat len = Some NUL)
      by (by apply list_lookup_insert_eq).
    rewrite Hdrop, lookup_app_l in Hat by lia.
    by eapply list_elem_of_lookup_2. }
  split; [lia|]. rewrite Hklen.
  apply (f_equal (take (length ks))) in Hdrop.
  rewrite take_app_length, take_insert_ge in Hdrop by lia. done.
Qed.

(** X14.  [freq_hash_inc] hands the buffer back as it got it: the
    terminator written behind the selected range is replaced by the
    character saved.  The hash is unchanged (the range holds an illegal
    character) or has received one [hash_inc], and the key of that is a
    prefix of the selected range (it ends at a [NUL] inside the range if
    there is one). *)
Theorem freq_hash_inc_restores (fuel : nat) (hash hash' : Hash)
    (buffer buffer' : list ascii) (sequence : Z) (v : double)
    (m0 m1 : regmatch_t) :
  freq_hash_inc fuel hash buffer sequence v m0 m1 = Ok (buffer', hash') ->
  buffer' = buffer /\
  (hash' = hash \/
   exists k : string,
     hash_inc fuel hash k v = Ok hash' /\
     Z.of_nat (String.length k) <= (selected_range m0 m1).2 /\
     list_ascii_of_string k =
       take (String.length k)
         (drop (Z.to_nat (sequence + (selected_range m0 m1).1)) buffer)).
Proof. apply freq_hash_inc_Ok. Qed.

(** ** The loop of the scanner *)

Lemma cstring_of_not_OutOfFuel (l : list ascii) : cstring_of l <> OutOfFuel.
Proof.
  induction l as [|c l IH]; cbn; [done|].
  destruct (Ascii.eqb c NUL); [done|].
  apply bind_not_OutOfFuel; done.
Qed.

Section ScanLoop.

Context {regex_t : Type}.
Variable regexec : regex_t -> string -> regexec_result.

(** One iteration, read backwards. *)
Lemma freq_scan_body_Ok
    (fuel : nat) (hash : option Hash) (buffer : list ascii) (compiled : regex_t)
    (overlap : bool) (adj : double) (i matches : Z) (e : scan_exit) :
  freq_scan_body regexec fuel hash buffer compiled overlap adj i matches = Ok e ->
  exists capped s,
    array_set buffer (size_wrap (i + MAX_WORD_LEN)) NUL = Ok capped /\
    cstring_at capped i = Ok s /\
    match regexec compiled s with
    | REG_OK m0 m1 =>
        exists hash',
          e = ScanNext buffer hash' (size_wrap (i + scan_advance overlap m0))
                (matches + 1) /\
          matches + 1 <= INT_MAX /\
          (is_Some hash <-> is_Some hash')
    | REG_ERR ret =>
        e = if ret =? REG_ESPACE then ScanReturn (-4) capped hash
            else ScanBreak capped hash matches
    end.
Proof.
  unfold freq_scan_body. intros H. inv_Ok H.
  exists a0, a1. split; [done|]. split; [done|].
  destruct (regexec compiled a1) as [m0 m1|ret].
  - inv_Ok H. injection H as <-.
    destruct (Z.ltb_spec INT_MAX (matches + 1)); [done|]. injection E3 as <-.
    apply array_get_Ok in E as [_ E].
    apply array_set_Ok in E0 as (_ & _ & ->).
    apply array_set_Ok in E4 as (_ & _ & ->).
    assert (Hsame : forall b, b = <[Z.to_nat (size_wrap (i + MAX_WORD_LEN)) := NUL]> buffer ->
              <[Z.to_nat (size_wrap (i + MAX_WORD_LEN)) := a]> b = buffer).
    { intros b ->. rewrite list_insert_insert_eq. by apply list_insert_id. }
    destruct hash as [h|].
    + inv_Ok E2. injection E2 as <- <-.
      apply freq_hash_inc_Ok in E0 as [-> _].
      exists (Some h0). rewrite Hsame by done.
      split; [by destruct overlap|]. split; [done|]. split; eauto.
    + injection E2 as <- <-. exists None. rewrite Hsame by done.
      split; [by destruct overlap|]. split; [done|].
      split; intros [? [=]].
  - by destruct (ret =? REG_ESPACE); injection H as <-.
Qed.

Lemma freq_scan_loop_buffer
    (fuel : nat) (compiled : regex_t) (overlap : bool) (adj : double)
    (length : Z) (buffer : list ascii) :
  forall (hash hash' : option Hash) (i matches ret : Z) (buffer' : list ascii),
    freq_scan_loop regexec fuel hash buffer length compiled overlap adj i matches
      = Ok (ret, buffer', hash') ->
    0 <= matches <= INT_MAX ->
    (buffer' = buffer \/
     exists j, (j < List.length buffer)%nat /\ buffer' = <[j := NUL]> buffer) /\
    (is_Some hash <-> is_Some hash') /\
    match hash with
    | None => ret = -4 \/ matches <= ret <= INT_MAX
    | Some _ => ret = -4 \/ ret = 0
    end.
Proof.
  induction fuel as [|fuel IH]; intros hash hash' i matches ret buffer' H Hm;
    cbn [freq_scan_loop] in H.
  - destruct (i <? length); [done|]. injection H as <- <- <-.
    split; [by left|]. split; [done|]. destruct hash; cbn; [by right|right; lia].
  - destruct (i <? length).
    2: { injection H as <- <- <-.
         split; [by left|]. split; [done|].
         destruct hash; cbn; [by right|right; lia]. }
    apply bind_Ok in H as (e & Hbody & H).
    apply freq_scan_body_Ok in Hbody as (capped & s & Hcap & _ & He).
    apply array_set_Ok in Hcap as (_ & Hlt & ->).
    destruct (regexec compiled s) as [m0 m1|code].
    + destruct He as (h1 & -> & Hmax & Hh).
      destruct (IH _ _ _ _ _ _ H ltac:(lia)) as (Hb & Hh' & Hret).
      split; [done|]. split; [by rewrite Hh|].
      destruct hash as [h|], h1 as [h1'|].
      * exact Hret.
      * destruct Hh as [Hh _]. destruct Hh as [? [=]]. eauto.
      * destruct Hh as [_ Hh]. destruct Hh as [? [=]]. eauto.
      * destruct Hret; [by left|right; lia].
    + destruct (code =? REG_ESPACE); subst e; injection H as <- <- <-.
      * split; [right; eauto|]. split; [done|]. destruct hash; by left.
      * split; [right; eauto|]. split; [done|].
        destruct hash; cbn; [by right|right; lia].
Qed.

(** X15.  Whatever [freq_scan] returns, the buffer it leaves differs from
    the one it got in at most one byte, which is then [NUL].  A scan without
    hash returns -4 or a count between 0 and [INT_MAX], a scan with a hash
    returns -4 or 0. *)
Theorem freq_scan_touches_one_byte
    (fuel : nat) (hash hash' : option Hash) (buffer buffer' : list ascii)
    (length : Z) (compiled : regex_t) (overlap : bool) (adj : double) (ret : Z) :
  freq_scan regexec fuel hash buffer length compiled overlap adj
    = Ok (ret, buffer', hash') ->
  (buffer' = buffer \/
   exists j, (j < List.length buffer)%nat /\ buffer' = <[j := NUL]> buffer) /\
  (is_Some hash <-> is_Some hash') /\
  match hash with
  | None => ret = -4 \/ 0 <= ret <= INT_MAX
  | Some _ => ret = -4 \/ ret = 0
  end.
Proof.
  intros H. apply freq_scan_loop_buffer in H; [done|]. unfold INT_MAX. lia.
Qed.

(** X16.  A scan without overlap makes no progress on an empty match: when
    the matcher reports a match that ends at offset 0 of the text at [i],
    the loop stays at [i], and [freq_scan] does not return whatever the
    budget (the run can only end in the overflow of [matches]). *)
Theorem freq_scan_empty_match_never_returns
    (buffer capped : list ascii) (length : Z) (compiled : regex_t)
    (adj : double) (i : Z) (s : string) (m0 m1 : regmatch_t) :
  0 <= i < length ->
  i < 2 ^ 64 ->
  array_set buffer (size_wrap (i + MAX_WORD_LEN)) NUL = Ok capped ->
  cstring_at capped i = Ok s ->
  regexec compiled s = REG_OK m0 m1 ->
  rm_eo m0 = 0 ->
  forall (fuel : nat) (hash : option Hash) (matches : Z) r,
    freq_scan_loop regexec fuel hash buffer length compiled false adj i matches
    <> Ok r.
Proof.
  intros Hi Hw Hcap Hs Hre Heo.
  induction fuel as [|fuel IH]; intros hash matches r; cbn [freq_scan_loop];
    destruct (Z.ltb_spec i length) as [_|]; try lia; [done|].
  intros H. apply bind_Ok in H as (e & Hbody & H).
  apply freq_scan_body_Ok in Hbody as (capped' & s' & Hcap' & Hs' & He).
  rewrite Hcap in Hcap'. injection Hcap' as <-.
  rewrite Hs in Hs'. injection Hs' as <-.
  rewrite Hre in He. destruct He as (h1 & -> & _).
  unfold scan_advance in H. rewrite Heo, Z.add_0_r in H.
  unfold size_wrap in H. rewrite Z.mod_small in H by lia.
  by apply IH in H.
Qed.

Lemma freq_scan_body_counting_fuel
    (fuel : nat) (buffer : list ascii) (compiled : regex_t)
    (overlap : bool) (adj : double) (i matches : Z) :
  freq_scan_body regexec fuel None buffer compiled overlap adj i matches
  <> OutOfFuel.
Proof.
  unfold freq_scan_body.
  apply bind_not_OutOfFuel; [apply array_get_not_OutOfFuel|]. intros holder _.
  apply bind_not_OutOfFuel; [apply array_set_not_OutOfFuel|]. intros capped _.
  apply bind_not_OutOfFuel.
  { unfold cstring_at. destruct (i <? 0); [done|]. apply cstring_of_not_OutOfFuel. }
  intros s _. destruct (regexec compiled s) as [m0 m1|ret].
  - cbn [mbind result_bind].
    apply bind_not_OutOfFuel; [by destruct (INT_MAX <? matches + 1)|].
    intros m _. apply bind_not_OutOfFuel; [apply array_set_not_OutOfFuel|]. done.
  - by destruct (ret =? REG_ESPACE).
Qed.

(** X17.  When every match moves the scan by at least one byte, the
    counting pass over [length] bytes ends within [length] iterations. *)
Theorem freq_scan_counting_terminates
    (buffer : list ascii) (length : Z) (compiled : regex_t) (overlap : bool)
    (adj : double) :
  0 <= length < 2 ^ 63 ->
  (forall s m0 m1, regexec compiled s = REG_OK m0 m1 ->
                   1 <= scan_advance overlap m0 <= 2 ^ 62) ->
  forall fuel : nat,
    (Z.to_nat length <= fuel)%nat ->
    freq_scan regexec fuel None buffer length compiled overlap adj <> OutOfFuel.
Proof.
  intros Hlen Hadv fuel Hfuel. unfold freq_scan.
  assert (Hgen : forall (fuel : nat) (hash : option Hash) (i matches : Z),
            hash = None -> 0 <= i -> length - i <= Z.of_nat fuel ->
            freq_scan_loop regexec fuel hash buffer length compiled overlap adj
              i matches <> OutOfFuel).
  { clear fuel Hfuel. induction fuel as [|fuel IH]; intros hash i matches -> Hi Hd;
      cbn [freq_scan_loop]; destruct (Z.ltb_spec i length) as [Hlt|];
      try lia; try done.
    apply bind_not_OutOfFuel; [apply freq_scan_body_counting_fuel|].
    intros e He. apply freq_scan_body_Ok in He as (capped & s & _ & _ & He).
    pose proof (Hadv s) as Hs.
    destruct (regexec compiled s) as [m0 m1|ret].
    - destruct He as (h1 & -> & _ & Hh). specialize (Hs m0 m1 eq_refl).
      unfold size_wrap. rewrite Z.mod_small by lia.
      apply IH; [|lia|lia].
      destruct h1 as [h|]; [|done]. destruct Hh as [_ Hh].
      destruct Hh as [? [=]]. eauto.
    - destruct (ret =? REG_ESPACE); by subst e. }
  apply Hgen; [done|lia|lia].
Qed.

End ScanLoop.

(** ** From one match to the next *)

Section ScanAdvance.

Context {regex_t : Type}.
Variable regexec : regex_t -> string -> regexec_result.

Lemma freq_scan_loop_counts
    (fuel : nat) (buffer : list ascii) (length : Z) (compiled : regex_t)
    (overlap : bool) (adj : double) :
  forall (i matches ret : Z) (buffer' : list ascii) (hash' : option Hash),
    freq_scan_loop regexec fuel None buffer length compiled overlap adj i matches
      = Ok (ret, buffer', hash') ->
    ret = -4 \/
    ret = matches +
          Z.of_nat (List.length
                      (spec_match_offsets regexec fuel buffer length compiled overlap i)).
Proof.
  induction fuel as [|fuel IH]; intros i matches ret buffer' hash' H;
    cbn [freq_scan_loop spec_match_offsets] in *.
  - destruct (i <? length); [done|]. injection H as <- _ _. right. cbn. lia.
  - destruct (i <? length).
    2: { injection H as <- _ _. right. cbn. lia. }
    apply bind_Ok in H as (e & Hbody & H).
    apply freq_scan_body_Ok in Hbody as (capped & s & Hcap & Hs & He).
    unfold scan_window. rewrite Hcap. cbn [mbind result_bind]. rewrite Hs.
    destruct (regexec compiled s) as [m0 m1|code].
    + destruct He as (h1 & -> & _ & Hh).
      assert (h1 = None) as ->.
      { destruct h1 as [h|]; [|done]. destruct Hh as [_ Hh].
        destruct Hh as [? [=]]. eauto. }
      apply IH in H as [Hr|Hr]; subst ret; [by left|right].
      replace (size_wrap (if overlap then i + rm_so m0 + 1 else i + rm_eo m0))
        with (size_wrap (i + scan_advance overlap m0))
        by (unfold scan_advance; destruct overlap; f_equal; lia).
      cbn [List.length]. lia.
    + destruct (code =? REG_ESPACE); subst e; injection H as <- _ _.
      * by left.
      * right. cbn. lia.
Qed.

(** C7.  After a successful match at offset [i] the loop of [freq_scan]
    goes on at [i + matchptr[0].rm_so + 1] in overlap mode and at
    [i + matchptr[0].rm_eo] otherwise, on the same buffer and with one more
    match counted: the rest of the scan is the scan from there.  So the
    number a counting scan returns, when it is not [-4], is the number of
    offsets the advancement rule visits from 0.  [freq_read_file] scans
    without overlap exactly when the pattern text contains [+] or [*], and
    hands that choice to both of its scans. *)
Theorem freq_scan_advance (compiled : regex_t) (overlap : bool)
    (buffer : list ascii) (length : Z) (adj : double) :
  (forall (fuel : nat) (hash : option Hash) (i matches : Z)
          (capped : list ascii) (s : string) (m0 m1 : regmatch_t) (e : scan_exit),
      i < length ->
      array_set buffer (size_wrap (i + MAX_WORD_LEN)) NUL = Ok capped ->
      cstring_at capped i = Ok s ->
      regexec compiled s = REG_OK m0 m1 ->
      freq_scan_body regexec (S fuel) hash buffer compiled overlap adj i matches
        = Ok e ->
      let next := if overlap then size_wrap (i + (rm_so m0 + 1))
                  else size_wrap (i + rm_eo m0) in
      exists hash',
        e = ScanNext buffer hash' next (matches + 1) /\
        freq_scan_loop regexec (S fuel) hash buffer length compiled overlap adj
          i matches
        = freq_scan_loop regexec fuel hash' buffer length compiled overlap adj
            next (matches + 1)) /\
  (forall (fuel : nat) (count : Z) (buffer' : list ascii) (hash' : option Hash),
      freq_scan regexec fuel None buffer length compiled overlap adj
        = Ok (count, buffer', hash') ->
      count = -4 \/
      count = Z.of_nat (List.length
                (spec_match_offsets regexec fuel buffer length compiled overlap 0))) /\
  (forall regex : string,
      select_overlap regex = false <->
      "+"%char ∈ list_ascii_of_string regex \/
      "*"%char ∈ list_ascii_of_string regex) /\
  (forall regcomp read_file fuel h filename regex multiplier buf len,
      regcomp regex = Some compiled ->
      read_file filename = Some (buf, len) ->
      freq_read_file regcomp regexec read_file fuel h filename regex
        multiplier =
      (buf ← filter_chars buf;
       '(count, buf, _) ←
         freq_scan regexec fuel None buf len compiled
           (negb (strchr regex "+" || strchr regex "*")) (double_of_int 1);
       '(_, _, h') ←
         freq_scan regexec fuel (Some h) buf len compiled
           (negb (strchr regex "+" || strchr regex "*"))
           (adjusted_multiplier_of multiplier count);
       Ok (0, default h h'))).
Proof.
  split; [|split; [|split]].
  - intros fuel hash i matches capped s m0 m1 e Hi Hcap Hs Hre Hbody next.
    pose proof Hbody as Hbody'.
    apply freq_scan_body_Ok in Hbody' as (capped' & s' & Hcap' & Hs' & He).
    rewrite Hcap in Hcap'. injection Hcap' as <-.
    rewrite Hs in Hs'. injection Hs' as <-.
    rewrite Hre in He. destruct He as (hash' & -> & _ & _).
    exists hash'.
    assert (size_wrap (i + scan_advance overlap m0) = next) as Hnext
      by (unfold next, scan_advance; by destruct overlap).
    rewrite Hnext in *. split; [done|].
    cbn [freq_scan_loop]. destruct (Z.ltb_spec i length); [|lia].
    by rewrite Hbody.
  - intros fuel count buffer' hash' H. unfold freq_scan in H.
    apply freq_scan_loop_counts in H. by rewrite Z.add_0_l in H.
  - intros regex. unfold select_overlap, strchr.
    assert (Hex : forall c l, existsb (Ascii.eqb c) l = true <-> c ∈ l).
    { intros c l. rewrite existsb_exists, list_elem_of_In. split.
      - intros (x & Hin & Heq). apply Ascii.eqb_eq in Heq. by subst.
      - intros Hin. exists c. split; [done|]. apply Ascii.eqb_refl. }
    rewrite <- !Hex.
    destruct (existsb (Ascii.eqb "+"%char) _), (existsb (Ascii.eqb "*"%char) _);
      cbn; intuition congruence.
  - intros regcomp read_file fuel' h filename regex multiplier buf len Hc Hr.
    unfold freq_read_file, select_overlap. rewrite Hc, Hr.
    destruct (strchr regex "+" || strchr regex "*"); reflexivity.
Qed.

End ScanAdvance.

(** The pattern [aa] on the text [zaaa] followed by 1100 times [z], in a
    block of 4096 bytes.  The first match is found one byte after offset 0
    and ends at 3.  With overlap the scan goes on at offset 2, finds [aa]
    again, and returns 2; without, it goes on at offset 3, where nothing
    matches, and returns 1.  [freq_read_file] scans for [aa] with overlap
    and gives the key two halves; it would scan for [a+] without. *)
Lemma freq_scan_advance_witness :
  let buffer := (file_block zaaa_text).1 in
  let adj := double_of_int 1 in
  (freq_scan_loop regexec_literal 3 None buffer 1104 "aa"%string true adj 0 0
   = freq_scan_loop regexec_literal 2 None buffer 1104 "aa"%string true adj 2 1 /\
   freq_scan regexec_literal 3 None buffer 1104 "aa"%string true adj
   = Ok (2, <[1003%nat := NUL]> buffer, None) /\
   spec_match_offsets regexec_literal 3 buffer 1104 "aa"%string true 0 = [0; 2] /\
   2 = Z.of_nat (List.length
         (spec_match_offsets regexec_literal 3 buffer 1104 "aa"%string true 0))) /\
  (freq_scan_loop regexec_literal 3 None buffer 1104 "aa"%string false adj 0 0
   = freq_scan_loop regexec_literal 2 None buffer 1104 "aa"%string false adj 3 1 /\
   freq_scan regexec_literal 3 None buffer 1104 "aa"%string false adj
   = Ok (1, <[1003%nat := NUL]> buffer, None) /\
   spec_match_offsets regexec_literal 3 buffer 1104 "aa"%string false 0 = [0] /\
   1 = Z.of_nat (List.length
         (spec_match_offsets regexec_literal 3 buffer 1104 "aa"%string false 0))) /\
  select_overlap "a+" = false /\
  (r ← freq_read_file regcomp_literal regexec_literal (one_file zaaa_text) 3
         hash_init "f" "aa" 1;
   Ok (r.1, hash_items r.2))
  = Ok (0, [("aa"%string, double_of_int 1)]).
Proof.
  intros buffer adj.
  assert (Hstep : forall overlap : bool,
    freq_scan_loop regexec_literal 3 None buffer 1104 "aa"%string overlap adj 0 0
    = freq_scan_loop regexec_literal 2 None buffer 1104 "aa"%string overlap adj
        (if overlap then size_wrap (0 + (1 + 1)) else size_wrap (0 + 3)) (0 + 1)).
  { intros overlap.
    destruct (freq_scan_advance regexec_literal "aa"%string overlap buffer
                1104 adj) as (Hstep & _).
    destruct (freq_scan_body regexec_literal 3 None buffer "aa"%string overlap
                adj 0 0) as [e| |] eqn:Hbody;
      [|destruct overlap; vm_compute in Hbody; discriminate..].
    destruct (Hstep 2%nat None 0 0 (<[1000%nat := NUL]> buffer)
                (string_of_list_ascii (take 1000 zaaa_text))
                (mkMatch 1 3) (mkMatch (-1) (-1)) e) as (hash' & He & Hloop).
    - lia.
    - vm_compute. reflexivity.
    - vm_compute. reflexivity.
    - vm_compute. reflexivity.
    - exact Hbody.
    - rewrite He in Hbody.
      assert (hash' = None) as ->.
      { destruct overlap; vm_compute in Hbody; by injection Hbody as <-. }
      exact Hloop. }
  assert (Hcount : forall (overlap : bool) (count : Z) (b : list ascii),
    freq_scan regexec_literal 3 None buffer 1104 "aa"%string overlap adj
    = Ok (count, b, None) ->
    count <> -4 ->
    count = Z.of_nat (List.length
              (spec_match_offsets regexec_literal 3 buffer 1104 "aa"%string overlap 0))).
  { intros overlap count b H Hne.
    destruct (freq_scan_advance regexec_literal "aa"%string overlap buffer
                1104 adj) as (_ & Hcount & _).
    by destruct (Hcount 3%nat count b None H). }
  assert (Hrun : forall overlap : bool,
    freq_scan regexec_literal 3 None buffer 1104 "aa"%string overlap adj
    = Ok (if overlap then 2 else 1, <[1003%nat := NUL]> buffer, None))
    by (intros [|]; vm_compute; reflexivity).
  destruct (freq_scan_advance regexec_literal "aa"%string true buffer 1104 adj)
    as (_ & _ & Hmode & Hfile).
  split; [|split; [|split]].
  - split; [exact (Hstep true)|]. split; [exact (Hrun true)|].
    split; [vm_compute; reflexivity|].
    apply (Hcount true 2 _ (Hrun true)). discriminate.
  - split; [exact (Hstep false)|]. split; [exact (Hrun false)|].
    split; [vm_compute; reflexivity|].
    apply (Hcount false 1 _ (Hrun false)). discriminate.
  - apply Hmode. left. apply list_elem_of_further, list_elem_of_here.
  - rewrite (Hfile regcomp_literal (one_file zaaa_text) 3%nat hash_init
               "f"%string "aa"%string 1 (file_block zaaa_text).1
               (file_block zaaa_text).2 eq_refl eq_refl).
    vm_compute. reflexivity.
Defined.

(** ** A file without a match *)

Section ZeroCount.

Context {regex_t : Type}.
Variable regcomp : string -> option regex_t.
Variable regexec : regex_t -> string -> regexec_result.
Variable read_file : string -> option (list ascii * Z).



End ZeroCount.


(** ** Several files *)

Section FilesFacts.

Context {regex_t : Type}.
Variable regcomp : string -> option regex_t.
Variable regexec : regex_t -> string -> regexec_result.
Variable read_file : string -> option (list ascii * Z).

Lemma freq_read_file_Ok (fuel : nat) (hash hash' : Hash)
    (filename regex : string) (multiplier ret : Z) :
  freq_read_file regcomp regexec read_file fuel hash filename regex multiplier
    = Ok (ret, hash') ->
  (regcomp regex = None /\ ret = -2 /\ hash' = hash) \/
  (regcomp regex <> None /\ read_file filename = None /\ ret = -1 /\ hash' = hash) \/
  (regcomp regex <> None /\ read_file filename <> None /\ ret = 0).
Proof.
  unfold freq_read_file. intros H.
  destruct (regcomp regex) as [compiled|]; [|injection H as <- <-; auto].
  right. destruct (read_file filename) as [[buffer len]|];
    [|injection H as <- <-; auto].
  right. inv_Ok H. injection H as <- _. done.
Qed.

Lemma read_files_loop_codes (fuel : nat) (regex : string)
    (names : list string) (muls : list Z) (n : nat) :
  forall (i : nat) (hash hash' : Hash) (ret : Z),
    read_files_loop
      (fun hash name mul =>
         freq_read_file regcomp regexec read_file fuel hash name regex mul)
      names muls (Z.of_nat i) n hash = Ok (ret, hash') ->
    (ret = 0 /\ (n <> O -> regcomp regex <> None) /\
     forall name, name ∈ take n (drop i names) -> read_file name <> None) \/
    (ret = -1 /\ regcomp regex <> None /\
     exists name, name ∈ take n (drop i names) /\ read_file name = None) \/
    (ret = -2 /\ regcomp regex = None /\ hash' = hash).
Proof.
  induction n as [|n IH]; intros i hash hash' ret H; cbn [read_files_loop] in H.
  - injection H as <- <-. left. split; [done|]. split; [done|].
    intros name Hin. rewrite take_0 in Hin. by apply elem_of_nil in Hin.
  - inv_Ok H. apply array_get_Ok in E as [_ E]. rewrite Nat2Z.id in E.
    rewrite (drop_S _ _ _ E). cbn [take].
    apply freq_read_file_Ok in E1
      as [(Hc & -> & ->)|[(Hc & Hr & -> & ->)|(Hc & Hr & ->)]]; cbn in H.
    + injection H as <- <-. auto.
    + injection H as <- <-. right. left. split; [done|]. split; [done|].
      exists a. split; [apply list_elem_of_here|done].
    + replace (Z.of_nat i + 1) with (Z.of_nat (S i)) in H by lia.
      apply IH in H as [(-> & _ & Hall)|[(-> & _ & name & Hin & Hnone)|(-> & Hc' & _)]].
      * left. split; [done|]. split; [done|].
        intros name [->|Hin]%elem_of_cons; auto.
      * right. left. split; [done|]. split; [done|].
        exists name. split; [by apply list_elem_of_further|done].
      * done.
Qed.

(** X18.  [freq_read_files] returns 0, -1 or -2: 0 when the expression
    compiles and every file of [files] can be read, -1 when a file cannot
    be read, and -2 when the expression does not compile, in which case the
    hash is untouched. *)
Theorem freq_read_files_codes (fuel : nat) (hash hash' : Hash) (regex : string)
    (ret : Z) :
  freq_read_files regcomp regexec read_file fuel hash regex = Ok (ret, hash') ->
  (ret = 0 /\ regcomp regex <> None /\
   forall name, name ∈ files -> read_file name <> None) \/
  (ret = -1 /\ regcomp regex <> None /\
   exists name, name ∈ files /\ read_file name = None) \/
  (ret = -2 /\ regcomp regex = None /\ hash' = hash).
Proof.
  unfold freq_read_files. intros H.
  apply (read_files_loop_codes fuel regex files multipliers (length files) O) in H.
  rewrite drop_0, firstn_all in H.
  destruct H as [(-> & Hc & Hall)|[?|?]]; [left|by right; left|by right; right].
  split; [done|]. split; [by apply Hc|done].
Qed.

Lemma find_n_words_for_file_Ok (fuel : nat) (hash hash' : Hash)
    (filename : string) (wordcount multiplier ret : Z) :
  find_n_words_for_file read_file fuel hash filename wordcount multiplier
    = Ok (ret, hash') ->
  (read_file filename = None /\ ret = -1 /\ hash' = hash) \/
  (read_file filename <> None /\ ret = 0).
Proof.
  unfold find_n_words_for_file. intros H.
  destruct (read_file filename) as [[buffer len]|];
    [|injection H as <- <-; auto].
  right. inv_Ok H. injection H as <- _. done.
Qed.

Lemma find_n_words_loop_codes (fuel : nat) (wordcount : Z)
    (names : list string) (muls : list Z) (n : nat) :
  forall (i : nat) (hash hash' : Hash) (ret : Z),
    read_files_loop
      (fun hash name mul =>
         find_n_words_for_file read_file fuel hash name wordcount mul)
      names muls (Z.of_nat i) n hash = Ok (ret, hash') ->
    (ret = 0 /\
     forall name, name ∈ take n (drop i names) -> read_file name <> None) \/
    (ret = -1 /\
     exists j name, (j < n)%nat /\ names !! (i + j)%nat = Some name /\
       read_file name = None /\
       forall j' name', (j' < j)%nat -> names !! (i + j')%nat = Some name' ->
                        read_file name' <> None).
Proof.
  induction n as [|n IH]; intros i hash hash' ret H; cbn [read_files_loop] in H.
  - injection H as <- <-. left. split; [done|].
    intros name Hin. rewrite take_0 in Hin. by apply elem_of_nil in Hin.
  - inv_Ok H. apply array_get_Ok in E as [_ E]. rewrite Nat2Z.id in E.
    rewrite (drop_S _ _ _ E). cbn [take].
    apply find_n_words_for_file_Ok in E1 as [(Hr & -> & ->)|(Hr & ->)]; cbn in H.
    + injection H as <- <-. right. split; [done|].
      exists O, a. rewrite Nat.add_0_r. split; [lia|]. split; [done|].
      split; [done|]. intros j' name' Hj'. lia.
    + replace (Z.of_nat i + 1) with (Z.of_nat (S i)) in H by lia.
      apply IH in H as [(-> & Hall)|(-> & j & name & Hj & Hname & Hnone & Hbefore)].
      * left. split; [done|]. intros name [->|Hin]%elem_of_cons; auto.
      * right. split; [done|]. exists (S j), name.
        replace (i + S j)%nat with (S i + j)%nat by lia.
        split; [lia|]. split; [done|]. split; [done|].
        intros [|j'] name' Hj' Hname'.
        -- rewrite Nat.add_0_r in Hname'. congruence.
        -- apply (Hbefore j' name'); [lia|].
           by replace (S i + j')%nat with (i + S j')%nat by lia.
Qed.

(** X19.  [find_n_words] returns 0 when every file of [files_no_prog] can
    be read, and -1 at the first one that cannot, after all the files
    before it have been read. *)
Theorem find_n_words_codes (fuel : nat) (hash hash' : Hash) (wordcount ret : Z) :
  find_n_words read_file fuel hash wordcount = Ok (ret, hash') ->
  (ret = 0 /\ forall name, name ∈ files_no_prog -> read_file name <> None) \/
  (ret = -1 /\
   exists j name, files_no_prog !! j = Some name /\ read_file name = None /\
     forall j' name', (j' < j)%nat -> files_no_prog !! j' = Some name' ->
                      read_file name' <> None).
Proof.
  unfold find_n_words. intros H.
  apply (find_n_words_loop_codes fuel wordcount files_no_prog muls_no_prog
           (length files_no_prog) O) in H.
  rewrite drop_0, firstn_all in H.
  destruct H as [?|(-> & j & name & _ & Hname & Hnone & Hbefore)]; [by left|].
  right. split; [done|]. exists j, name. done.
Qed.

End FilesFacts.

(** ** The loops of the n-gram extractor *)

Lemma rest_of_nil (buffer : list ascii) (length i : Z) :
  length <= i -> rest_of buffer length i = [].
Proof.
  intros H. unfold rest_of. replace (Z.to_nat (length - i)) with O by lia. done.
Qed.

Lemma rest_of_cons (buffer : list ascii) (length i : Z) :
  0 <= i < length -> length <= Z.of_nat (List.length buffer) ->
  exists c, buffer !! Z.to_nat i = Some c /\
            rest_of buffer length i = c :: rest_of buffer length (i + 1).
Proof.
  intros Hi Hlen.
  destruct (lookup_lt_is_Some_2 buffer (Z.to_nat i) ltac:(lia)) as [c Hc].
  exists c. split; [done|]. unfold rest_of.
  rewrite (drop_S _ _ _ Hc).
  replace (Z.to_nat (length - i)) with (S (Z.to_nat (length - (i + 1)))) by lia.
  replace (Z.to_nat (i + 1)) with (S (Z.to_nat i)) by lia. done.
Qed.

(** X20.  The loop that skips separators stops at the first alphanumeric
    character at or after [i], or at [length]. *)
Theorem skip_separators_run (fuel : nat) (buffer : list ascii) (length i : Z) :
  0 <= i ->
  length <= Z.of_nat (List.length buffer) ->
  length < 2 ^ 64 ->
  (run_length separator_char (rest_of buffer length i) <= fuel)%nat ->
  skip_separators fuel buffer length i
  = Ok (i + Z.of_nat (run_length separator_char (rest_of buffer length i))).
Proof.
  intros Hi Hlen Hmax. revert i Hi.
  induction fuel as [|fuel IH]; intros i Hi Hfuel.
  - cbn [skip_separators]. destruct (Z.ltb_spec i length) as [Hlt|Hge].
    + destruct (rest_of_cons buffer length i) as (c & Hc & Hrest); [lia|lia|].
      rewrite Hrest in Hfuel |- *. cbn [run_length] in *.
      unfold array_get. destruct (Z.ltb_spec i 0); [lia|]. rewrite Hc.
      cbn [mbind result_bind]. unfold separator_char in *.
      destruct (negb (isalnum c)); [lia|]. f_equal. lia.
    + rewrite rest_of_nil by lia. cbn. f_equal. lia.
  - cbn [skip_separators]. destruct (Z.ltb_spec i length) as [Hlt|Hge].
    + destruct (rest_of_cons buffer length i) as (c & Hc & Hrest); [lia|lia|].
      rewrite Hrest in Hfuel |- *. cbn [run_length] in *.
      unfold array_get. destruct (Z.ltb_spec i 0); [lia|]. rewrite Hc.
      cbn [mbind result_bind]. unfold separator_char in *.
      destruct (negb (isalnum c)); [|f_equal; lia].
      unfold size_wrap. rewrite Z.mod_small by lia.
      rewrite IH by lia. f_equal. lia.
    + rewrite rest_of_nil by lia. cbn. f_equal. lia.
Qed.

(** X21.  The loop that copies a word takes the longest run of letters,
    digits and apostrophes from [i] on and stores it in [words] from [j]
    on, with no test of the room there: when the run does not fit, the copy
    is undefined. *)
Theorem copy_word_run (fuel : nat) (buffer : list ascii) (length : Z)
    (words : list ascii) (i j : Z) :
  0 <= i ->
  length <= Z.of_nat (List.length buffer) ->
  length < 2 ^ 64 ->
  0 <= j <= Z.of_nat (List.length words) ->
  Z.of_nat (List.length words) < 2 ^ 64 ->
  let r := run_length word_char (rest_of buffer length i) in
  (r <= fuel)%nat ->
  copy_word fuel buffer length words i j =
  if j + Z.of_nat r <=? Z.of_nat (List.length words)
  then Ok (take (Z.to_nat j) words ++ take r (rest_of buffer length i)
             ++ drop (Z.to_nat j + r) words,
           i + Z.of_nat r, j + Z.of_nat r)
  else UB.
Proof.
  intros Hi Hlen Hmax Hj Hwmax. cbv zeta.
  assert (Hzero : forall (words : list ascii) (i j : Z) (l : list ascii),
    0 <= j <= Z.of_nat (List.length words) ->
    Ok (words, i, j) =
    if j + Z.of_nat 0 <=? Z.of_nat (List.length words)
    then Ok (take (Z.to_nat j) words ++ take 0 l ++ drop (Z.to_nat j + 0) words,
             i + Z.of_nat 0, j + Z.of_nat 0)
    else UB).
  { intros ws i' j' l Hj'. change (Z.of_nat 0) with 0.
    rewrite !Z.add_0_r, Nat.add_0_r.
    destruct (Z.leb_spec j' (Z.of_nat (List.length ws))); [|lia].
    by rewrite take_0, app_nil_l, take_drop. }
  revert words i j Hi Hj Hwmax.
  induction fuel as [|fuel IH]; intros words i j Hi Hj Hwmax Hfuel;
    cbn [copy_word]; destruct (Z.ltb_spec i length) as [Hlt|Hge].
  - destruct (rest_of_cons buffer length i) as (c & Hc & Hrest); [lia|lia|].
    rewrite Hrest in Hfuel |- *. cbn [run_length] in *.
    unfold array_get. destruct (Z.ltb_spec i 0) as [|_]; [lia|]. rewrite Hc.
    cbn [mbind result_bind].
    change (isalnum c || Ascii.eqb c "'") with (word_char c).
    destruct (word_char c); [lia|]. by apply Hzero.
  - rewrite rest_of_nil by lia. cbn [run_length]. by apply Hzero.
  - destruct (rest_of_cons buffer length i) as (c & Hc & Hrest); [lia|lia|].
    rewrite Hrest in Hfuel |- *. cbn [run_length] in *.
    unfold array_get. destruct (Z.ltb_spec i 0) as [|_]; [lia|]. rewrite Hc.
    cbn [mbind result_bind].
    change (isalnum c || Ascii.eqb c "'") with (word_char c).
    destruct (word_char c); [|by apply Hzero].
    set (r := run_length word_char (rest_of buffer length (i + 1))) in *.
    unfold array_set. destruct (Z.ltb_spec j 0) as [|_]; [lia|].
    destruct (words !! Z.to_nat j) as [w|] eqn:Hw.
    + apply lookup_lt_Some in Hw. cbn [mbind result_bind].
      unfold size_wrap. rewrite !Z.mod_small by lia.
      rewrite IH; rewrite ?length_insert; try lia. fold r.
      destruct (Z.leb_spec (j + 1 + Z.of_nat r) (Z.of_nat (List.length words)));
        destruct (Z.leb_spec (j + Z.of_nat (S r)) (Z.of_nat (List.length words)));
        try lia; [|done].
      cbn [take]. f_equal. f_equal; [f_equal|lia]; [|lia].
      replace (Z.to_nat (j + 1)) with (S (Z.to_nat j)) by lia.
      rewrite (take_S_r _ _ c) by (by apply list_lookup_insert_eq).
      rewrite take_insert_ge by lia. rewrite <- app_assoc. cbn [app].
      do 3 f_equal. rewrite drop_insert_lt by lia. f_equal. lia.
    + apply lookup_ge_None_1 in Hw. cbn [mbind result_bind].
      destruct (Z.leb_spec (j + Z.of_nat (S r)) (Z.of_nat (List.length words)));
        [lia|done].
  - rewrite rest_of_nil by lia. cbn [run_length]. by apply Hzero.
Qed.

(** ** Printing *)

Lemma append_String (c : ascii) (s1 s2 : string) :
  (String c s1 +:+ s2 = String c (s1 +:+ s2))%string.
Proof. reflexivity. Qed.

Lemma append_EmptyString (s : string) : (EmptyString +:+ s = s)%string.
Proof. reflexivity. Qed.

Lemma unescape_print_sequence (s : string) :
  unescape (print_sequence s true) = s.
Proof.
  induction s as [|c s IH]; [done|].
  cbn [print_sequence]. unfold print_char.
  destruct (Ascii.eqb_spec c "010") as [->|H1];
    [rewrite !append_String, append_EmptyString; cbn; by rewrite IH|].
  destruct (Ascii.eqb_spec c "009") as [->|H2];
    [rewrite !append_String, append_EmptyString; cbn; by rewrite IH|].
  destruct (Ascii.eqb_spec c ASCII_SHIFT) as [->|H3];
    [rewrite !append_String, append_EmptyString; cbn; by rewrite IH|].
  destruct (Ascii.eqb_spec c "008") as [->|H4];
    [rewrite !append_String, append_EmptyString; cbn; by rewrite IH|].
  destruct (Ascii.eqb_spec c "\") as [->|H5];
    [rewrite !append_String, append_EmptyString; cbn; by rewrite IH|].
  rewrite append_String, append_EmptyString. cbn [unescape].
  destruct (Ascii.eqb_spec c "\"); [done|].
  by rewrite IH.
Qed.

(** X22.  With [ctrl_to_escape] the text [print_sequence] writes
    determines the sequence: [unescape] recovers it.  Without, a newline
    and a backslash followed by [n] are written alike. *)
Theorem print_sequence_injective :
  (forall s, unescape (print_sequence s true) = s) /\
  (forall s1 s2, print_sequence s1 true = print_sequence s2 true -> s1 = s2) /\
  (forall s, print_sequence (String "010" s) false
             = print_sequence (String "\" (String "n" s)) false).
Proof.
  split; [exact unescape_print_sequence|]. split.
  - intros s1 s2 H. apply (f_equal unescape) in H.
    by rewrite !unescape_print_sequence in H.
  - done.
Qed.

(** ** Reading a file *)

Lemma block_size_enough (fuel : nat) (t n : Z) :
  n <= t -> block_size fuel t n = t.
Proof. intros H. destruct fuel; cbn; [done|]. by destruct (Z.leb_spec n t); [|lia]. Qed.

Lemma read_file_loop_spec (junk : ascii) (content : list ascii) :
  forall (acc : list ascii) (tmp : Z) (fuel : nat),
    0 < tmp ->
    Z.of_nat (length acc) <= tmp ->
    Z.of_nat (length acc + length (chars_before_eof content)) < 2 ^ 60 ->
    Z.of_nat (length acc + length (chars_before_eof content)) <= tmp * 4 ^ Z.of_nat fuel ->
    let n := Z.of_nat (length acc + length (chars_before_eof content)) in
    let T := block_size fuel tmp n in
    read_file_loop junk content
      (acc ++ replicate (Z.to_nat tmp - length acc) junk)
      (Z.of_nat (length acc)) tmp
    = Ok (acc ++ chars_before_eof content ++ replicate (Z.to_nat (T - n)) junk, n).
Proof.
  induction content as [|c content IH]; intros acc tmp fuel;
    cbn [read_file_loop chars_before_eof]; [|destruct (Z.eqb_spec (char_val c) (-1))];
    intros Htmp Hacc Hbig Hfuel.
  - cbn [length app] in *. rewrite Nat.add_0_r in *.
    rewrite block_size_enough by lia. do 4 f_equal. lia.
  - cbn [length app] in *. rewrite Nat.add_0_r in *.
    rewrite block_size_enough by lia. do 4 f_equal. lia.
  - cbn [length] in *.
    assert (Hstep : forall (tmp' : Z) (fuel' : nat),
      0 < tmp' -> Z.of_nat (length acc) < tmp' ->
      Z.of_nat (length acc + S (length (chars_before_eof content)))
        <= tmp' * 4 ^ Z.of_nat fuel' ->
      (buffer ← array_set (acc ++ replicate (Z.to_nat tmp' - length acc) junk)
                  (Z.of_nat (length acc)) c;
       read_file_loop junk content buffer (size_wrap (Z.of_nat (length acc) + 1)) tmp')
      = Ok (acc ++ (c :: chars_before_eof content) ++
              replicate (Z.to_nat
                (block_size fuel' tmp'
                   (Z.of_nat (length acc + S (length (chars_before_eof content))))
                 - Z.of_nat (length acc + S (length (chars_before_eof content)))))
                junk,
            Z.of_nat (length acc + S (length (chars_before_eof content))))).
    { intros tmp' fuel' Htmp' Hlt Hfuel'.
      rewrite array_set_lookup
        by (rewrite length_app, length_replicate; lia).
      cbn [mbind result_bind].
      rewrite insert_app_r_alt, Nat.sub_diag by lia.
      destruct (Z.to_nat tmp' - length acc)%nat as [|r] eqn:Hr; [lia|].
      change (<[0%nat := c]> (replicate (S r) junk)) with (c :: replicate r junk).
      assert (size_wrap (Z.of_nat (length acc) + 1)
              = Z.of_nat (length (acc ++ [c]))) as ->.
      { unfold size_wrap. rewrite Z.mod_small, length_app by lia. cbn. lia. }
      replace (acc ++ c :: replicate r junk)
        with ((acc ++ [c]) ++ replicate (Z.to_nat tmp' - length (acc ++ [c])) junk).
      2: { rewrite <- app_assoc, length_app. cbn. do 3 f_equal. lia. }
      rewrite (IH (acc ++ [c]) tmp' fuel'); rewrite ?length_app; cbn [length];
        try lia.
      rewrite <- app_assoc. cbn.
      replace (length acc + 1 + length (chars_before_eof content))%nat
        with (length acc + S (length (chars_before_eof content)))%nat by lia.
      done. }
    destruct (Z.eqb_spec (Z.of_nat (length acc)) tmp) as [Heq|Hne].
    + destruct fuel as [|fuel].
      { exfalso. change (4 ^ Z.of_nat 0) with 1 in Hfuel. lia. }
      assert (Hwrap : size_wrap (tmp * 4) = 4 * tmp).
      { unfold size_wrap. rewrite Z.mod_small; lia. }
      rewrite Hwrap.
      assert (Hre : hash_realloc junk
                      (acc ++ replicate (Z.to_nat tmp - length acc) junk) 1 (4 * tmp)
                    = acc ++ replicate (Z.to_nat (4 * tmp) - length acc) junk).
      { unfold hash_realloc, size_wrap. rewrite Z.mul_1_l, Z.div_1_r.
        rewrite Z.mod_small by lia.
        replace (Z.to_nat tmp - length acc)%nat with O by lia.
        cbn [replicate]. rewrite app_nil_r, take_ge by lia. done. }
      rewrite Hre, (Hstep (4 * tmp) fuel); try lia.
      * cbn [block_size]. destruct (Z.leb_spec
           (Z.of_nat (length acc + S (length (chars_before_eof content)))) tmp);
           [lia|done].
      * rewrite Nat2Z.inj_succ, Z.pow_succ_r in Hfuel by lia. lia.
    + rewrite (Hstep tmp fuel); try lia. done.
Qed.

Lemma block_size_ge (fuel : nat) (t n : Z) :
  0 < t -> n <= t * 4 ^ Z.of_nat fuel -> n <= block_size fuel t n.
Proof.
  revert t. induction fuel as [|fuel IH]; intros t Ht Hn.
  - cbn. change (4 ^ Z.of_nat 0) with 1 in Hn. lia.
  - cbn [block_size]. destruct (Z.leb_spec n t); [done|].
    apply IH; [lia|]. rewrite Nat2Z.inj_succ, Z.pow_succ_r in Hn by lia. lia.
Qed.

(** X24.  [read_file] takes the characters before the first one that
    equals [EOF] as a [char], puts them into a block of 256 bytes that is
    quadrupled as often as needed, and terminates them; when their number
    is exactly the size of the block the terminator is written behind it.
    [file_block] is what [read_file] hands back when fresh storage is
    zero. *)
Theorem read_file_block (fopen_read : string -> option (list ascii))
    (junk : ascii) (filename : string) (content : list ascii) :
  fopen_read filename = Some content ->
  Z.of_nat (length (chars_before_eof content)) < 2 ^ 60 ->
  let chars := chars_before_eof content in
  let n := Z.of_nat (length chars) in
  let T := block_size 30 256 n in
  n <= T /\
  (n = T -> read_file fopen_read junk filename = UB) /\
  (n < T ->
   read_file fopen_read junk filename
   = Ok (Some (chars ++ NUL :: replicate (Z.to_nat (T - n - 1)) junk, n))) /\
  (n < T -> junk = NUL -> chars = content ->
   read_file fopen_read junk filename = Ok (Some (file_block content))).
Proof.
  intros Hopen Hbig chars n T.
  assert (H430 : 256 * 4 ^ Z.of_nat 30 = 2 ^ 68) by reflexivity.
  pose proof (read_file_loop_spec junk content [] 256 30 ltac:(lia) ltac:(cbn; lia))
    as Hloop.
  cbn [length app Nat.add] in Hloop. change (Z.of_nat 0) with 0 in Hloop.
  rewrite Nat.sub_0_r in Hloop. fold chars n T in Hloop.
  assert (HT : n <= T).
  { apply block_size_ge; [lia|]. rewrite H430. unfold n, chars. lia. }
  assert (Hn60 : n < 2 ^ 60) by (unfold n, chars; lia).
  assert (HTdef : T = block_size 30 256 n) by done.
  assert (Hndef : n = Z.of_nat (length chars)) by done.
  clearbody T. clearbody n.
  specialize (Hloop Hn60). rewrite H430 in Hloop.
  specialize (Hloop ltac:(lia)).
  assert (Hread : read_file fopen_read junk filename =
            (buffer ← array_set (chars ++ replicate (Z.to_nat (T - n)) junk) n NUL;
             Ok (Some (buffer, n)))).
  { unfold read_file. rewrite Hopen.
    change (Z.to_nat 256) with 256%nat in Hloop. rewrite Hloop. done. }
  split; [done|]. rewrite Hread. clear Hread Hloop.
  assert (Hlt : n < T -> array_set (chars ++ replicate (Z.to_nat (T - n)) junk) n NUL
            = Ok (chars ++ NUL :: replicate (Z.to_nat (T - n - 1)) junk)).
  { intros Hn. rewrite Hndef at 2.
    rewrite array_set_lookup by (rewrite length_app, length_replicate; lia).
    rewrite insert_app_r_alt, Nat.sub_diag by lia.
    replace (Z.to_nat (T - n)) with (S (Z.to_nat (T - n - 1))) by lia. done. }
  split; [|split].
  - intros Hn. unfold array_set. destruct (Z.ltb_spec n 0); [done|].
    rewrite lookup_ge_None_2; [done|].
    rewrite length_app, length_replicate. lia.
  - intros Hn. by rewrite Hlt.
  - intros Hn -> Hc. rewrite Hlt by done. cbn [mbind result_bind].
    unfold file_block. rewrite <- Hc, <- Hndef, <- HTdef. do 3 f_equal.
    replace (Z.to_nat T - length chars)%nat with (S (Z.to_nat (T - n - 1))) by lia.
    done.
Qed.

(** ** Printing the pairs *)

Lemma count_newlines_app (s1 s2 : string) :
  count_newlines (s1 +:+ s2) = (count_newlines s1 + count_newlines s2)%nat.
Proof.
  induction s1 as [|c s1 IH]; [done|].
  change (String c s1 +:+ s2) with (String c (s1 +:+ s2)).
  cbn [count_newlines]. rewrite IH. lia.
Qed.

Lemma print_sequence_no_newline (s : string) :
  count_newlines (print_sequence s true) = O.
Proof.
  induction s as [|c s IH]; [done|].
  cbn [print_sequence]. rewrite count_newlines_app, IH, Nat.add_0_r.
  unfold print_char.
  destruct (Ascii.eqb_spec c "010") as [->|H1]; [done|].
  destruct (Ascii.eqb c "009"); [done|].
  destruct (Ascii.eqb c ASCII_SHIFT); [done|].
  destruct (Ascii.eqb c "008"); [done|].
  destruct (Ascii.eqb c "\"); [done|].
  cbn. unfold newline. by destruct (Ascii.eqb_spec c "010").
Qed.

Lemma print_long_no_newline (z : Z) : count_newlines (print_long z) = O.
Proof.
  unfold print_long.
  assert (Hu : forall d, count_newlines (NilEmpty.string_of_uint d) = O).
  { induction d; cbn; done. }
  assert (Hz : forall d, count_newlines (NilZero.string_of_uint d) = O).
  { intros d. destruct d; cbn; try done; apply Hu. }
  destruct (Z.to_int z); cbn; by rewrite ?Hz.
Qed.

(** X23.  [print_pairs] writes one line for each pair and an empty line:
    the text has [length + 1] newline characters whatever the keys hold,
    and [length] is within the block. *)
Theorem print_pairs_lines (pairs : list Pair) (length : Z) (out : string) :
  print_pairs pairs length = Ok out ->
  count_newlines out = S (Z.to_nat length) /\
  (Z.to_nat length <= List.length pairs)%nat.
Proof.
  unfold print_pairs. intros H. apply bind_Ok in H as (out' & H & [= <-]).
  rewrite count_newlines_app. cbn [count_newlines]. cbn.
  assert (Hloop : forall n i out, 0 <= i ->
            print_pairs_loop pairs i n = Ok out ->
            count_newlines out = n /\
            (n <> O -> Z.to_nat i + n <= List.length pairs)%nat).
  { clear. induction n as [|n IH]; intros i out Hi H; cbn [print_pairs_loop] in H.
    - injection H as <-. done.
    - inv_Ok H. injection H as <-.
      apply array_get_Ok in E as [_ E]. apply lookup_lt_Some in E.
      apply IH in E2 as [Hcount Hlen]; [|lia].
      rewrite !count_newlines_app. unfold CTRL_TO_ESCAPE_P.
      rewrite print_sequence_no_newline, print_long_no_newline.
      cbn [count_newlines]. rewrite Hcount, Ascii.eqb_refl. cbn.
      split; [done|]. intros _. destruct n as [|n]; lia. }
  apply Hloop in H as [Hcount Hlen]; [|lia]. rewrite Hcount. split; lia.
Qed.

(** ** The program *)

Section ProgramFacts.

Variable qsort : (Pair -> Pair -> Z) -> list Pair -> list Pair.
Variable read_file : string -> option (list ascii * Z).
Hypothesis qsort_permutes : forall cmp l, qsort cmp l ≡ₚ l.

Lemma find_n_words_loop_represents (buffer : list ascii)
    (length wordcount multiplier : Z) (fuel : nat) :
  forall (hash hash' : Hash) (m : gmap string double) (words : list ascii)
         (i next_i : Z),
    represents hash m ->
    load_ok hash ->
    16 <= hash_length hash <= 2 ^ 52 ->
    Z.of_nat (size m) + Z.of_nat fuel <= 2 ^ 45 ->
    find_n_words_loop fuel hash buffer length wordcount multiplier words i next_i
      = Ok hash' ->
    exists m', represents hash' m' /\
               Z.of_nat (size m') <= Z.of_nat (size m) + Z.of_nat fuel.
Proof.
  induction fuel as [|fuel IH];
    intros hash hash' m words i next_i Hrep Hload Hlen Hsize H;
    cbn [find_n_words_loop] in H.
  - destruct (i <? length); [done|]. injection H as <-. exists m. split; [done|lia].
  - destruct (i <? length); [|injection H as <-; exists m; split; [done|lia]].
    inv_Ok H. destruct (z =? size_wrap wordcount).
    + inv_Ok H.
      destruct (insert_spec fuel hash (Inc a0 (double_of_int multiplier)) m
                  Hrep Hload Hlen ltac:(lia)) as (_ & _ & Hok).
      destruct (Hok a1 E2) as (Hrep1 & Hload1 & Hlen1).
      pose proof (model_insert_size m (Inc a0 (double_of_int multiplier))).
      apply (IH _ _ _ _ _ _ Hrep1 Hload1 Hlen1) in H as (m' & Hrep' & Hsz); [|lia].
      exists m'. split; [done|]. lia.
    + injection H as <-. exists m. split; [done|lia].
Qed.

(** X25.  [main] returns 0 and writes one line for each key that
    [find_n_words_for_file] has left in the table, and an empty line; when
    the file cannot be read that empty line is all it writes. *)
Theorem main_output_lines (fuel : nat) (ret : Z) (out : string) :
  Z.of_nat fuel <= 2 ^ 45 ->
  main qsort read_file fuel = Ok (ret, out) ->
  ret = 0 /\
  exists code hash,
    find_n_words_for_file read_file fuel hash_init
      "000bigfiles/0 prose/0 shakespeare DO NOT USE.txt" 2 1 = Ok (code, hash) /\
    count_newlines out = S (Z.to_nat (hash_count hash)) /\
    (code = -1 -> out = String newline EmptyString).
Proof.
  intros Hfuel H. unfold main in H. inv_Ok H. injection H as <- <-.
  split; [done|]. exists z, h. split; [done|].
  assert (Hrep : exists m, represents h m /\ Z.of_nat (size m) <= 2 ^ 45).
  { unfold find_n_words_for_file in E.
    destruct (read_file _) as [[buffer len]|].
    - inv_Ok E. injection E as <- <-.
      assert (Hempty : represents hash_init ∅)
        by (apply represents_empty; unfold DEFAULT_CAPACITY; lia).
      assert (Hload : load_ok hash_init) by (vm_compute; discriminate).
      assert (Hlen : 16 <= hash_length hash_init <= 2 ^ 52)
        by (vm_compute; split; discriminate).
      match goal with
      | Hloop : find_n_words_loop _ _ _ _ _ _ _ _ _ = Ok _ |- _ =>
          apply (find_n_words_loop_represents _ _ _ _ _ _ _ ∅ _ _ _
                   Hempty Hload Hlen) in Hloop as (m' & Hrep & Hsz);
            [|rewrite map_size_empty; lia]
      end.
      exists m'. split; [done|]. rewrite map_size_empty in Hsz. lia.
    - injection E as <- <-. exists ∅. split.
      + apply represents_empty. unfold DEFAULT_CAPACITY. lia.
      + rewrite map_size_empty. lia. }
  destruct Hrep as (m & Hrep & Hsz).
  destruct (hash_sort_permutation qsort qsort_permutes h m Hrep ltac:(lia))
    as (res & Hsort & Hperm).
  rewrite Hsort in E0. injection E0 as <- <-.
  split; [by apply print_pairs_lines in E1 as [? _]|].
  intros ->. unfold find_n_words_for_file in E.
  destruct (read_file _) as [[buffer len]|]; [by inv_Ok E|].
  injection E as <-.
  assert (m = ∅) as ->.
  { destruct Hrep as (_ & _ & Hc). apply map_size_empty_inv.
    cbn in Hc. lia. }
  rewrite map_to_list_empty in Hperm. apply Permutation_nil_r in Hperm as ->.
  cbn in E1. by injection E1 as <-.
Qed.

End ProgramFacts.

(** ** The further properties, on examples *)

Lemma insert_by_permutes (cmp : Pair -> Pair -> Z) (p : Pair) (l : list Pair) :
  insert_by cmp p l ≡ₚ p :: l.
Proof.
  induction l as [|q l IH]; [done|]. cbn.
  destruct (cmp p q <=? 0); [done|]. by rewrite IH, Permutation_swap.
Qed.

Lemma sort_by_permutes (cmp : Pair -> Pair -> Z) (l : list Pair) :
  sort_by cmp l ≡ₚ l.
Proof.
  induction l as [|p l IH]; [done|]. cbn.
  by rewrite insert_by_permutes, IH.
Qed.

(** A table built by the insertions of [hash_test]. *)
Lemma hash_test_table :
  exists hash,
    insert_all 1 hash_init hash_test_insertions = Ok hash /\
    represents hash (model hash_test_insertions).
Proof.
  destruct (built_represents 0 DEFAULT_CAPACITY hash_test_insertions)
    as (_ & _ & Hok).
  - vm_compute. split; discriminate.
  - vm_compute. discriminate.
  - eexists. split; [vm_compute; reflexivity|].
    match goal with |- represents ?h _ => apply (Hok h) end.
    vm_compute. reflexivity.
Defined.

Lemma resize_p_power_of_2_witness :
  resize_p 16 = true <-> exists e, 4 <= e < 64 /\ 16 = 2 ^ e.
Proof. apply (resize_p_power_of_2 16). lia. Defined.

Lemma next_power_of_2_spec_witness :
  exists e, 0 < e < 64 /\ next_power_of_2 16 = 2 ^ e /\ 2 ^ (e - 1) <= 16 < 2 ^ e.
Proof.
  destruct (next_power_of_2_spec 16) as (_ & H & _); [lia|].
  apply H. lia.
Defined.

Lemma hash_init_capacity_fresh_witness :
  hash_length hash_init = 16 /\
  hash_get hash_init "hello" = Ok (-1) /\ hash_exists hash_init "hello" = Ok 0.
Proof.
  destruct (hash_init_capacity_fresh DEFAULT_CAPACITY) as (_ & _ & _ & _ & H).
  - unfold DEFAULT_CAPACITY. lia.
  - split; [reflexivity|]. apply H.
Defined.

Lemma update_of_present_key_witness :
  exists hash hash',
    insert_all 1 hash_init hash_test_insertions = Ok hash /\
    hash_inc 0 hash "world" (double_of_int 1) = Ok hash' /\
    hash_count hash' = hash_count hash /\
    hash_length hash' = hash_length hash.
Proof.
  destruct (insert_all 1 hash_init hash_test_insertions) as [hash| |] eqn:Hbuilt;
    [|vm_compute in Hbuilt; discriminate|vm_compute in Hbuilt; discriminate].
  destruct (update_of_present_key 0 DEFAULT_CAPACITY hash_test_insertions
              hash "world" (double_of_int 1)) with (fuel' := O)
    as [_ (hash' & Hinc & Hc & Hl)].
  - unfold DEFAULT_CAPACITY. lia.
  - vm_compute. discriminate.
  - exact Hbuilt.
  - apply (bool_decide_unpack
             ("world"%string ∈ insertion_key <$> hash_test_insertions)).
    vm_compute. exact I.
  - exists hash, hash'. split; [reflexivity|]. split; [exact Hinc|]. split; assumption.
Defined.

Lemma full_bucket_overflows_witness :
  exists hash,
    insert_all 1 hash_init (take 16 seventeen_keys) = Ok hash /\
    hash_inc 1 hash "snt" (double_of_int 1) = UB.
Proof.
  destruct (insert_all 1 hash_init (take 16 seventeen_keys)) as [hash| |] eqn:Hbuilt;
    [|vm_compute in Hbuilt; discriminate|vm_compute in Hbuilt; discriminate].
  exists hash. split; [reflexivity|].
  destruct (built_represents 0 DEFAULT_CAPACITY (take 16 seventeen_keys))
    as (_ & _ & Hok); [unfold DEFAULT_CAPACITY; lia|vm_compute; discriminate|].
  destruct (Hok hash Hbuilt) as [(Hinv & _) _].
  assert (Hhash : Ok hash = insert_all 1 hash_init (take 16 seventeen_keys))
    by (symmetry; exact Hbuilt).
  vm_compute in Hhash. injection Hhash as Hhash.
  destruct (buckets hash !! slot_of hash "snt") as [b|] eqn:Hb;
    [|subst hash; vm_compute in Hb; discriminate].
  destruct (full_bucket_overflows (fun old => double_add old (double_of_int 1))
              hash "snt" (double_of_int 1) b Hinv Hb) as [_ Hfull].
  apply Hfull.
  - subst hash. vm_compute. reflexivity.
  - subst hash. vm_compute in Hb. injection Hb as <-. reflexivity.
Defined.

Lemma hash_merge_adds_witness :
  exists src dest,
    insert_all 1 hash_init hash_test_insertions = Ok src /\
    hash_merge 1 hash_init src = Ok dest /\
    hash_get dest "world" = Ok 10.
Proof.
  destruct hash_test_table as (src & Hbuilt & Hrep).
  destruct (hash_merge 1 hash_init src) as [dest| |] eqn:Hm; [|exfalso|exfalso].
  - exists src, dest. split; [exact Hbuilt|]. split; [exact Hm|].
    destruct (hash_merge_adds 0 hash_init src ∅ (model hash_test_insertions))
      as (_ & _ & Hok).
    + apply represents_empty. unfold DEFAULT_CAPACITY. lia.
    + vm_compute. discriminate.
    + vm_compute. split; discriminate.
    + exact Hrep.
    + vm_compute. discriminate.
    + destruct (Hok dest Hm) as [(Hinv & Hl & _) _].
      rewrite hash_get_lookup, Hl by exact Hinv. vm_compute. reflexivity.
  - vm_compute in Hbuilt. injection Hbuilt as <-. vm_compute in Hm. discriminate.
  - vm_compute in Hbuilt. injection Hbuilt as <-. vm_compute in Hm. discriminate.
Defined.

Lemma hash_foreach_first_nonzero_witness :
  exists hash,
    insert_all 1 hash_init hash_test_insertions = Ok hash /\
    hash_foreach hash (fun k _ => if String.eqb k "world" then 7 else 0) = Ok 7.
Proof.
  destruct hash_test_table as (hash & Hbuilt & (Hinv & _)).
  exists hash. split; [exact Hbuilt|].
  destruct (hash_foreach_first_nonzero hash
              (fun k _ => if String.eqb k "world" then 7 else 0) Hinv)
    as (Heq & _).
  - vm_compute in Hbuilt. injection Hbuilt as <-. vm_compute. discriminate.
  - rewrite Heq. vm_compute in Hbuilt. injection Hbuilt as <-.
    vm_compute. reflexivity.
Defined.

Lemma pair_comparator_antisym_witness :
  pair_comparator (mkPair None (double_of_int 3)) (mkPair None (double_of_int 5)) = 1 /\
  pair_comparator (mkPair None (double_of_int 5)) (mkPair None (double_of_int 3)) = -1.
Proof.
  destruct (pair_comparator_antisym (mkPair None (double_of_int 3))
              (mkPair None (double_of_int 5))) as (Hanti & _).
  split; [reflexivity|]. rewrite Hanti. reflexivity.
Defined.

Lemma hash_sort_permutation_witness :
  exists hash res,
    insert_all 1 hash_init hash_test_insertions = Ok hash /\
    hash_sort sort_by hash = Ok (res, 2) /\
    res ≡ₚ pair_of_item <$> map_to_list (model hash_test_insertions).
Proof.
  destruct hash_test_table as (hash & Hbuilt & Hrep).
  destruct (hash_sort_permutation sort_by sort_by_permutes hash
              (model hash_test_insertions) Hrep) as (res & Hsort & Hperm).
  - vm_compute. reflexivity.
  - exists hash, res. split; [exact Hbuilt|]. split; [|exact Hperm].
    rewrite Hsort. vm_compute in Hbuilt. injection Hbuilt as <-. reflexivity.
Defined.

(** The character at offset 1 is a control character, and is not looked
    at. *)
Lemma legal_chars_stride_witness :
  legal_chars ["a"; "001"; "b"; "c"]%char 0 2 = Ok true.
Proof.
  apply (legal_chars_stride ["a"; "001"; "b"; "c"]%char 0 2); [lia|].
  intros i Hi. assert (i = 0 \/ i = 1) as [-> | ->] by lia.
  - exists "a"%char. split; reflexivity.
  - exists "b"%char. split; reflexivity.
Defined.

Lemma filter_chars_lowers_witness :
  filter_chars ["A"; "b"; "C"; NUL; "X"; "y"]%char
  = Ok ["a"; "b"; "c"; NUL; "X"; "y"]%char.
Proof.
  destruct (filter_chars_lowers ["A"; "b"; "C"; NUL; "X"; "y"]%char) as [H _].
  apply (H ["A"; "b"; "C"]%char ["X"; "y"]%char); [|reflexivity].
  apply (bool_decide_unpack (NUL ∉ ["A"; "b"; "C"]%char)). vm_compute. exact I.
Defined.

Lemma freq_hash_inc_restores_witness :
  exists buffer' hash',
    freq_hash_inc 1 hash_init (list_ascii_of_string "hello world" ++ [NUL]) 0
      (double_of_int 1) (mkMatch 0 5) (mkMatch (-1) (-1)) = Ok (buffer', hash') /\
    buffer' = list_ascii_of_string "hello world" ++ [NUL] /\
    hash_get hash' "hello" = Ok 1.
Proof.
  destruct (freq_hash_inc 1 hash_init (list_ascii_of_string "hello world" ++ [NUL])
              0 (double_of_int 1) (mkMatch 0 5) (mkMatch (-1) (-1)))
    as [[buffer' hash']| |] eqn:H;
    [|vm_compute in H; discriminate|vm_compute in H; discriminate].
  exists buffer', hash'. split; [reflexivity|].
  destruct (freq_hash_inc_restores _ _ _ _ _ _ _ _ _ H) as [Hb _].
  split; [exact Hb|].
  vm_compute in H. injection H as _ <-. vm_compute. reflexivity.
Defined.

Lemma freq_scan_touches_one_byte_witness :
  let buffer := (file_block (replicate 1100 "a"%char)).1 in
  (<[1000%nat := NUL]> buffer = buffer \/
   exists j, (j < length buffer)%nat /\ <[1000%nat := NUL]> buffer = <[j := NUL]> buffer).
Proof.
  intros buffer.
  destruct (freq_scan_touches_one_byte regexec_espace 1 None None buffer
              (<[1000%nat := NUL]> buffer) 1100 tt true (double_of_int 1) (-4))
    as (H & _).
  - vm_compute. reflexivity.
  - exact H.
Defined.

Lemma freq_scan_empty_match_never_returns_witness :
  freq_scan_loop regexec_empty 5 None (file_block (replicate 1100 "a"%char)).1
    1100 tt false (double_of_int 1) 0 0
  <> Ok (5, (file_block (replicate 1100 "a"%char)).1, None).
Proof.
  apply (freq_scan_empty_match_never_returns regexec_empty
           (file_block (replicate 1100 "a"%char)).1
           (<[1000%nat := NUL]> (file_block (replicate 1100 "a"%char)).1)
           1100 tt (double_of_int 1) 0
           (string_of_list_ascii (replicate 1000 "a"%char))
           (mkMatch 0 0) (mkMatch (-1) (-1))).
  - lia.
  - lia.
  - vm_compute. reflexivity.
  - vm_compute. reflexivity.
  - reflexivity.
  - reflexivity.
Defined.

Lemma freq_scan_counting_terminates_witness :
  freq_scan regexec_dot_espace 1100 None (file_block (replicate 1100 "a"%char)).1
    1100 tt true (double_of_int 1) <> OutOfFuel.
Proof.
  apply (freq_scan_counting_terminates regexec_dot_espace).
  - lia.
  - intros s m0 m1. unfold regexec_dot_espace. destruct s as [|c s]; [discriminate|].
    destruct (Ascii.eqb c "x"); [discriminate|]. intros [= <- _]. vm_compute.
    split; discriminate.
  - lia.
Defined.

Lemma freq_read_files_codes_witness :
  (-2 = 0 /\ (fun _ : string => @None unit) "[a-z]"%string <> None /\
   forall name, name ∈ files -> one_file [] name <> None) \/
  (-2 = -1 /\ (fun _ : string => @None unit) "[a-z]"%string <> None /\
   exists name, name ∈ files /\ one_file [] name = None) \/
  (-2 = -2 /\ (fun _ : string => @None unit) "[a-z]"%string = None /\
   hash_init = hash_init).
Proof.
  apply (freq_read_files_codes (fun _ => None) regexec_nomatch (one_file [])
           1 hash_init hash_init "[a-z]" (-2)).
  reflexivity.
Defined.

Lemma find_n_words_codes_witness :
  exists hash,
    find_n_words (fun name => if String.eqb name "000bigfiles/01allCasual.txt"
                              then None
                              else Some (file_block (list_ascii_of_string "to be or")))
      30 hash_init 2 = Ok (-1, hash) /\
    (hash_items hash).*1 = ["be or"; "to be"]%string.
Proof.
  set (fs := fun name => if String.eqb name "000bigfiles/01allCasual.txt"
                         then None
                         else Some (file_block (list_ascii_of_string "to be or"))).
  destruct (find_n_words fs 30 hash_init 2) as [[ret hash]| |] eqn:H;
    [|vm_compute in H; discriminate|vm_compute in H; discriminate].
  destruct (find_n_words_codes fs 30 hash_init hash 2 ret H)
    as [[-> _]|[-> _]].
  - vm_compute in H. discriminate.
  - exists hash. split; [reflexivity|].
    vm_compute in H. injection H as <-. vm_compute. reflexivity.
Defined.

Lemma skip_separators_run_witness :
  skip_separators 2 (list_ascii_of_string ", ab") 4 0 = Ok 2.
Proof.
  apply (skip_separators_run 2 (list_ascii_of_string ", ab") 4 0).
  - lia.
  - vm_compute. discriminate.
  - lia.
  - vm_compute. lia.
Defined.

(** A word of five characters does not fit an array of four. *)
Lemma copy_word_run_witness :
  copy_word 5 (list_ascii_of_string "don't stop") 10 (replicate 4 NUL) 0 0 = UB.
Proof.
  apply (copy_word_run 5 (list_ascii_of_string "don't stop") 10 (replicate 4 NUL) 0 0).
  - lia.
  - vm_compute. discriminate.
  - lia.
  - vm_compute. split; discriminate.
  - vm_compute. reflexivity.
  - vm_compute. lia.
Defined.

Lemma print_sequence_injective_witness :
  print_sequence (String "a" (String "009" (String "b" EmptyString))) true = "a\tb"%string /\
  unescape "a\tb" = String "a" (String "009" (String "b" EmptyString)).
Proof.
  destruct print_sequence_injective as (H & _).
  split; [reflexivity|]. apply (H (String "a" (String "009" (String "b" EmptyString)))).
Defined.

Lemma print_pairs_lines_witness :
  exists out,
    print_pairs [mkPair (Some "to be") (double_of_int 2);
                 mkPair (Some "be or") (double_of_int 1)] 2 = Ok out /\
    count_newlines out = 3%nat.
Proof.
  destruct (print_pairs [mkPair (Some "to be") (double_of_int 2);
                         mkPair (Some "be or") (double_of_int 1)] 2)
    as [out| |] eqn:H; [|vm_compute in H; discriminate|vm_compute in H; discriminate].
  exists out. split; [reflexivity|].
  by destruct (print_pairs_lines _ _ _ H) as [-> _].
Defined.

Lemma read_file_block_witness :
  read_file (fun _ => Some (replicate 100 "a"%char)) NUL "f"
  = Ok (Some (file_block (replicate 100 "a"%char))).
Proof.
  destruct (read_file_block (fun _ => Some (replicate 100 "a"%char)) NUL "f"
              (replicate 100 "a"%char)) as (_ & _ & _ & H).
  - reflexivity.
  - vm_compute. reflexivity.
  - apply H; vm_compute; reflexivity.
Defined.

Lemma main_output_lines_witness :
  exists out code hash,
    main sort_by (one_file (list_ascii_of_string "to be or not to be")) 30
      = Ok (0, out) /\
    find_n_words_for_file (one_file (list_ascii_of_string "to be or not to be"))
      30 hash_init "000bigfiles/0 prose/0 shakespeare DO NOT USE.txt" 2 1
      = Ok (code, hash) /\
    count_newlines out = S (Z.to_nat (hash_count hash)).
Proof.
  destruct (main sort_by (one_file (list_ascii_of_string "to be or not to be")) 30)
    as [[ret out]| |] eqn:H;
    [|vm_compute in H; discriminate|vm_compute in H; discriminate].
  destruct (main_output_lines sort_by
              (one_file (list_ascii_of_string "to be or not to be"))
              sort_by_permutes 30 ret out)
    as (-> & code & hash & Hfind & Hlines & _).
  - vm_compute. discriminate.
  - exact H.
  - exists out, code, hash. split; [reflexivity|]. split; [exact Hfind|exact Hlines].
Defined.

Lemma hash_put_then_get_witness :
  exists hash hash',
    insert_all 1 hash_init hash_test_insertions = Ok hash /\
    hash_put 1 hash "world" (double_of_int 7) = Ok hash' /\
    hash_get hash' "world" = Ok 7 /\
    hash_get hash' "hello" = hash_get hash "hello".
Proof.
  destruct (insert_all 1 hash_init hash_test_insertions) as [hash| |] eqn:Hbuilt;
    [|vm_compute in Hbuilt; discriminate|vm_compute in Hbuilt; discriminate].
  destruct (hash_put 1 hash "world" (double_of_int 7)) as [hash'| |] eqn:Hput;
    [|exfalso|exfalso].
  - exists hash, hash'. split; [reflexivity|]. split; [exact Hput|].
    destruct (hash_put_then_get 0 DEFAULT_CAPACITY hash_test_insertions hash hash'
                "world" (double_of_int 7)) as (Hget & _ & Hother).
    + unfold DEFAULT_CAPACITY. lia.
    + vm_compute. reflexivity.
    + exact Hbuilt.
    + exact Hput.
    + split; [rewrite Hget; vm_compute; reflexivity|]. apply Hother. discriminate.
  - vm_compute in Hbuilt. injection Hbuilt as <-. vm_compute in Hput. discriminate.
  - vm_compute in Hbuilt. injection Hbuilt as <-. vm_compute in Hput. discriminate.
Defined.

Lemma hash_inc_accumulates_witness :
  exists hash,
    insert_all 1 hash_init
      ([Put "hello" (double_of_int 1)] ++
       (Inc "world" <$> [double_of_int 5; double_of_int 5; double_of_int 2]))
      = Ok hash /\
    hash_get hash "world" = Ok 12.
Proof.
  destruct (insert_all 1 hash_init
              ([Put "hello" (double_of_int 1)] ++
               (Inc "world" <$> [double_of_int 5; double_of_int 5; double_of_int 2])))
    as [hash| |] eqn:Hbuilt;
    [|vm_compute in Hbuilt; discriminate|vm_compute in Hbuilt; discriminate].
  exists hash. split; [reflexivity|].
  destruct (hash_inc_accumulates 0 DEFAULT_CAPACITY
              [Put "hello" (double_of_int 1)] hash "world" (double_of_int 5)
              [double_of_int 5; double_of_int 2]) as (_ & Hget & _).
  - unfold DEFAULT_CAPACITY. lia.
  - vm_compute. reflexivity.
  - exact Hbuilt.
  - rewrite Hget. vm_compute. reflexivity.
Defined.
